(** * pyquiz.expr.matrix: matrices and vectors over exact scalars

    A shallow embedding of [src/pyquiz/expr/matrix.py].  Matrix entries
    are exact rationals (Python [int] and exact fractions), Python
    integers used for indices, sizes and exponents are [Z], Python lists
    are [seq], and a raised exception is a value of [result]. *)

From Stdlib Require Import ZArith Lia String.
From HB Require Import structures.
From mathcomp Require Import boot algebra.

Set Implicit Arguments.
Unset Strict Implicit.
Unset Printing Implicit Defensive.

Import GRing.Theory.
Local Open Scope ring_scope.
Delimit Scope Z_scope with Z.

(** ** Exceptions *)

(** [Inapplicable] is the deferral signal of the rule dispatcher; every
    other exception is a hard error.  The last two are not Python
    exceptions: [FuelExhausted] marks a loop or recursion of the model
    that ran out of fuel (shown never to happen), [Unmodelled] a result
    that is a symbolic expression, which the exact scalars of this model
    do not hold. *)
Inductive error :=
| Inapplicable
| ValueError
| AssertionError
| IndexError
| NameError
| ZeroDivisionError
| TypeError
| FuelExhausted
| Unmodelled.

Inductive result (T : Type) :=
| Ok (v : T)
| Raise (e : error).
Arguments Ok {T} v.
Arguments Raise {T} e.

Definition bind {T U : Type} (m : result T) (f : T -> result U) : result U :=
  match m with
  | Ok v => f v
  | Raise e => Raise e
  end.

Declare Scope result_scope.
Delimit Scope result_scope with result.
Notation "'Let' x ':=' m 'in' body" := (bind m (fun x => body))
  (x name, at level 200, m at level 100, body at level 200,
   right associativity) : result_scope.
Local Open Scope result_scope.

Definition is_deferral {T : Type} (r : result T) : bool :=
  if r is Raise Inapplicable then true else false.

Definition is_hard_error {T : Type} (r : result T) : bool :=
  match r with
  | Raise (ValueError | AssertionError | IndexError | NameError
           | ZeroDivisionError | TypeError) => true
  | _ => false
  end.

(** A [for] loop over [xs] that threads an accumulator and stops at the
    first exception. *)
Fixpoint for_acc {A T : Type} (xs : seq A) (acc : T)
    (body : A -> T -> result T) : result T :=
  match xs with
  | [::] => Ok acc
  | x :: xs' => Let acc' := body x acc in for_acc xs' acc' body
  end.

(** A list comprehension whose element expression may raise. *)
Fixpoint map_r {A B : Type} (f : A -> result B) (xs : seq A) : result (seq B) :=
  match xs with
  | [::] => Ok [::]
  | x :: xs' => Let y := f x in Let ys := map_r f xs' in Ok (y :: ys)
  end.

(** A [for] loop whose body may [return] (or [raise]): the result of the
    first iteration that does, [None] when the loop runs to its end. *)
Fixpoint for_first {A R : Type} (xs : seq A) (body : A -> option R) : option R :=
  match xs with
  | [::] => None
  | x :: xs' => if body x is Some r then Some r else for_first xs' body
  end.

(** ** Values *)

Definition scalar : Type := rat.

(** [range(n)] and the 1-based [irange(n)] for a Python integer [n]. *)
Definition py_range (n : Z) : seq nat := iota 0 (Z.to_nat n).
Definition py_range2 (a b : Z) : seq nat := iota (Z.to_nat a) (Z.to_nat (b - a)).

(** Modelled from the spec: [irange] lives in [core], which is not part of
    the visible source; the spec calls it "a 1-based integer range
    generator". *)
Definition irange (n : nat) : seq Z := [seq Z.of_nat k | k <- iota 1 n].

(** An expression is a head and its arguments.  The heads this module
    meets: a number, an opaque symbolic expression, a matrix (its
    arguments are the rows) and a sum. *)
Inductive Expr :=
| Num (q : scalar)
| Sym (name : string)
| Matrix (args : seq (seq scalar))
| Plus (args : seq Expr).

Definition is_matrix (e : Expr) : bool :=
  if e is Matrix _ then true else false.

(** A Python value passed where an index or an exponent is expected: an
    [int], an expression, or a value of another type ([float], [str],
    [bool], ...). *)
Inductive pyval :=
| PyInt (z : Z)
| PyExpr (e : Expr)
| PyOther (repr : string).

(** ** Construction and access *)

Definition vector (elts : seq scalar) : result Expr :=
  if size elts == 0%N then Raise ValueError
  else Ok (Matrix [seq [:: elt] | elt <- elts]).

Definition matrix (rows : seq (seq scalar)) : result Expr :=
  if size rows == 0%N then Raise ValueError
  else if has (fun row => size row != size (nth [::] rows 0)) rows
       then Raise ValueError
  else Ok (Matrix rows).

Definition identity_matrix (n : Z) : result Expr :=
  if (n <=? 0)%Z then Raise ValueError
  else matrix [seq [seq (if i == j then 1 else 0) | j <- py_range n] | i <- py_range n].

Definition nrows (e : Expr) : result nat :=
  if e is Matrix args then Ok (size args) else Raise ValueError.

Definition ncols (e : Expr) : result nat :=
  match e with
  | Matrix (row0 :: _) => Ok (size row0)
  | Matrix [::] => Raise IndexError
  | _ => Raise ValueError
  end.

(** [xs[i]] for a non-negative in-range [i]; Python raises [IndexError]
    past the end. *)
Definition getitem {T : Type} (xs : seq T) (i : nat) : result T :=
  if ohead (drop i xs) is Some x then Ok x else Raise IndexError.

Definition rows (e : Expr) : result (seq Expr) :=
  if e is Matrix args then map_r vector args else Raise ValueError.

Definition args_of (e : Expr) : seq (seq scalar) :=
  if e is Matrix args then args else [::].

(** [all(p(x) for x in xs)] over a generator: evaluation stops at the
    first [False]. *)
Fixpoint all_r {A : Type} (p : A -> result bool) (xs : seq A) : result bool :=
  match xs with
  | [::] => Ok true
  | x :: xs' => Let b := p x in if b then all_r p xs' else Ok false
  end.

Definition matrix_with_rows (rows : seq Expr) : result Expr :=
  if size rows == 0%N then Raise ValueError
  else if ~~ all is_matrix rows then Raise ValueError
  else
    Let r0 := getitem rows 0 in
    Let n := ncols r0 in
    Let same := all_r (fun r => Let c := ncols r in Ok (n == c)) rows in
    if ~~ same then Raise ValueError
    else Ok (Matrix (flatten [seq args_of r | r <- rows])).

(** ** Indexed access *)

Definition rule_part_vector (e : Expr) (idx : pyval) : result scalar :=
  match e, idx with
  | Matrix args, PyInt i =>
      Let c := ncols e in
      if c != 1%N then Raise ValueError
      else if ~~ ((1 <=? i)%Z && (i <=? Z.of_nat (size args))%Z)
        then Raise ValueError
      else Let row := getitem args (Z.to_nat (i - 1)) in getitem row 0
  | Matrix _, PyExpr _ => Raise Inapplicable
  | Matrix _, PyOther _ => Raise ValueError
  | _, _ => Raise Inapplicable
  end.

(** The two messages for a non-integer index interpolate [idx], a name
    that is not bound in [rule_part_matrix]: formatting the message
    raises [NameError] before the [ValueError] is built. *)
Definition rule_part_matrix (e : Expr) (idx1 idx2 : pyval) : result scalar :=
  match e, idx1, idx2 with
  | Matrix args, PyInt i1, PyInt i2 =>
      if ~~ ((1 <=? i1)%Z && (i1 <=? Z.of_nat (size args))%Z)
        then Raise ValueError
      else
        Let c := ncols e in
        if ~~ ((1 <=? i2)%Z && (i2 <=? Z.of_nat c)%Z) then Raise ValueError
        else Let row := getitem args (Z.to_nat (i1 - 1)) in
             getitem row (Z.to_nat (i2 - 1))
  | Matrix _, PyExpr _, _ => Raise Inapplicable
  | Matrix _, _, PyExpr _ => Raise Inapplicable
  | Matrix _, _, _ => Raise NameError
  | _, _, _ => Raise Inapplicable
  end.

(** ** Determinant and adjugate *)

(** The inner function [expand] of [det].  Each recursive call is on a
    list one shorter, so [fuel] above the number of rows is never used
    up. *)
Fixpoint expand (fuel : nat) (rows : seq (seq scalar)) : result scalar :=
  if fuel is fuel'.+1 then
    if size rows == 1%N then
      Let row0 := getitem rows 0 in
      if size row0 != 1%N then Raise AssertionError else getitem row0 0
    else
      for_acc (iota 0 (size rows)) 0 (fun i acc =>
        let submatrix :=
          [seq behead row | row <- take i rows ++ drop i.+1 rows] in
        Let rowi := getitem rows i in
        Let x := getitem rowi 0 in
        Let d := expand fuel' submatrix in
        Ok (acc + (-1) ^+ i * x * d))
  else Raise FuelExhausted.

Definition det (e : Expr) : result scalar :=
  if e is Matrix args then
    Let r := nrows e in
    Let c := ncols e in
    if r != c then Raise ValueError else expand (size args).+1 args
  else Raise Inapplicable.

Definition enumerate {T : Type} (xs : seq T) : seq (nat * T) :=
  zip (iota 0 (size xs)) xs.

(** [[v for j, v in enumerate(xs) if j != j0]] *)
Definition without {T : Type} (j0 : nat) (xs : seq T) : seq T :=
  [seq jv.2 | jv <- enumerate xs & jv.1 != j0].

Definition adj (e : Expr) : result Expr :=
  if e is Matrix rows then
    Let row0 := getitem rows 0 in
    if size rows != size row0 then Raise ValueError
    else
      let n := size rows in
      let C i0 j0 :=
        let rows2 := [seq without j0 row | row <- without i0 rows] in
        Let m := matrix rows2 in det m in
      Let rs := map_r (fun i =>
                  map_r (fun j => Let c := C j i in Ok ((-1) ^+ (i + j) * c))
                        (iota 0 n))
                (iota 0 n) in
      matrix rs
  else Raise Inapplicable.

(** ** Arithmetic rules *)

(** Modelled from the spec: [A[i, k]] on an expression is built by [core],
    which is not part of the visible source; the spec routes indexed
    access with two integer indices to the two-index "Part" rule. *)
Definition part2 (A : Expr) (i k : Z) : result scalar :=
  rule_part_matrix A (PyInt i) (PyInt k).

Definition reduce_matmul (A B : Expr) : result Expr :=
  if ~~ is_matrix A || ~~ is_matrix B then Raise Inapplicable
  else
    Let ca := ncols A in
    Let rb := nrows B in
    if ca != rb then Raise ValueError
    else
      Let ra := nrows A in
      Let C := map_r (fun i =>
                 Let cb := ncols B in
                 map_r (fun j =>
                   for_acc (irange ca) 0 (fun k x =>
                     Let a := part2 A i k in
                     Let b := part2 B k j in
                     Ok (x + a * b)))
                 (irange cb))
               (irange ra) in
      matrix C.

(** Modelled from the spec: [evaluate] and [expr] live in [core] and
    [manipulate], which are not part of the visible source.  The spec:
    "the product of the remaining (scalar) factors".  For numbers that
    product is a number. *)
Fixpoint evaluate_times (factors : seq Expr) : result scalar :=
  match factors with
  | [::] => Ok 1
  | Num x :: factors' => Let y := evaluate_times factors' in Ok (x * y)
  | _ :: _ => Raise Unmodelled
  end.

Definition rule_scalar_multiplication (args : seq Expr) : result Expr :=
  if (size args <= 1)%N then Raise Inapplicable
  else
    let found := for_first (enumerate args) (fun ia =>
      if ia.2 is Matrix rows then
        let i := ia.1 in
        Some (Let rest := evaluate_times (take i args ++ drop i.+1 args) in
              Ok (Matrix [seq [seq rest * x | x <- row] | row <- rows]))
      else None) in
    if found is Some r then r else Raise Inapplicable.

(** [xs[a:b]] for [0 <= a]. *)
Definition slice {T : Type} (a b : nat) (xs : seq T) : seq T :=
  take (b - a) (drop a xs).

Definition matrix_sum (A B : seq (seq scalar)) : seq (seq scalar) :=
  [seq [seq cc.1 + cc.2 | cc <- zip rr.1 rr.2] | rr <- zip A B].

(** Modelled from the spec: [expr("Plus", ...)] is built by [core], which
    is not part of the visible source; the spec: the summed pair is
    replaced and the other summands are left untouched.  It is the sum
    node over the given summands, in their order. *)
Definition expr_Plus (summands : seq Expr) : Expr := Plus summands.

Definition rule_matrix_addition (args : seq Expr) : result Expr :=
  let found :=
    for_first (py_range (Z.of_nat (size args) - 1)) (fun i =>
      match getitem args i with
      | Raise e => Some (Raise e)
      | Ok ai =>
        if ~~ is_matrix ai then None
        else
          for_first (py_range2 (Z.of_nat i + 1) (Z.of_nat (size args)))
            (fun j =>
              match getitem args j with
              | Raise e => Some (Raise e)
              | Ok aj =>
                if ~~ is_matrix aj then None
                else Some (
                  Let ri := nrows ai in
                  Let rj := nrows aj in
                  if ri != rj then Raise ValueError
                  else
                    Let ci := ncols ai in
                    Let cj := ncols aj in
                    if ci != cj then Raise ValueError
                    else
                      let a2 := Matrix (matrix_sum (args_of ai) (args_of aj)) in
                      Ok (expr_Plus (take i args ++ a2 :: slice i.+1 j args
                                     ++ drop j.+1 args)))
              end)
      end) in
  if found is Some r then r else Raise Inapplicable.

(** Modelled from the spec: [frac] lives in [arith], which is not part of
    the visible source.  The spec: exact rational division, and "division
    by a zero determinant must surface as a hard error". *)
Definition frac (v d : scalar) : result scalar :=
  if d == 0 then Raise ZeroDivisionError else Ok (v / d).

(** The [while] loop of [reduce_matrix_inverse]; [P @ B] is dispatched to
    the matrix-product rule. *)
Fixpoint pow_loop (fuel : nat) (i npos : Z) (B P : Expr) : result Expr :=
  if fuel is fuel'.+1 then
    if (i <=? npos)%Z then
      Let P' := (if (Z.land i npos =? 0)%Z then Ok P else reduce_matmul P B) in
      Let B' := reduce_matmul B B in
      pow_loop fuel' (Z.shiftl i 1) npos B' P'
    else Ok P
  else Raise FuelExhausted.

Definition reduce_matrix_inverse (A : Expr) (n : pyval) : result Expr :=
  match A, n with
  | Matrix _, PyInt n =>
      Let r := nrows A in
      Let c := ncols A in
      if r != c then Raise ValueError
      else
        let npos := Z.abs n in
        Let r := nrows A in
        Let P0 := identity_matrix (Z.of_nat r) in
        Let P := pow_loop (Z.to_nat npos).+1 1 npos A P0 in
        if (n >=? 0)%Z then Ok P
        else
          Let d := det P in
          Let a := adj P in
          Let rs := map_r (fun row => map_r (fun v => frac v d) row)
                          (args_of a) in
          matrix rs
  | _, _ => Raise Inapplicable
  end.


(** ** Row reduction *)

(** One entry of the trace of elementary row operations.  The text of an
    entry is made by the expression printer; the model keeps what the
    entry describes: the operation, its rows (1-based, as printed) and
    its scalar. *)
Inductive step :=
| StepSwap (i j : nat)
| StepScale (c : scalar) (i : nat)
| StepReplace (i : nat) (c : scalar) (j : nat).

(** Statements that read and write a store [S] and may raise: the store
    is kept when an exception is raised. *)
Definition M (S T : Type) : Type := S -> S * result T.

Definition ret {S T : Type} (v : T) : M S T := fun s => (s, Ok v).
Definition raise {S T : Type} (e : error) : M S T := fun s => (s, Raise e).
Definition lift {S T : Type} (r : result T) : M S T := fun s => (s, r).
Definition bindM {S T U : Type} (m : M S T) (f : T -> M S U) : M S U :=
  fun s => match m s with
           | (s', Ok v) => f v s'
           | (s', Raise e) => (s', Raise e)
           end.

Declare Scope stmt_scope.
Delimit Scope stmt_scope with stmt.
Notation "'Do' x ':=' m 'in' body" := (bindM m (fun x => body))
  (x name, at level 200, m at level 100, body at level 200,
   right associativity) : stmt_scope.
Notation "m ';;' body" := (bindM m (fun _ => body))
  (at level 100, body at level 200, right associativity) : stmt_scope.
Local Open Scope stmt_scope.

(** [for x in xs: body(x)] *)
Fixpoint forM {S A : Type} (xs : seq A) (body : A -> M S unit) : M S unit :=
  match xs with
  | [::] => ret tt
  | x :: xs' => body x ;; forM xs' body
  end.

(** [for x in xs: body(x)] where [body] answers [true] on [break]. *)
Fixpoint for_break {S A : Type} (xs : seq A) (body : A -> M S bool) : M S unit :=
  match xs with
  | [::] => ret tt
  | x :: xs' => Do stop := body x in if stop then ret tt else for_break xs' body
  end.

(** [all(p(x) for x in xs)], stopping at the first [False]. *)
Fixpoint allM {S A : Type} (p : A -> M S bool) (xs : seq A) : M S bool :=
  match xs with
  | [::] => ret true
  | x :: xs' => Do b := p x in if b then allM p xs' else ret false
  end.

(** What the loops of [row_reduce] do to the working copy [mat] and to
    [steps_out]. *)
Record working_copy (S : Type) := WorkingCopy {
  wc_get : nat -> nat -> M S scalar;          (* mat[i][k] *)
  wc_set : nat -> nat -> scalar -> M S unit;  (* mat[i][k] = v *)
  wc_swap : nat -> nat -> M S unit;           (* mat[i], mat[j] = mat[j], mat[i] *)
  wc_append : step -> M S unit                (* if steps_out != None: steps_out.append(..) *)
}.

Section RowReduceLoops.

Variables (S : Type) (wc : working_copy S).
Variables (rows cols : nat) (to_col : Z).

Definition swap (i j : nat) : M S unit :=
  wc_swap wc i j ;;
  wc_append wc (StepSwap i.+1 j.+1).

Definition scale (i : nat) (c : scalar) : M S unit :=
  forM (iota 0 cols) (fun k =>
    Do v := wc_get wc i k in wc_set wc i k (v * c)) ;;
  wc_append wc (StepScale c i.+1).

Definition replace (i j : nat) (c : scalar) : M S unit :=
  forM (iota 0 cols) (fun k =>
    Do a := wc_get wc i k in
    Do b := wc_get wc j k in
    wc_set wc i k (a + c * b)) ;;
  wc_append wc (StepReplace i.+1 c j.+1).

Definition is_zero (i : nat) : M S bool :=
  allM (fun k => Do v := wc_get wc i k in ret (v == 0)) (iota 0 cols).

(** [while last_nz >= 0 and is_zero(last_nz): last_nz -= 1] *)
Fixpoint skip_zero_rows (fuel : nat) (last_nz : Z) : M S Z :=
  if fuel is fuel'.+1 then
    if (last_nz >=? 0)%Z then
      Do z := is_zero (Z.to_nat last_nz) in
      if z then skip_zero_rows fuel' (last_nz - 1)%Z else ret last_nz
    else ret last_nz
  else raise FuelExhausted.

(** The main [while] loop; it answers the final [last_nz], the one loop
    variable that is read afterwards. *)
Fixpoint forward (fuel : nat) (i j : nat) (last_nz : Z) : M S Z :=
  if fuel is fuel'.+1 then
    if (i < rows)%N && (Z.of_nat j <? to_col)%Z then
      Do z := is_zero i in
      Do br := (if z then
                  if (Z.of_nat i >=? last_nz)%Z then ret (true, last_nz)
                  else swap i (Z.to_nat last_nz) ;;
                       ret (false, (last_nz - 1)%Z)
                else ret (false, last_nz)) in
      if br.1 then ret br.2
      else
        let last_nz := br.2 in
        Do v := wc_get wc i j in
        (if v == 0 then
           for_break (py_range2 (Z.of_nat i + 1) (last_nz + 1)) (fun k =>
             Do w := wc_get wc k j in
             if w != 0 then swap i k ;; ret true else ret false)
         else ret tt) ;;
        Do v := wc_get wc i j in
        if v == 0 then forward fuel' i j.+1 last_nz
        else
          Do v := wc_get wc i j in
          (if v != 1 then
             Do v := wc_get wc i j in
             Do c := lift (frac 1 v) in
             scale i c
           else ret tt) ;;
          forM (py_range2 (Z.of_nat i + 1) (last_nz + 1)) (fun k =>
            Do w := wc_get wc k j in
            if w != 0 then
              Do w := wc_get wc k j in replace k i (- w)
            else ret tt) ;;
          forward fuel' i.+1 j.+1 last_nz
    else ret last_nz
  else raise FuelExhausted.

(** The pass of [if rref:]. *)
Definition backward (last_nz : Z) : M S unit :=
  forM (rev (py_range (last_nz + 1))) (fun i =>
    for_break (py_range to_col) (fun j =>
      Do v := wc_get wc i j in
      if v != 0 then
        forM (rev (iota 0 i)) (fun k =>
          Do w := wc_get wc k j in
          if w != 0 then
            Do w := wc_get wc k j in replace k i (- w)
          else ret tt) ;;
        ret true
      else ret false)).

Definition row_reduce_loops (rref : bool) : M S unit :=
  Do last_nz := skip_zero_rows rows.+1 (Z.of_nat rows - 1) in
  Do last_nz := forward cols.+1 0 0 last_nz in
  if rref then backward last_nz else ret tt.

End RowReduceLoops.

(** *** The working copy as a value *)

Record rr_state := RRState {
  mat : seq (seq scalar);
  steps_out : option (seq step)
}.

Definition setitem {T : Type} (xs : seq T) (i : nat) (x : T) : result (seq T) :=
  if (i < size xs)%N then Ok (take i xs ++ x :: drop i.+1 xs)
  else Raise IndexError.

Definition mat_get (i k : nat) : M rr_state scalar := fun st =>
  (st, Let row := getitem (mat st) i in getitem row k).

Definition mat_set (i k : nat) (v : scalar) : M rr_state unit := fun st =>
  match (Let row := getitem (mat st) i in
         Let row' := setitem row k v in
         setitem (mat st) i row') with
  | Ok m => (RRState m (steps_out st), Ok tt)
  | Raise e => (st, Raise e)
  end.

Definition mat_swap (i j : nat) : M rr_state unit := fun st =>
  match (Let rj := getitem (mat st) j in
         Let ri := getitem (mat st) i in
         Let m := setitem (mat st) i rj in
         setitem m j ri) with
  | Ok m => (RRState m (steps_out st), Ok tt)
  | Raise e => (st, Raise e)
  end.

Definition steps_append (s : step) : M rr_state unit := fun st =>
  (RRState (mat st) (omap (fun l => rcons l s) (steps_out st)), Ok tt).

Definition value_copy : working_copy rr_state :=
  WorkingCopy mat_get mat_set mat_swap steps_append.

Definition check_to_col (cols : nat) (to_col : option pyval) : result Z :=
  match to_col with
  | None => Ok (Z.min (Z.of_nat cols) (Z.of_nat cols))
  | Some (PyInt z) => Ok (Z.min (Z.of_nat cols) z)
  | Some _ => Raise ValueError
  end.

(** [row_reduce] answers the matrix (or the exception) together with the
    final contents of the list given as [steps_out]. *)
Definition row_reduce (e : Expr) (rref : bool) (steps : option (seq step))
    (to_col : option pyval) : option (seq step) * result Expr :=
  if e is Matrix args then
    let st0 := RRState [seq [seq v | v <- row] | row <- args] steps in
    let run : M rr_state Expr :=
      let rows := size (mat st0) in
      Do row0 := lift (getitem (mat st0) 0) in
      let cols := size row0 in
      Do to_col := lift (check_to_col cols to_col) in
      row_reduce_loops value_copy rows cols to_col rref ;;
      (fun st => (st, matrix (mat st))) in
    let: (st, r) := run st0 in (steps_out st, r)
  else (steps, Raise ValueError).

Definition rank (e : Expr) : result nat :=
  if is_matrix e then
    Let e' := (row_reduce e false None None).2 in
    if ~~ is_matrix e' then Raise AssertionError
    else Ok (count (fun row => ~~ all (fun v => v == 0) row) (args_of e'))
  else Raise Inapplicable.

Definition nullity (e : Expr) : result Z :=
  if is_matrix e then
    Let c := ncols e in
    Let r := rank e in
    Ok (Z.of_nat c - Z.of_nat r)%Z
  else Raise Inapplicable.

(** ** Shapes and entries *)

(** [args] has [r] rows, each of [c] entries. *)
Definition is_shape (r c : nat) (args : seq (seq scalar)) : bool :=
  (size args == r) && all (fun row => size row == c) args.

(** The entry in row [i] and column [j], counted from 0. *)
Definition entry (args : seq (seq scalar)) (i j : nat) : scalar :=
  nth 0 (nth [::] args i) j.

(** ** The cofactor expansion, as the spec words it *)

(** [M] with row [i] and column [j] removed. *)
Definition removed (i j : nat) (M : nat -> nat -> scalar) : nat -> nat -> scalar :=
  fun r c => M (if (r < i)%N then r else r.+1) (if (c < j)%N then c else c.+1).

(** "Base case n=1 returns the single entry; otherwise the sum over i
    from 0 to n-1 of (-1)^i . M[i][0] . det(M with row i and column 0
    removed)", for an [n] by [n] matrix given by its entries. *)
Fixpoint cofactor_expansion (n : nat) (M : nat -> nat -> scalar) : scalar :=
  match n with
  | 0 => 0
  | n'.+1 =>
      if n' is 0%N then M 0%N 0%N
      else \sum_(0 <= i < n'.+1)
             (-1) ^+ i * M i 0%N * cofactor_expansion n' (removed i 0 M)
  end.

(** * Definitions for the statements *)

Definition identity_rows (n : nat) : seq (seq scalar) :=
  [seq [seq (if i == j then 1 else 0) | j <- iota 0 n] | i <- iota 0 n].

Definition is_PyExpr (v : pyval) : bool :=
  if v is PyExpr _ then true else false.

Definition is_PyInt (v : pyval) : bool :=
  if v is PyInt _ then true else false.

Definition column_of (xs : seq scalar) : seq (seq scalar) :=
  [seq [:: x] | x <- xs].

Definition minor_rows (i0 j0 : nat) (rows : seq (seq scalar)) :=
  [seq without j0 row | row <- without i0 rows].

(** The rows that [adj] builds. *)
Definition adj_rows (n : nat) (M : nat -> nat -> scalar) : seq (seq scalar) :=
  [seq [seq (-1) ^+ (i + j) * cofactor_expansion n.-1 (removed j i M)
       | j <- iota 0 n] | i <- iota 0 n].

Definition matmul_rows (m n p : nat) (A B : seq (seq scalar)) : seq (seq scalar) :=
  [seq [seq \sum_(0 <= k < n) entry A i k * entry B k j | j <- iota 0 p]
     | i <- iota 0 m].

Definition mx_of (m n : nat) (M : nat -> nat -> scalar) : 'M[scalar]_(m, n) :=
  \matrix_(i, j) M i j.

Definition scaled_rows (d : scalar) (rows : seq (seq scalar)) :=
  [seq [seq d * x | x <- row] | row <- rows].

(** [A] multiplied [k] times, from the identity. *)
Fixpoint naive_pow (n : nat) (A : seq (seq scalar)) (k : nat) : seq (seq scalar) :=
  if k is k'.+1 then matmul_rows n n n (naive_pow n A k') A
  else identity_rows n.

(** The rows with the entries [e s c]. *)
Definition rows_of (rows cols : nat) (e : nat -> nat -> scalar) : seq (seq scalar) :=
  mkseq (fun s => mkseq (fun c => e s c) cols) rows.

(** A loop over the columns that rewrites row [i], entry after entry:
    after [k] columns, row [i] holds [g] on its first [k] entries. *)
Definition row_prefix (i : nat) (g : nat -> scalar) (m0 : seq (seq scalar))
    (k : nat) : nat -> nat -> scalar :=
  fun s c => if (s == i) && (c < k)%N then g c else entry m0 s c.

(** The matrix expression of the power [A ** k]. *)
Definition pow_expr (n : nat) (A : seq (seq scalar)) (k : Z) : Expr :=
  Matrix (naive_pow n A (Z.to_nat k)).

(** ** Row reduction as a function on matrices *)

Section FunctionalModel.

Variables rows cols : nat.
Implicit Types (m : seq (seq scalar)) (i j k s c L : nat).

Definition zero_row m i : bool :=
  all (fun k => entry m i k == 0) (iota 0 cols).

Definition swap_rows m i k : seq (seq scalar) :=
  rows_of rows cols (fun s c =>
    entry m (if s == k then i else if s == i then k else s) c).

Definition scale_row m i (x : scalar) : seq (seq scalar) :=
  rows_of rows cols (fun s c =>
    if s == i then entry m i c * x else entry m s c).

Definition replace_row m i j (x : scalar) : seq (seq scalar) :=
  rows_of rows cols (fun s c =>
    if s == i then entry m i c + x * entry m j c else entry m s c).

(** Rows [ks] each lose their multiple of row [i] that clears column [j]. *)
Definition eliminate m (ks : seq nat) i j : seq (seq scalar) :=
  rows_of rows cols (fun s c =>
    if s \in ks then entry m s c + (- entry m s j) * entry m i c
    else entry m s c).

(** The first row among [ks] with a nonzero entry in column [j]. *)
Definition first_nonzero_row m j (ks : seq nat) : option nat :=
  ohead [seq k <- ks | entry m k j != 0].

(** The first column among [js] with a nonzero entry in row [i]. *)
Definition first_nonzero_col m i (js : seq nat) : option nat :=
  ohead [seq j <- js | entry m i j != 0].

(** [L] is [last_nz + 1]: the rows from [L] on are known to be zero. *)
Fixpoint skip_fun (fuel : nat) m L : nat :=
  if fuel is fuel'.+1 then
    if L is L'.+1 then
      if zero_row m L' then skip_fun fuel' m L' else L
    else L
  else L.

Definition find_pivot m i j L : seq (seq scalar) :=
  if entry m i j == 0 then
    if first_nonzero_row m j (iota i.+1 (L - i.+1)) is Some k
    then swap_rows m i k else m
  else m.

Definition normalize_pivot m i j : seq (seq scalar) :=
  if entry m i j != 1 then scale_row m i (1 / entry m i j) else m.

Fixpoint fwd_fun (tc fuel : nat) m i j L : seq (seq scalar) * nat :=
  if fuel is fuel'.+1 then
    if (i < rows)%N && (j < tc)%N then
      if zero_row m i && (L <= i.+1)%N then (m, L)
      else
        let mL := if zero_row m i then (swap_rows m i L.-1, L.-1) else (m, L) in
        let m2 := find_pivot mL.1 i j mL.2 in
        if entry m2 i j == 0 then fwd_fun tc fuel' m2 i j.+1 mL.2
        else
          let m3 := normalize_pivot m2 i j in
          let m4 := eliminate m3 (iota i.+1 (mL.2 - i.+1)) i j in
          fwd_fun tc fuel' m4 i.+1 j.+1 mL.2
    else (m, L)
  else (m, L).

Definition back_row (tc : nat) m i : seq (seq scalar) :=
  if first_nonzero_col m i (iota 0 tc) is Some j
  then eliminate m (rev (iota 0 i)) i j else m.

Definition bwd_fun (tc : nat) m L : seq (seq scalar) :=
  foldl (back_row tc) m (rev (iota 0 L)).

Definition row_reduce_fun (tc : nat) (rref : bool) m : seq (seq scalar) :=
  let L := skip_fun rows.+1 m rows in
  let mL := fwd_fun tc cols.+1 m 0 0 L in
  if rref then bwd_fun tc mL.1 mL.2 else mL.1.

End FunctionalModel.

(** ** Echelon forms *)

Section EchelonForms.

Variables rows cols : nat.
Implicit Types (m : seq (seq scalar)) (p : nat -> nat) (i j k r s c t L : nat).

(** Rows [t < r] have their first nonzero entry, a 1, in column [p t],
    left of column [bound]. *)
Definition pivots_ok m r p (bound : nat) : Prop :=
  forall t, (t < r)%N ->
    [/\ (p t < bound)%N, entry m t (p t) = 1
      & forall c, (c < p t)%N -> entry m t c = 0].

Definition increasing r p : Prop :=
  forall t s, (t < s)%N -> (s < r)%N -> (p t < p s)%N.

(** The rows from [r] on are zero. *)
Definition zero_from m r : Prop :=
  forall s c, (r <= s)%N -> (s < rows)%N -> (c < cols)%N -> entry m s c = 0.

(** Row echelon form with [r] pivot rows. *)
Definition echelon m r p : Prop :=
  [/\ is_shape rows cols m, (r <= rows)%N, pivots_ok m r p cols,
      increasing r p & zero_from m r].

(** Reduced row echelon form: moreover a pivot is the only nonzero
    entry of its column. *)
Definition reduced m r p : Prop :=
  forall t s, (t < r)%N -> (s < rows)%N -> s != t -> entry m s (p t) = 0.

Definition is_echelon m : Prop := exists r p, echelon m r p.

Definition is_rref m : Prop := exists r p, echelon m r p /\ reduced m r p.

(** The invariant of the forward pass at the head of an iteration. *)
Definition fwd_inv m i j L p : Prop :=
  [/\ (i <= L)%N, (L <= rows)%N & (j <= cols)%N]
  /\ [/\ is_shape rows cols m, zero_from m L, pivots_ok m i p j, increasing i p
      & forall s c, (i <= s)%N -> (s < rows)%N -> (c < j)%N -> entry m s c = 0].

(** The pivot columns of the rows from [t0] on are cleared above their
    pivot. *)
Definition cleared_above m r p t0 : Prop :=
  forall t s, (t0 <= t)%N -> (t < r)%N -> (s < t)%N -> entry m s (p t) = 0.

End EchelonForms.

Definition nonzero_rows (E : seq (seq scalar)) : nat :=
  count (fun row => ~~ all (fun v => v == 0) row) E.

(** ** Row reduction on the heap *)

(** The objects that [row_reduce] can reach: a row (a list of scalars),
    a list or tuple of rows (the [args] of a matrix, or [mat]), and the
    list given as [steps_out].  A location is an index in the heap; a
    new object goes to the end. *)
Inductive obj :=
| ORow (vs : seq scalar)
| ORefs (refs : seq nat)
| OSteps (log : seq step).

Definition heap : Type := seq obj.

(** An expression value on the heap: its head and the location of its
    [args]. *)
Inductive hexpr := HExpr (head : string) (args : nat).

Definition alloc (o : obj) : M heap nat := fun h => (rcons h o, Ok (size h)).

Definition load_row (l : nat) : M heap (seq scalar) := fun h =>
  match getitem h l with
  | Ok (ORow vs) => (h, Ok vs)
  | Ok _ => (h, Raise TypeError)
  | Raise e => (h, Raise e)
  end.

Definition load_refs (l : nat) : M heap (seq nat) := fun h =>
  match getitem h l with
  | Ok (ORefs refs) => (h, Ok refs)
  | Ok _ => (h, Raise TypeError)
  | Raise e => (h, Raise e)
  end.

Definition load_steps (l : nat) : M heap (seq step) := fun h =>
  match getitem h l with
  | Ok (OSteps log) => (h, Ok log)
  | Ok _ => (h, Raise TypeError)
  | Raise e => (h, Raise e)
  end.

(** A list is updated in place: the object at [l] keeps its kind. *)
Definition store_row (l : nat) (vs : seq scalar) : M heap unit :=
  Do _ := load_row l in fun h => (set_nth (ORow [::]) h l (ORow vs), Ok tt).

Definition store_refs (l : nat) (refs : seq nat) : M heap unit :=
  Do _ := load_refs l in fun h => (set_nth (ORow [::]) h l (ORefs refs), Ok tt).

Definition store_steps (l : nat) (log : seq step) : M heap unit :=
  Do _ := load_steps l in fun h => (set_nth (ORow [::]) h l (OSteps log), Ok tt).

Fixpoint mapM {S A B : Type} (f : A -> M S B) (xs : seq A) : M S (seq B) :=
  match xs with
  | [::] => ret [::]
  | x :: xs' => Do y := f x in Do ys := mapM f xs' in ret (y :: ys)
  end.

Section HeapCopy.

(** [mat] is the location of the working copy, [steps_out] that of the
    caller's list, if one is given. *)
Variables (mat_loc : nat) (steps_loc : option nat).

Definition heap_get (i k : nat) : M heap scalar :=
  Do refs := load_refs mat_loc in
  Do r := lift (getitem refs i) in
  Do vs := load_row r in
  lift (getitem vs k).

Definition heap_set (i k : nat) (v : scalar) : M heap unit :=
  Do refs := load_refs mat_loc in
  Do r := lift (getitem refs i) in
  Do vs := load_row r in
  Do vs' := lift (setitem vs k v) in
  store_row r vs'.

Definition heap_swap (i j : nat) : M heap unit :=
  Do refs := load_refs mat_loc in
  Do rj := lift (getitem refs j) in
  Do ri := lift (getitem refs i) in
  Do refs1 := lift (setitem refs i rj) in
  store_refs mat_loc refs1 ;;
  Do refs2 := load_refs mat_loc in
  Do refs3 := lift (setitem refs2 j ri) in
  store_refs mat_loc refs3.

Definition heap_append (s : step) : M heap unit :=
  if steps_loc is Some l then
    Do log := load_steps l in store_steps l (rcons log s)
  else ret tt.

Definition heap_copy : working_copy heap :=
  WorkingCopy heap_get heap_set heap_swap heap_append.

End HeapCopy.

(** The final call of [matrix] on the rows of [mat]: they are packed into
    a new tuple. *)
Definition matrix_heap (refs : seq nat) : M heap hexpr :=
  if size refs == 0%N then raise ValueError
  else
    Do sizes := mapM (fun r => Do vs := load_row r in ret (size vs)) refs in
    if has (fun n => n != nth 0%N sizes 0) sizes then raise ValueError
    else Do args := alloc (ORefs refs) in ret (HExpr "matrix" args).

Definition row_reduce_heap (e : hexpr) (rref : bool) (steps_loc : option nat)
    (to_col : option pyval) : M heap hexpr :=
  let: HExpr head args := e in
  if ~~ String.eqb head "matrix" then raise ValueError
  else
    Do refs := load_refs args in
    Do new_refs := mapM (fun r => Do vs := load_row r in
                                  alloc (ORow [seq v | v <- vs])) refs in
    Do mat_loc := alloc (ORefs new_refs) in
    let rows := size new_refs in
    Do r0 := lift (getitem new_refs 0) in
    Do row0 := load_row r0 in
    let cols := size row0 in
    Do to_col := lift (check_to_col cols to_col) in
    row_reduce_loops (heap_copy mat_loc steps_loc) rows cols to_col rref ;;
    Do refs := load_refs mat_loc in
    matrix_heap refs.

(** Reading a matrix from the heap. *)
Definition read_rows (h : heap) (args : nat) : result (seq (seq scalar)) :=
  Let refs := (load_refs args h).2 in
  map_r (fun r => (load_row r h).2) refs.

(** *** What a call may change *)

Definition is_steps (o : obj) : bool := if o is OSteps _ then true else false.

(** What a call may do to an object of the caller: nothing, unless it is
    the list [steps_out]. *)
Definition same_obj (o o' : obj) : Prop :=
  if o is OSteps _ then is_steps o' else o' = o.

Definition frame (h h' : heap) : Prop :=
  (size h <= size h')%N /\
  forall l, (l < size h)%N -> same_obj (nth (ORow [::]) h l) (nth (ORow [::]) h' l).

(** While the loops run: the caller's objects are kept, and [mat] is a
    list of rows that were made by the call. *)
Definition inv (h0 : heap) (mat_loc : nat) (h : heap) : Prop :=
  [/\ frame h0 h, (size h0 <= mat_loc)%N
    & exists2 refs, nth (ORow [::]) h mat_loc = ORefs refs
                  & all (leq (size h0)) refs].

(** The statement [m] keeps the property [I] of the store, whether it
    returns or raises. *)
Definition preserves {S T : Type} (I : S -> Prop) (m : M S T) : Prop :=
  forall s, I s -> I (m s).1.

(** When [m] returns from a store with [I], the store and the value
    have [Q]. *)
Definition returns {S T : Type} (I : S -> Prop) (m : M S T)
    (Q : S -> T -> Prop) : Prop :=
  forall s, I s -> forall v, (m s).2 = Ok v -> Q (m s).1 v.

(** The matrix [e] of the heap [h'] was made after [h]: its list of
    rows and every row of it. *)
Definition fresh_matrix (h h' : heap) (e : hexpr) : Prop :=
  let: HExpr _ args := e in
  (size h <= args)%N /\
  exists2 refs, nth (ORow [::]) h' args = ORefs refs & all (leq (size h)) refs.

(** A heap with the matrix [[1, 2], [3, 4]] at location 2 and an empty
    list at location 3. *)
Definition example_heap : heap :=
  [:: ORow [:: 1%:Q; 2%:Q]; ORow [:: 3%:Q; 4%:Q]; ORefs [:: 0%N; 1%N]; OSteps [::]].

(** *** The heap and the value of the working copy *)

(** The list at [steps_loc] holds the trace [steps]. *)
Definition steps_rep (steps_loc : option nat) (steps : option (seq step))
    (h : heap) : Prop :=
  match steps_loc, steps with
  | Some l, Some log => getitem h l = Ok (OSteps log)
  | None, None => True
  | _, _ => False
  end.

(** The list at [mat_loc] holds distinct rows, and they hold the rows of
    [mat st]. *)
Definition rep (mat_loc : nat) (steps_loc : option nat) (st : rr_state)
    (h : heap) : Prop :=
  (exists refs,
     [/\ getitem h mat_loc = Ok (ORefs refs), uniq refs,
         size refs = size (mat st)
       & forall t, (t < size refs)%N ->
           getitem h (nth 0%N refs t) = Ok (ORow (nth [::] (mat st) t))])
  /\ steps_rep steps_loc (steps_out st) h.

(** Two statements on related stores give the same answer, on related
    stores. *)
Definition sim {S1 S2 T : Type} (R : S1 -> S2 -> Prop) (m1 : M S1 T)
    (m2 : M S2 T) : Prop :=
  forall s1 s2, R s1 s2 -> R (m1 s1).1 (m2 s2).1 /\ (m1 s1).2 = (m2 s2).2.

(** The matrix expression that [e] stands for in the heap [h]. *)
Definition expr_of (h : heap) (e : hexpr) : result Expr :=
  let: HExpr head args := e in
  if String.eqb head "matrix" then Let rows := read_rows h args in Ok (Matrix rows)
  else Raise Unmodelled.

(** * The other functions of the module *)

(** ** Vectors, rows and columns *)

(** [coord_vec(n, i)] for integers [n] and [i] (the two [assert]s hold);
    [int(i == j)] is the number 1 or 0. *)
Definition coord_vec (n i : Z) : result Expr :=
  if (n <=? 1)%Z then Raise ValueError
  else if ~~ ((1 <=? i)%Z && (i <=? n)%Z) then Raise ValueError
  else vector [seq (if (i =? j)%Z then 1 else 0) | j <- irange (Z.to_nat n)].

Definition diagonal_matrix (entries : seq scalar) : result Expr :=
  if size entries == 0%N then Raise ValueError
  else
    let n := Z.of_nat (size entries) in
    Let rows := map_r (fun i =>
                  map_r (fun j => if i == j then getitem entries i else Ok 0)
                        (py_range n))
                (py_range n) in
    matrix rows.

Definition is_vector (e : Expr) : result bool :=
  if is_matrix e then Let c := ncols e in Ok (c == 1%N) else Ok false.

Definition vector_entries (e : Expr) : result (seq scalar) :=
  Let v := is_vector e in
  if ~~ v then Raise ValueError
  else map_r (fun row => getitem row 0) (args_of e).

(** The second argument of [row] and [col]: an [int], an iterable (its
    elements are any Python values), or a value that [list] refuses. *)
Inductive index_arg :=
| IdxInt (i : Z)
| IdxList (idxs : seq pyval)
| IdxOther (repr : string).

Definition index_list (i : index_arg) : result (seq pyval) :=
  match i with
  | IdxInt i => Ok [:: PyInt i]
  | IdxList idxs => Ok idxs
  | IdxOther _ => Raise ValueError
  end.

Definition int_of (v : pyval) : Z := if v is PyInt z then z else 0%Z.

(** The loop [for i in idxs: if not (1 <= i <= bound): raise ValueError];
    [bound] is computed at each iteration. *)
Definition check_bounds (bound : result nat) (idxs : seq Z) : result unit :=
  for_acc idxs tt (fun i _ =>
    Let b := bound in
    if ~~ ((1 <=? i)%Z && (i <=? Z.of_nat b)%Z) then Raise ValueError
    else Ok tt).

Definition row (e : Expr) (i : index_arg) : result Expr :=
  if e is Matrix args then
    Let idxs := index_list i in
    if ~~ all is_PyInt idxs then Raise ValueError
    else
      let idxs := [seq int_of v | v <- idxs] in
      Let _ := check_bounds (nrows e) idxs in
      Let rs := map_r (fun i => getitem args (Z.to_nat (i - 1))) idxs in
      matrix rs
  else Raise ValueError.

Definition col (e : Expr) (i : index_arg) : result Expr :=
  if e is Matrix args then
    Let idxs := index_list i in
    if ~~ all is_PyInt idxs then Raise ValueError
    else
      let idxs := [seq int_of v | v <- idxs] in
      Let _ := check_bounds (ncols e) idxs in
      Let rs := map_r (fun row =>
                  map_r (fun i => getitem row (Z.to_nat (i - 1))) idxs)
                args in
      matrix rs
  else Raise ValueError.

(** [zip] over the unpacked rows: the columns, as far as the shortest row
    goes; no column when there is no row. *)
Definition zip_rows (rows : seq (seq scalar)) : seq (seq scalar) :=
  if rows is row0 :: _ then
    [seq [seq nth 0 r j | r <- rows]
    | j <- iota 0 (foldr minn (size row0) [seq size r | r <- rows])]
  else [::].

Definition cols (e : Expr) : result (seq Expr) :=
  if e is Matrix args then map_r vector (zip_rows args) else Raise ValueError.

(** [transpose] does not look at the head of [e]; what [e.args] holds
    for an expression that is not a matrix is decided by [core], which
    is not part of the visible source. *)
Definition transpose (e : Expr) : result Expr :=
  if e is Matrix args then matrix (zip_rows args) else Raise Unmodelled.

Definition matrix_with_cols (cols : seq Expr) : result Expr :=
  if size cols == 0%N then Raise ValueError
  else if ~~ all is_matrix cols then Raise ValueError
  else
    Let c0 := getitem cols 0 in
    Let m := nrows c0 in
    Let same := all_r (fun c => Let r := nrows c in Ok (m == r)) cols in
    if ~~ same then Raise ValueError
    else
      Let rows := map_r (fun i =>
                    Let parts := map_r (fun c => getitem (args_of c) i) cols in
                    Ok (flatten parts))
                  (py_range (Z.of_nat m)) in
      Ok (Matrix rows).

Definition minors (e : Expr) : result Expr :=
  if e is Matrix args then
    Let r := nrows e in
    Let c := ncols e in
    if r != c then Raise ValueError
    else
      let n := r in
      Let rows := map_r (fun i =>
                    map_r (fun j =>
                      Let sub := map_r (fun i0 =>
                                   map_r (fun j0 =>
                                     Let rw := getitem args i0 in getitem rw j0)
                                   [seq j0 <- iota 0 n | j0 != j])
                                 [seq i0 <- iota 0 n | i0 != i] in
                      Let m := matrix sub in
                      det m)
                    (iota 0 n))
                  (iota 0 n) in
      matrix rows
  else Raise Inapplicable.

(** ** Definitions for the statements *)

(** [1 <= i <= b] *)
Definition in_bounds (b : nat) (i : Z) : bool :=
  (1 <=? i)%Z && (i <=? Z.of_nat b)%Z.

(** [x] solves the homogeneous system of the matrix [m] with [cols]
    columns: every row of [m] times [x] is zero. *)
Definition solves (cols : nat) (m : seq (seq scalar)) (x : nat -> scalar) : Prop :=
  forall s, (s < size m)%N -> \sum_(0 <= c < cols) entry m s c * x c = 0.

(** Two working copies with the same matrix, and traces related by
    [rel]. *)
Definition trace_rel (rel : option (seq step) -> option (seq step) -> Prop)
    (s1 s2 : rr_state) : Prop :=
  mat s1 = mat s2 /\ rel (steps_out s1) (steps_out s2).

(** A heap with a matrix at location 1 whose two rows are one list, the
    object at location 0. *)
Definition shared_heap : heap :=
  [:: ORow [:: 1%:Q; 2%:Q]; ORefs [:: 0%N; 0%N]].

(** * Properties *)

(** Arithmetic on [nat] is left to [lia], after the boolean comparisons
    of the hypotheses and of the goal are turned into propositions. *)
Ltac is_nat x := match type of x with nat => idtac end.

Ltac nat_hyps :=
  repeat match goal with
  | H : is_true (_ && _) |- _ =>
      let H1 := fresh H in let H2 := fresh H in
      move/andP: H => [H1 H2]
  | H : is_true (leq _ _) |- _ => move/leP in H
  | H : is_true (~~ leq _ _) |- _ => move/leP in H
  | H : leq _ _ = false |- _ => move/negbT/leP in H
  | H : leq _ _ = true |- _ => move/leP in H
  | H : is_true (?x == _) |- _ => is_nat x; move/eqP in H
  | H : is_true (?x != _) |- _ => is_nat x; move/eqP in H
  | H : (?x == _) = false |- _ => is_nat x; move/eqP in H
  | H : (?x == _) = true |- _ => is_nat x; move/eqP in H
  end.

Ltac nat_goal :=
  try match goal with
  | |- is_true (_ && _) => apply/andP; split; nat_goal
  | |- is_true (leq _ _) => apply/leP
  | |- is_true (~~ leq _ _) => apply/leP
  | |- leq _ _ = false => apply/negbTE/leP
  | |- leq _ _ = true => apply/leP
  | |- is_true (?x == _) => is_nat x; apply/eqP
  | |- is_true (?x != _) => is_nat x; apply/eqP
  | |- (?x == _) = false => is_nat x; apply/eqP
  | |- (?x == _) = true => is_nat x; apply/eqP
  end.

Ltac nat_lia :=
  nat_hyps; nat_goal;
  change addn with Nat.add in *; change subn with Nat.sub in *;
  change muln with Nat.mul in *; change predn with Nat.pred in *;
  lia.

Section ResultLemmas.

Variables (A B : Type).

Lemma bind_ok (v : A) (f : A -> result B) : bind (Ok v) f = f v.
Proof. by []. Qed.

Lemma getitem_nth (x0 : A) (xs : seq A) (i : nat) :
  (i < size xs)%N -> getitem xs i = Ok (nth x0 xs i).
Proof.
move=> lt_i; rewrite /getitem (drop_nth x0 lt_i) /=; by [].
Qed.

Lemma getitem_out (xs : seq A) (i : nat) :
  (size xs <= i)%N -> getitem xs i = Raise IndexError.
Proof. by move=> le_i; rewrite /getitem drop_oversize. Qed.

Lemma map_r_ok (f : A -> B) (xs : seq A) :
  map_r (fun x => Ok (f x)) xs = Ok [seq f x | x <- xs].
Proof. by elim: xs => //= x xs ->. Qed.

End ResultLemmas.

Lemma eq_map_r (A : eqType) (B : Type) (f g : A -> result B) (xs : seq A) :
  {in xs, f =1 g} -> map_r f xs = map_r g xs.
Proof.
elim: xs => //= x xs IH fg; rewrite fg ?mem_head // IH // => y y_in.
by apply: fg; rewrite in_cons y_in orbT.
Qed.

Lemma eq_map_r_nat (B : Type) (f g : nat -> result B) (m n : nat) :
  (forall i, (m <= i < m + n)%N -> f i = g i) ->
  map_r f (iota m n) = map_r g (iota m n).
Proof. by move=> fg; apply: eq_map_r => i; rewrite mem_iota; apply: fg. Qed.

Section Shapes.

Implicit Types (args : seq (seq scalar)) (r c : nat).

Lemma is_shapeP r c args :
  reflect (size args = r /\ forall i, (i < r)%N -> size (nth [::] args i) = c)
          (is_shape r c args).
Proof.
apply: (iffP andP) => [[/eqP <- /allP all_c] | [<- all_c]].
  by split=> // i lt_i; apply/eqP/all_c/mem_nth.
split=> //; apply/(all_nthP [::]) => i lt_i; exact/eqP/all_c.
Qed.

Lemma shape_size r c args : is_shape r c args -> size args = r.
Proof. by case/is_shapeP. Qed.

Lemma shape_row r c args i :
  is_shape r c args -> (i < r)%N -> size (nth [::] args i) = c.
Proof. by case/is_shapeP => _; apply. Qed.

Lemma matrix_ok r c args :
  (0 < r)%N -> is_shape r c args -> matrix args = Ok (Matrix args).
Proof.
move=> r_gt0 sh; rewrite /matrix (shape_size sh) eqn0Ngt r_gt0 /=.
rewrite (shape_row sh r_gt0) has_predC.
by case/andP: sh => _ ->.
Qed.

Lemma nrows_shape r c args : is_shape r c args -> nrows (Matrix args) = Ok r.
Proof. by move=> /shape_size /= ->. Qed.

Lemma ncols_shape r c args :
  (0 < r)%N -> is_shape r c args -> ncols (Matrix args) = Ok c.
Proof.
move=> r_gt0 sh; move: (shape_row sh r_gt0) (shape_size sh).
by case: args {sh} => [|row0 args] /= <- // szr; move: r_gt0; rewrite -szr.
Qed.

(** Two lists of rows of one shape with the same entries are equal. *)
Lemma shape_ext r c args1 args2 :
  is_shape r c args1 -> is_shape r c args2 ->
  (forall i j, (i < r)%N -> (j < c)%N -> entry args1 i j = entry args2 i j) ->
  args1 = args2.
Proof.
move=> sh1 sh2 eq_e; apply: (@eq_from_nth _ [::]).
  by rewrite (shape_size sh1) (shape_size sh2).
move=> i; rewrite (shape_size sh1) => lt_i.
apply: (@eq_from_nth _ 0); first by rewrite (shape_row sh1) ?(shape_row sh2).
by move=> j; rewrite (shape_row sh1) // => lt_j; apply: eq_e.
Qed.

End Shapes.

(** ** Identity and powers *)

Lemma identity_rows_shape n : is_shape n n (identity_rows n).
Proof.
apply/is_shapeP; split; first by rewrite size_map size_iota.
by move=> i lt_i; rewrite (nth_map 0%N) ?size_iota // size_map size_iota.
Qed.

Lemma entry_identity_rows n i j :
  (i < n)%N -> (j < n)%N -> entry (identity_rows n) i j = (i == j)%:R.
Proof.
move=> lt_i lt_j; rewrite /entry (nth_map 0%N) ?size_iota //.
by rewrite (nth_map 0%N) ?size_iota // !nth_iota // !add0n; case: eqP.
Qed.

Lemma identity_matrix_ok n :
  (0 < n)%N -> identity_matrix (Z.of_nat n) = Ok (Matrix (identity_rows n)).
Proof.
move=> n_gt0; rewrite /identity_matrix /py_range Nat2Z.id.
have -> : (Z.of_nat n <=? 0)%Z = false.
  by apply/Z.leb_gt; move/ltP: n_gt0; lia.
exact: (matrix_ok n_gt0 (identity_rows_shape n)).
Qed.

(** C10: a square matrix to the power 0 is the identity matrix of its
    size: the loop of [reduce_matrix_inverse] is not entered. *)
Theorem pow_zero_is_identity (n : nat) (args : seq (seq scalar)) :
  (0 < n)%N -> is_shape n n args ->
  reduce_matrix_inverse (Matrix args) (PyInt 0)
    = identity_matrix (Z.of_nat n)
  /\ identity_matrix (Z.of_nat n) = Ok (Matrix (identity_rows n))
  /\ (forall i j, (i < n)%N -> (j < n)%N ->
        entry (identity_rows n) i j = (i == j)%:R).
Proof.
move=> n_gt0 sh; split; last first.
  by split; [exact: identity_matrix_ok | move=> i j; exact: entry_identity_rows].
rewrite /reduce_matrix_inverse (nrows_shape sh) (ncols_shape n_gt0 sh) /= eqxx /=.
by rewrite identity_matrix_ok.
Qed.

Lemma pow_zero_is_identity_witness :
  reduce_matrix_inverse (Matrix [:: [:: 1%:Q; 2%:Q]; [:: 3%:Q; 4%:Q]]) (PyInt 0)
  = identity_matrix 2.
Proof.
by case: (@pow_zero_is_identity 2 [:: [:: 1%:Q; 2%:Q]; [:: 3%:Q; 4%:Q]]).
Defined.

(** ** Indexed access *)

Lemma part_vector_int (r c : nat) (args : seq (seq scalar)) (z : Z) :
  (0 < r)%N -> (0 < c)%N -> is_shape r c args ->
  rule_part_vector (Matrix args) (PyInt z)
  = if (c == 1%N) && (1 <=? z)%Z && (z <=? Z.of_nat r)%Z
    then Ok (entry args (Z.to_nat (z - 1)) 0)
    else Raise ValueError.
Proof.
move=> r_gt0 c_gt0 sh.
rewrite /rule_part_vector (ncols_shape r_gt0 sh) /= (shape_size sh).
case: eqP => //= c1.
case: Z.leb_spec => //= le1; case: Z.leb_spec => //= le2.
have lt_i : (Z.to_nat (z - 1) < r)%N by nat_lia.
rewrite (getitem_nth [::]) ?(shape_size sh) //=.
by rewrite (getitem_nth 0) // (shape_row sh) // c1.
Qed.

Lemma part_matrix_int (r c : nat) (args : seq (seq scalar)) (z1 z2 : Z) :
  (0 < r)%N -> (0 < c)%N -> is_shape r c args ->
  rule_part_matrix (Matrix args) (PyInt z1) (PyInt z2)
  = if (1 <=? z1)%Z && (z1 <=? Z.of_nat r)%Z
       && (1 <=? z2)%Z && (z2 <=? Z.of_nat c)%Z
    then Ok (entry args (Z.to_nat (z1 - 1)) (Z.to_nat (z2 - 1)))
    else Raise ValueError.
Proof.
move=> r_gt0 c_gt0 sh.
rewrite /rule_part_matrix (ncols_shape r_gt0 sh) /= (shape_size sh).
case: Z.leb_spec => //= le1; case: Z.leb_spec => //= le2.
case: Z.leb_spec => //= le3; case: Z.leb_spec => //= le4.
have lt_i : (Z.to_nat (z1 - 1) < r)%N by nat_lia.
have lt_j : (Z.to_nat (z2 - 1) < c)%N by nat_lia.
rewrite (getitem_nth [::]) ?(shape_size sh) //=.
by rewrite (getitem_nth 0) // (shape_row sh).
Qed.

(** C4, as the code has it: on a matrix operand, an index that is an
    expression makes the rule defer; an index that is neither an integer
    nor an expression is a hard error; integer indices never defer, and
    are a hard error exactly when out of range or, with one index, when
    the matrix has more than one column. *)
Theorem part_rules_by_index_kind (r c : nat) (args : seq (seq scalar)) :
  (0 < r)%N -> (0 < c)%N -> is_shape r c args ->
  let e := Matrix args in
  (forall idx, is_PyExpr idx -> rule_part_vector e idx = Raise Inapplicable)
  /\ (forall idx1 idx2, is_PyExpr idx1 || is_PyExpr idx2 ->
        rule_part_matrix e idx1 idx2 = Raise Inapplicable)
  /\ (forall idx, ~~ is_PyExpr idx -> ~~ is_PyInt idx ->
        rule_part_vector e idx = Raise ValueError)
  /\ (forall idx1 idx2, ~~ is_PyExpr idx1 -> ~~ is_PyExpr idx2 ->
        ~~ (is_PyInt idx1 && is_PyInt idx2) ->
        is_hard_error (rule_part_matrix e idx1 idx2))
  /\ (forall z,
        rule_part_vector e (PyInt z)
        = if (c == 1%N) && (1 <=? z)%Z && (z <=? Z.of_nat r)%Z
          then Ok (entry args (Z.to_nat (z - 1)) 0)
          else Raise ValueError)
  /\ (forall z1 z2,
        rule_part_matrix e (PyInt z1) (PyInt z2)
        = if (1 <=? z1)%Z && (z1 <=? Z.of_nat r)%Z
             && (1 <=? z2)%Z && (z2 <=? Z.of_nat c)%Z
          then Ok (entry args (Z.to_nat (z1 - 1)) (Z.to_nat (z2 - 1)))
          else Raise ValueError).
Proof.
move=> r_gt0 c_gt0 sh e; do !split.
- by case.
- by case=> [z1|e1|s1] [z2|e2|s2].
- by case.
- by case=> [z1|e1|s1] [z2|e2|s2].
- by move=> z; apply: part_vector_int.
- by move=> z1 z2; apply: part_matrix_int.
Qed.

Lemma part_rules_by_index_kind_witness :
  rule_part_vector (Matrix [:: [:: 1%:Q]; [:: 2%:Q]]) (PyOther "1.5")
  = Raise ValueError.
Proof.
have [] := @part_rules_by_index_kind 2 1 [:: [:: 1%:Q]; [:: 2%:Q]]
             isT isT isT.
by move=> _ [_ [H _]]; apply: H.
Defined.

(** C4 as stated fails: a one-index access to a column vector with the
    index [1.5], which is not an integer, does not defer; it is a hard
    error. *)
Lemma part_non_integer_index_raises :
  let e := Matrix [:: [:: 1%:Q]; [:: 2%:Q]] in
  let idx := PyOther "1.5" in
  is_matrix e /\ ~~ is_PyInt idx
  /\ is_deferral (rule_part_vector e idx) = false
  /\ is_hard_error (rule_part_vector e idx) = true.
Proof. by []. Qed.

(** ** Rows and vertical concatenation *)

Lemma rows_ok (r c : nat) (args : seq (seq scalar)) :
  (0 < c)%N -> is_shape r c args ->
  rows (Matrix args) = Ok [seq Matrix (column_of row) | row <- args].
Proof.
move=> c_gt0 /andP [_]; rewrite /rows.
elim: args => //= row args IH /andP [/eqP sz_row all_c].
by rewrite /vector sz_row eqn0Ngt c_gt0 /= IH.
Qed.

Lemma flatten_columns (args : seq (seq scalar)) :
  flatten [seq args_of e | e <- [seq Matrix (column_of row) | row <- args]]
  = column_of (flatten args).
Proof.
by elim: args => //= row args ->; rewrite /column_of map_cat.
Qed.

Lemma all_r_ncols1 (c : nat) (args : seq (seq scalar)) :
  all (fun row => size row == c) args -> (0 < c)%N ->
  all_r (fun e => Let k := ncols e in Ok (1%N == k))
        [seq Matrix (column_of row) | row <- args] = Ok true.
Proof.
move=> all_c c_gt0; elim: args all_c => //= row args IH /andP [/eqP sz_row].
by case: row sz_row => [sz0|x row _] /=; [rewrite -sz0 in c_gt0 | exact: IH].
Qed.

Lemma column_of_flatten_eq (r c : nat) (args : seq (seq scalar)) :
  (0 < r)%N -> is_shape r c args ->
  (column_of (flatten args) = args) <-> c = 1%N.
Proof.
move=> r_gt0 sh; split=> [eq_args | c1].
  move: (shape_row sh r_gt0); rewrite -eq_args => <-.
  rewrite (nth_map 0) //; move: (congr1 size eq_args).
  by rewrite size_map (shape_size sh) => ->.
case/andP: sh => _; rewrite c1; elim: args => //= row args IH /andP [sz1 all1].
by case: row sz1 => [|x [|y row]] //= _; rewrite IH.
Qed.

(** C5, as the code has it: [rows] wraps each row as a column vector, so
    [matrix_with_rows] of them stacks the entries of the matrix, row
    after row, into one column; the result is the matrix itself exactly
    when the matrix has one column. *)
Theorem matrix_with_rows_of_rows (r c : nat) (args : seq (seq scalar)) :
  (0 < r)%N -> (0 < c)%N -> is_shape r c args ->
  exists vs : seq Expr,
    rows (Matrix args) = Ok vs
    /\ matrix_with_rows vs = Ok (Matrix (column_of (flatten args)))
    /\ (Matrix (column_of (flatten args)) = Matrix args <-> c = 1%N).
Proof.
move=> r_gt0 c_gt0 sh; exists [seq Matrix (column_of row) | row <- args].
split; first exact: rows_ok sh.
split; last first.
  rewrite -(column_of_flatten_eq r_gt0 sh).
  by split=> [[] | ->].
rewrite /matrix_with_rows size_map (shape_size sh) eqn0Ngt r_gt0 /=.
rewrite all_map (@eq_all _ _ predT) ?all_predT //=.
rewrite (getitem_nth (Num 0)) ?size_map ?(shape_size sh) //=.
have := shape_row sh r_gt0; case/andP: (sh) => _ all_c.
rewrite (nth_map [::]) ?(shape_size sh) //.
case: (nth [::] args 0) => [sz0|x row0 _] /=; first by rewrite -sz0 in c_gt0.
by rewrite (all_r_ncols1 all_c c_gt0) /= flatten_columns.
Qed.

Lemma matrix_with_rows_of_rows_witness :
  exists vs : seq Expr,
    rows (Matrix [:: [:: 1%:Q]; [:: 2%:Q]]) = Ok vs
    /\ matrix_with_rows vs = Ok (Matrix [:: [:: 1%:Q]; [:: 2%:Q]]).
Proof.
have [vs [rows_vs [with_rows _]]] :=
  @matrix_with_rows_of_rows 2 1 [:: [:: 1%:Q]; [:: 2%:Q]] isT isT isT.
by exists vs.
Defined.

(** C5 as stated fails on the 2x2 matrix with rows [1, 2] and [3, 4]:
    the result is the column 1, 2, 3, 4. *)
Lemma matrix_with_rows_of_rows_differs :
  let A := Matrix [:: [:: 1%:Q; 2%:Q]; [:: 3%:Q; 4%:Q]] in
  (Let vs := rows A in matrix_with_rows vs)
  = Ok (Matrix [:: [:: 1%:Q]; [:: 2%:Q]; [:: 3%:Q]; [:: 4%:Q]])
  /\ (Let vs := rows A in matrix_with_rows vs) <> Ok A.
Proof. by []. Qed.

(** ** Addition of matrices *)

Lemma py_range_nat (n : nat) : py_range (Z.of_nat n) = iota 0 n.
Proof. by rewrite /py_range Nat2Z.id. Qed.

Lemma py_range_pred (n : nat) : py_range (Z.of_nat n - 1) = iota 0 n.-1.
Proof. by rewrite /py_range; congr iota; nat_lia. Qed.

Lemma py_range2_nat (a b : nat) :
  py_range2 (Z.of_nat a + 1) (Z.of_nat b) = iota a.+1 (b - a.+1).
Proof. by rewrite /py_range2; congr iota; nat_lia. Qed.

Section ForFirst.

Variable R : Type.
Implicit Types (body : nat -> option R) (m n : nat).

Lemma for_first_none body m n :
  (forall k, (m <= k < m + n)%N -> body k = None) ->
  for_first (iota m n) body = None.
Proof.
elim: n m => //= n IH m none; rewrite none; first by nat_lia.
by apply: IH => k lt_k; apply: none; nat_lia.
Qed.

Lemma for_first_skip body m a n :
  (forall k, (m <= k < m + a)%N -> body k = None) ->
  for_first (iota m (a + n)) body = for_first (iota (m + a) n) body.
Proof.
elim: a m => [|a IH] m none; first by rewrite addn0.
rewrite addSn /= none; first by nat_lia.
by rewrite IH ?addSnnS // => k lt_k; apply: none; nat_lia.
Qed.

Lemma for_first_hit body m a n (res : R) :
  (forall k, (m <= k < m + a)%N -> body k = None) ->
  body (m + a)%N = Some res ->
  for_first (iota m (a + n.+1)) body = Some res.
Proof. by move=> none hit; rewrite for_first_skip //= hit. Qed.

End ForFirst.

Lemma getitem_cat_l (T : Type) (xs ys : seq T) (i : nat) :
  (i < size xs)%N -> getitem (xs ++ ys) i = getitem xs i.
Proof.
by move=> lt_i; rewrite /getitem drop_cat lt_i; case: (drop i xs) (size_drop i xs) => // /esym/eqP; rewrite subn_eq0 leqNgt lt_i.
Qed.

Lemma getitem_cat_r (T : Type) (xs ys : seq T) (i : nat) :
  getitem (xs ++ ys) (size xs + i) = getitem ys i.
Proof.
by rewrite /getitem drop_cat ltnNge leq_addr /= addKn.
Qed.

Lemma getitem_cat_cons (T : Type) (xs ys : seq T) (x : T) :
  getitem (xs ++ x :: ys) (size xs) = Ok x.
Proof. by rewrite -[X in getitem _ X]addn0 getitem_cat_r. Qed.

Lemma drop_size_cat_cons (T : Type) (xs ys : seq T) (x : T) :
  drop (size xs).+1 (xs ++ x :: ys) = ys.
Proof.
by rewrite -addn1 drop_cat ltnNge leq_addr /= addKn /= drop0.
Qed.

Lemma getitem_not_matrix (xs : seq Expr) (i : nat) :
  ~~ has is_matrix xs -> (i < size xs)%N ->
  exists2 x, getitem xs i = Ok x & ~~ is_matrix x.
Proof.
move=> no_mx lt_i; exists (nth (Num 0) xs i); first exact: getitem_nth.
apply/negP => mx_i; move/negP: no_mx; apply.
by apply/(has_nthP (Num 0)); exists i.
Qed.

Lemma matrix_sum_shape (r c : nat) (A B : seq (seq scalar)) :
  is_shape r c A -> is_shape r c B -> is_shape r c (matrix_sum A B).
Proof.
move=> shA shB; apply/is_shapeP; split.
  by rewrite size_map size_zip (shape_size shA) (shape_size shB) minnn.
move=> i lt_i; rewrite (nth_map ([::], [::])).
  by rewrite size_zip (shape_size shA) (shape_size shB) minnn.
rewrite nth_zip ?(shape_size shA) ?(shape_size shB) //= size_map size_zip.
by rewrite (shape_row shA) // (shape_row shB) // minnn.
Qed.

Lemma entry_matrix_sum (r c : nat) (A B : seq (seq scalar)) (i j : nat) :
  is_shape r c A -> is_shape r c B -> (i < r)%N -> (j < c)%N ->
  entry (matrix_sum A B) i j = entry A i j + entry B i j.
Proof.
move=> shA shB lt_i lt_j; rewrite /entry (nth_map ([::], [::])).
  by rewrite size_zip (shape_size shA) (shape_size shB) minnn.
rewrite nth_zip ?(shape_size shA) ?(shape_size shB) //=.
rewrite (nth_map (0, 0)).
  by rewrite size_zip (shape_row shA) // (shape_row shB) // minnn.
by rewrite nth_zip //= (shape_row shA) // (shape_row shB).
Qed.

(** With at most one matrix among the summands, no pair is found. *)
Lemma count_two_matrices (args : seq Expr) (i j : nat) :
  (i < j)%N -> (j < size args)%N ->
  is_matrix (nth (Num 0) args i) -> is_matrix (nth (Num 0) args j) ->
  (1 < count is_matrix args)%N.
Proof.
move=> lt_ij lt_j mx_i mx_j.
rewrite -(cat_take_drop j args) count_cat (drop_nth (Num 0)) //= mx_j.
have lt_i : (i < size (take j args))%N by rewrite size_take lt_j.
rewrite -(cat_take_drop i (take j args)) count_cat.
rewrite (drop_nth (Num 0) lt_i) /= nth_take // mx_i.
by rewrite [nat_of_bool true]/=; nat_lia.
Qed.

Lemma matrix_addition_defers (args : seq Expr) :
  (count is_matrix args <= 1)%N -> rule_matrix_addition args = Raise Inapplicable.
Proof.
move=> le1; rewrite /rule_matrix_addition py_range_pred for_first_none //.
move=> i /andP [_ lt_i]; rewrite add0n in lt_i.
have lt_i' : (i < size args)%N by nat_lia.
rewrite (getitem_nth (Num 0)) //; case mx_i: (is_matrix _) => //=.
rewrite py_range2_nat for_first_none // => j /andP [lt_ij lt_j].
have lt_j' : (j < size args)%N by nat_lia.
rewrite (getitem_nth (Num 0)) //; case mx_j: (is_matrix _) => //=.
by have := count_two_matrices lt_ij lt_j' mx_i mx_j; rewrite ltnNge le1.
Qed.

Lemma matrix_addition_pair (pre mid post : seq Expr) (A B : seq (seq scalar)) :
  ~~ has is_matrix pre -> ~~ has is_matrix mid ->
  rule_matrix_addition (pre ++ Matrix A :: mid ++ Matrix B :: post)
  = Let ri := nrows (Matrix A) in
    Let rj := nrows (Matrix B) in
    if ri != rj then Raise ValueError
    else
      Let ci := ncols (Matrix A) in
      Let cj := ncols (Matrix B) in
      if ci != cj then Raise ValueError
      else Ok (Plus (pre ++ Matrix (matrix_sum A B) :: mid ++ post)).
Proof.
move=> no_pre no_mid; rewrite /rule_matrix_addition py_range_pred.
set args := pre ++ _.
have sz_args : size args = (size pre + (size mid + (size post).+1).+1)%N.
  by rewrite /args size_cat /= size_cat.
have -> : (size args).-1 = (size pre + (size mid + size post).+1)%N.
  by rewrite sz_args; nat_lia.
rewrite (@for_first_hit _ _ _ _ _
  (Let ri := nrows (Matrix A) in
   Let rj := nrows (Matrix B) in
   if ri != rj then Raise ValueError
   else
     Let ci := ncols (Matrix A) in
     Let cj := ncols (Matrix B) in
     if ci != cj then Raise ValueError
     else Ok (Plus (pre ++ Matrix (matrix_sum A B) :: mid ++ post)))) //.
  move=> i /andP [_ lt_i]; rewrite add0n in lt_i.
  rewrite getitem_cat_l //.
  by have [x -> /negPf ->] := getitem_not_matrix no_pre lt_i.
rewrite add0n -[X in getitem _ X]addn0 getitem_cat_r /= py_range2_nat.
have -> : (size args - (size pre).+1 = size mid + (size post).+1)%N.
  by rewrite sz_args; nat_lia.
rewrite (@for_first_hit _ _ _ _ _
  (Let ri := nrows (Matrix A) in
   Let rj := nrows (Matrix B) in
   if ri != rj then Raise ValueError
   else
     Let ci := ncols (Matrix A) in
     Let cj := ncols (Matrix B) in
     if ci != cj then Raise ValueError
     else Ok (Plus (pre ++ Matrix (matrix_sum A B) :: mid ++ post)))) //.
  move=> j /andP [le_j lt_j].
  have -> : j = (size pre + (j - size pre))%N by nat_lia.
  rewrite getitem_cat_r.
  have -> : (j - size pre = (j - (size pre).+1).+1)%N by nat_lia.
  rewrite /getitem /= -/(getitem _ _) getitem_cat_l; first by nat_lia.
  have lt_j' : (j - (size pre).+1 < size mid)%N by nat_lia.
  by have [x -> /negPf ->] := getitem_not_matrix no_mid lt_j'.
have args_eq : args = (pre ++ Matrix A :: mid) ++ Matrix B :: post.
  by rewrite /args -catA.
have sz1 : size (pre ++ Matrix A :: mid) = ((size pre).+1 + size mid)%N.
  by rewrite size_cat /= addnS addSn.
rewrite -sz1 {1}args_eq getitem_cat_cons /=.
rewrite /expr_Plus /slice sz1 addKn {1}/args take_size_cat //.
have -> : drop (size pre).+1 args = mid ++ Matrix B :: post.
  by rewrite /args drop_size_cat_cons.
have -> : drop ((size pre).+1 + size mid).+1 args = post.
  by rewrite args_eq -sz1 drop_size_cat_cons.
by rewrite take_size_cat.
Qed.

Lemma split_first_matrix (args : seq Expr) :
  has is_matrix args ->
  exists pre A post,
    [/\ args = pre ++ Matrix A :: post & ~~ has is_matrix pre].
Proof.
elim: args => //= x args IH; case mx_x: (is_matrix x) => /=.
  by case: x mx_x => // A _ _; exists [::], A, args.
move=> /IH [pre [A [post [-> no_pre]]]].
by exists (x :: pre), A, post; split=> //=; rewrite mx_x.
Qed.

Lemma split_first_pair (args : seq Expr) :
  (1 < count is_matrix args)%N ->
  exists pre A mid B post,
    [/\ args = pre ++ Matrix A :: mid ++ Matrix B :: post,
        ~~ has is_matrix pre & ~~ has is_matrix mid].
Proof.
move=> gt1; have has_mx : has is_matrix args by rewrite has_count; nat_lia.
have [pre [A [rest [args_eq no_pre]]]] := split_first_matrix has_mx.
move: gt1; rewrite args_eq count_cat /= add1n.
have -> : count is_matrix pre = 0%N by apply/eqP; rewrite -leqn0 leqNgt -has_count.
rewrite add0n ltnS -has_count => /split_first_matrix.
move=> [mid [B [post [-> no_mid]]]].
by exists pre, A, mid, B, post.
Qed.

(** C6: with two matrices among the summands, the first matrix and the
    next one are added entry by entry when their shapes agree, the sum
    takes the place of the first, the second is dropped and the other
    summands stay where they are; shapes that differ are a hard error;
    with fewer than two matrices the rule defers. *)
Theorem rule_matrix_addition_first_pair (args : seq Expr) :
  ((count is_matrix args <= 1)%N ->
     rule_matrix_addition args = Raise Inapplicable)
  /\ ((1 < count is_matrix args)%N ->
      exists pre A mid B post,
        [/\ args = pre ++ Matrix A :: mid ++ Matrix B :: post,
            ~~ has is_matrix pre & ~~ has is_matrix mid])
  /\ (forall pre mid post A B ra ca rb cb,
      args = pre ++ Matrix A :: mid ++ Matrix B :: post ->
      ~~ has is_matrix pre -> ~~ has is_matrix mid ->
      (0 < ra)%N -> (0 < rb)%N -> is_shape ra ca A -> is_shape rb cb B ->
      if (ra == rb) && (ca == cb) then
        rule_matrix_addition args
          = Ok (Plus (pre ++ Matrix (matrix_sum A B) :: mid ++ post))
        /\ is_shape ra ca (matrix_sum A B)
        /\ (forall i j, (i < ra)%N -> (j < ca)%N ->
             entry (matrix_sum A B) i j = entry A i j + entry B i j)
      else is_hard_error (rule_matrix_addition args)).
Proof.
split; first exact: matrix_addition_defers.
split; first exact: split_first_pair.
move=> pre mid post A B ra ca rb cb -> no_pre no_mid ra_gt0 rb_gt0 shA shB.
rewrite matrix_addition_pair // (nrows_shape shA) (nrows_shape shB).
rewrite (ncols_shape ra_gt0 shA) (ncols_shape rb_gt0 shB) /=.
case: (ra =P rb) => [eq_r | _] //=; case: (ca =P cb) => [eq_c | _] //=.
rewrite -eq_r -eq_c in shB; split=> //; split; first exact: matrix_sum_shape.
by move=> i j lt_i lt_j; apply: entry_matrix_sum shA shB _ _.
Qed.

Lemma rule_matrix_addition_first_pair_witness :
  rule_matrix_addition
    [:: Sym "x"; Matrix [:: [:: 1%:Q; 2%:Q]]; Num 5%:Q;
        Matrix [:: [:: 3%:Q; 4%:Q]]; Sym "y"]
  = Ok (Plus [:: Sym "x"; Matrix [:: [:: 4%:Q; 6%:Q]]; Num 5%:Q; Sym "y"]).
Proof.
have [_ [_ H]] := rule_matrix_addition_first_pair
  [:: Sym "x"; Matrix [:: [:: 1%:Q; 2%:Q]]; Num 5%:Q;
      Matrix [:: [:: 3%:Q; 4%:Q]]; Sym "y"].
have [-> _] := H [:: Sym "x"] [:: Num 5%:Q] [:: Sym "y"]
  [:: [:: 1%:Q; 2%:Q]] [:: [:: 3%:Q; 4%:Q]] 1%N 2%N 1%N 2%N
  erefl isT isT isT isT isT isT.
by [].
Defined.

(** ** The determinant *)

Lemma for_acc_sum (body : nat -> scalar -> result scalar) (f : nat -> scalar)
    (xs : seq nat) (acc : scalar) :
  (forall i a, i \in xs -> body i a = Ok (a + f i)) ->
  for_acc xs acc body = Ok (acc + \sum_(i <- xs) f i).
Proof.
elim: xs acc => [|x xs IH] acc body_f /=; first by rewrite big_nil addr0.
rewrite body_f ?mem_head //= IH ?big_cons ?addrA // => i a i_in.
by apply: body_f; rewrite in_cons i_in orbT.
Qed.

Lemma cofactor_expansionS (n : nat) (M : nat -> nat -> scalar) :
  cofactor_expansion n.+2 M
  = \sum_(0 <= i < n.+2)
      (-1) ^+ i * M i 0%N * cofactor_expansion n.+1 (removed i 0 M).
Proof. by []. Qed.

Lemma cofactor_expansion_ext (n : nat) (M1 M2 : nat -> nat -> scalar) :
  (forall r c, (r < n)%N -> (c < n)%N -> M1 r c = M2 r c) ->
  cofactor_expansion n M1 = cofactor_expansion n M2.
Proof.
elim: n M1 M2 => // -[_ M1 M2 eqM | n IH M1 M2 eqM] /=; first exact: eqM.
rewrite !big_nat; apply: eq_bigr => i /andP [_ lt_i].
rewrite eqM //; congr (_ * _); apply: IH => r c lt_r lt_c.
by rewrite /removed /=; apply: eqM; try (case: ifP => _); nat_lia.
Qed.

Lemma nth_take_drop (T : Type) (x0 : T) (xs : seq T) (i r : nat) :
  nth x0 (take i xs ++ drop i.+1 xs) r
  = nth x0 xs (if (r < i)%N then r else r.+1).
Proof.
case: (leqP (size xs) i) => [le_sz | lt_i].
  rewrite take_oversize // drop_oversize ?cats0; first by nat_lia.
  by case: ltnP => // le_i; rewrite !nth_default //; nat_lia.
rewrite nth_cat size_take lt_i; case: ltnP => lt_r; first by rewrite nth_take.
by rewrite nth_drop; congr nth; nat_lia.
Qed.

Lemma size_take_drop (T : Type) (xs : seq T) (i : nat) :
  (i < size xs)%N -> size (take i xs ++ drop i.+1 xs) = (size xs).-1.
Proof.
by move=> lt_i; rewrite size_cat size_take lt_i size_drop; nat_lia.
Qed.

Lemma shape_first_minor (n i : nat) (rows : seq (seq scalar)) :
  is_shape n.+1 n.+1 rows -> (i < n.+1)%N ->
  is_shape n n [seq behead row | row <- take i rows ++ drop i.+1 rows].
Proof.
move=> sh lt_i; apply/is_shapeP.
have sz : size (take i rows ++ drop i.+1 rows) = n.
  by rewrite size_take_drop (shape_size sh).
split; first by rewrite size_map.
move=> r lt_r; rewrite (nth_map [::]) ?sz // size_behead nth_take_drop.
by rewrite (shape_row sh) //; case: ifP => _; nat_lia.
Qed.

Lemma entry_first_minor (n i r c : nat) (rows : seq (seq scalar)) :
  is_shape n.+1 n.+1 rows -> (i < n.+1)%N -> (r < n)%N ->
  entry [seq behead row | row <- take i rows ++ drop i.+1 rows] r c
  = removed i 0 (entry rows) r c.
Proof.
move=> sh lt_i lt_r; rewrite /entry /removed /= (nth_map [::]).
  by rewrite size_take_drop (shape_size sh).
by rewrite nth_behead nth_take_drop.
Qed.

Lemma expand_cofactor_expansion (n fuel : nat) (rows : seq (seq scalar)) :
  (0 < n)%N -> (n < fuel)%N -> is_shape n n rows ->
  expand fuel rows = Ok (cofactor_expansion n (entry rows)).
Proof.
elim: n fuel rows => // n IH [|fuel] // rows _ lt_fuel sh.
rewrite /= (shape_size sh); case: n IH lt_fuel sh => [_ _ sh | n IH lt_fuel sh].
  rewrite /= (getitem_nth [::]) ?(shape_size sh) //= (shape_row sh) //=.
  by rewrite (getitem_nth 0) // (shape_row sh).
rewrite [_ == _]/= (@for_acc_sum _ (fun i =>
  (-1) ^+ i * entry rows i 0 * cofactor_expansion n.+1 (removed i 0 (entry rows))));
  last by rewrite /= add0r /index_iota subn0.
move=> i a; rewrite mem_iota add0n => /andP [_ lt_i].
rewrite (getitem_nth [::]) ?(shape_size sh) //=.
rewrite (getitem_nth 0) ?(shape_row sh) //=.
rewrite (IH fuel) //; first exact: shape_first_minor.
congr (Ok (_ + _ * _)).
apply: cofactor_expansion_ext => r c lt_r _.
exact: (entry_first_minor c sh lt_i lt_r).
Qed.

Lemma det_square (n : nat) (args : seq (seq scalar)) :
  (0 < n)%N -> is_shape n n args ->
  det (Matrix args) = Ok (cofactor_expansion n (entry args)).
Proof.
move=> n_gt0 sh.
rewrite /det (nrows_shape sh) (ncols_shape n_gt0 sh) /bind.
rewrite ifN ?negbK ?eqxx // (shape_size sh).
exact: expand_cofactor_expansion.
Qed.

(** C2: on a square matrix [det] is the cofactor expansion along the
    first column: the single entry for a 1 by 1 matrix, and otherwise
    the alternating sum, over the rows [i], of [M[i][0]] times the
    expansion of [M] without row [i] and column 0. *)
Theorem det_is_cofactor_expansion (n : nat) (args : seq (seq scalar)) :
  (0 < n)%N -> is_shape n n args ->
  det (Matrix args) = Ok (cofactor_expansion n (entry args))
  /\ (n = 1%N -> cofactor_expansion n (entry args) = entry args 0 0)
  /\ ((1 < n)%N ->
      cofactor_expansion n (entry args)
      = \sum_(0 <= i < n) (-1) ^+ i * entry args i 0
          * cofactor_expansion n.-1 (removed i 0 (entry args))).
Proof.
move=> n_gt0 sh; split; first exact: det_square.
by split=> [-> | ] //; case: n n_gt0 sh => [|[|n]].
Qed.

Lemma det_is_cofactor_expansion_witness :
  det (Matrix [:: [:: 1%:Q; 2%:Q]; [:: 3%:Q; 4%:Q]])
  = Ok (cofactor_expansion 2 (entry [:: [:: 1%:Q; 2%:Q]; [:: 3%:Q; 4%:Q]])).
Proof.
by have [] := @det_is_cofactor_expansion 2
  [:: [:: 1%:Q; 2%:Q]; [:: 3%:Q; 4%:Q]] isT isT.
Defined.

(** ** The adjugate *)

Lemma enumerate_keep_all (T : Type) (t m : nat) (xs : seq T) :
  (t < m)%N ->
  [seq jv.2 | jv <- zip (iota m (size xs)) xs & jv.1 != t] = xs.
Proof.
elim: xs m => //= x xs IH m lt_t.
have -> /= : m != t by nat_lia.
by rewrite IH //; nat_lia.
Qed.

Lemma enumerate_drop_one (T : Type) (m j0 : nat) (xs : seq T) :
  [seq jv.2 | jv <- zip (iota m (size xs)) xs & jv.1 != (m + j0)%N]
  = take j0 xs ++ drop j0.+1 xs.
Proof.
elim: xs m j0 => // x xs IH m [|j0] /=.
  by rewrite addn0 eqxx /= drop0 enumerate_keep_all.
have -> /= : m != (m + j0.+1)%N by nat_lia.
by rewrite -addSnnS IH.
Qed.

Lemma without_take_drop (T : Type) (j0 : nat) (xs : seq T) :
  without j0 xs = take j0 xs ++ drop j0.+1 xs.
Proof. by rewrite /without /enumerate -[j0 in LHS]add0n enumerate_drop_one. Qed.

Lemma shape_minor_rows (n i0 j0 : nat) (rows : seq (seq scalar)) :
  is_shape n.+1 n.+1 rows -> (i0 < n.+1)%N -> (j0 < n.+1)%N ->
  is_shape n n (minor_rows i0 j0 rows).
Proof.
move=> sh lt_i lt_j; apply/is_shapeP; rewrite /minor_rows without_take_drop.
have sz : size (take i0 rows ++ drop i0.+1 rows) = n.
  by rewrite size_take_drop (shape_size sh).
split; first by rewrite size_map.
move=> r lt_r; rewrite (nth_map [::]) ?sz // without_take_drop nth_take_drop.
by rewrite size_take_drop (shape_row sh) //; case: ifP => _; nat_lia.
Qed.

Lemma entry_minor_rows (n i0 j0 r c : nat) (rows : seq (seq scalar)) :
  is_shape n.+1 n.+1 rows -> (i0 < n.+1)%N -> (r < n)%N ->
  entry (minor_rows i0 j0 rows) r c = removed i0 j0 (entry rows) r c.
Proof.
move=> sh lt_i lt_r; rewrite /entry /removed /minor_rows without_take_drop.
rewrite (nth_map [::]); first by rewrite size_take_drop (shape_size sh).
by rewrite without_take_drop !nth_take_drop.
Qed.

Lemma det_minor_rows (n i0 j0 : nat) (rows : seq (seq scalar)) :
  is_shape n.+2 n.+2 rows -> (i0 < n.+2)%N -> (j0 < n.+2)%N ->
  (Let m := matrix (minor_rows i0 j0 rows) in det m)
  = Ok (cofactor_expansion n.+1 (removed i0 j0 (entry rows))).
Proof.
move=> sh lt_i lt_j; have sh' := shape_minor_rows sh lt_i lt_j.
rewrite (matrix_ok _ sh') // /bind.
have -> := det_square (ltn0Sn n) sh'.
congr Ok; apply: cofactor_expansion_ext => r c lt_r _.
exact: (entry_minor_rows j0 c sh lt_i lt_r).
Qed.

Lemma adj_rows_shape n M : is_shape n n (adj_rows n M).
Proof.
apply/is_shapeP; split; first by rewrite size_map size_iota.
by move=> i lt_i; rewrite (nth_map 0%N) ?size_iota // size_map size_iota.
Qed.

Lemma entry_adj_rows n M i j :
  (i < n)%N -> (j < n)%N ->
  entry (adj_rows n M) i j
  = (-1) ^+ (i + j) * cofactor_expansion n.-1 (removed j i M).
Proof.
move=> lt_i lt_j; rewrite /entry (nth_map 0%N) ?size_iota //.
by rewrite (nth_map 0%N) ?size_iota // !nth_iota // !add0n.
Qed.

Lemma adj_ok (n : nat) (rows : seq (seq scalar)) :
  is_shape n.+2 n.+2 rows ->
  adj (Matrix rows) = Ok (Matrix (adj_rows n.+2 (entry rows))).
Proof.
move=> sh; rewrite /adj (getitem_nth [::]) ?(shape_size sh) // bind_ok.
rewrite (shape_row sh) // ifN ?negbK ?eqxx //; cbv zeta.
rewrite (@eq_map_r_nat _ _ (fun i => Ok
  [seq (-1) ^+ (i + j) * cofactor_expansion n.+1 (removed j i (entry rows))
     | j <- iota 0 n.+2])).
  move=> i /andP [_ lt_i]; rewrite -map_r_ok; apply: eq_map_r_nat.
  move=> j /andP [_ lt_j].
  by rewrite -/(minor_rows j i rows) (det_minor_rows sh).
by rewrite map_r_ok bind_ok -/(adj_rows n.+2 (entry rows))
           (matrix_ok _ (adj_rows_shape _ _)).
Qed.

(** [adj] of a 1 by 1 matrix asks [matrix] for a matrix without rows. *)
Lemma adj_1x1_raises (x : scalar) : adj (Matrix [:: [:: x]]) = Raise ValueError.
Proof. by []. Qed.

(** ** The matrix product *)

Arguments irange : simpl never.
Arguments py_range : simpl never.
Arguments py_range2 : simpl never.
Arguments part2 : simpl never.
Arguments nrows : simpl never.
Arguments ncols : simpl never.
Arguments matrix : simpl never.
Arguments getitem : simpl never.
Arguments det : simpl never.
Arguments adj : simpl never.
Arguments identity_matrix : simpl never.
Arguments reduce_matmul : simpl never.

Lemma matmul_rows_shape m n p A B : is_shape m p (matmul_rows m n p A B).
Proof.
apply/is_shapeP; split; first by rewrite size_map size_iota.
by move=> i lt_i; rewrite (nth_map 0%N) ?size_iota // size_map size_iota.
Qed.

Lemma entry_matmul_rows m n p A B i j :
  (i < m)%N -> (j < p)%N ->
  entry (matmul_rows m n p A B) i j
  = \sum_(0 <= k < n) entry A i k * entry B k j.
Proof.
move=> lt_i lt_j; rewrite /entry (nth_map 0%N) ?size_iota //.
by rewrite (nth_map 0%N) ?size_iota // !nth_iota // !add0n.
Qed.

Lemma map_r_map (T U V : Type) (g : T -> U) (f : U -> result V) (xs : seq T) :
  map_r f [seq g x | x <- xs] = map_r (fun x => f (g x)) xs.
Proof. by elim: xs => //= x xs ->. Qed.

Lemma for_acc_map (T U V : Type) (g : T -> U) (body : U -> V -> result V)
    (xs : seq T) (acc : V) :
  for_acc [seq g x | x <- xs] acc body = for_acc xs acc (fun x => body (g x)).
Proof.
elim: xs acc => //= x xs IH acc.
by case: (body (g x) acc) => //= acc'; rewrite IH.
Qed.

Lemma irange_nat (n : nat) : irange n = [seq Z.of_nat k.+1 | k <- iota 0 n].
Proof. by rewrite /irange -[1%N]/(1 + 0)%N iotaDl -map_comp. Qed.

Lemma part2_entry (r c : nat) (args : seq (seq scalar)) (i k : nat) :
  is_shape r c args -> (i < r)%N -> (k < c)%N ->
  part2 (Matrix args) (Z.of_nat i.+1) (Z.of_nat k.+1) = Ok (entry args i k).
Proof.
move=> sh lt_i lt_k; rewrite /part2 (@part_matrix_int r c) //; try by nat_lia.
have -> : Z.to_nat (Z.of_nat i.+1 - 1) = i by lia.
have -> : Z.to_nat (Z.of_nat k.+1 - 1) = k by lia.
have -> : (1 <=? Z.of_nat i.+1)%Z by apply/Z.leb_le; lia.
have -> : (Z.of_nat i.+1 <=? Z.of_nat r)%Z by apply/Z.leb_le; nat_lia.
have -> : (1 <=? Z.of_nat k.+1)%Z by apply/Z.leb_le; lia.
by have -> : (Z.of_nat k.+1 <=? Z.of_nat c)%Z by apply/Z.leb_le; nat_lia.
Qed.

Lemma reduce_matmul_ok (m n p : nat) (A B : seq (seq scalar)) :
  (0 < m)%N -> (0 < n)%N -> is_shape m n A -> is_shape n p B ->
  reduce_matmul (Matrix A) (Matrix B) = Ok (Matrix (matmul_rows m n p A B)).
Proof.
move=> m_gt0 n_gt0 shA shB; rewrite /reduce_matmul /=.
rewrite (ncols_shape m_gt0 shA) (shape_size shB) /= eqxx /=.
rewrite (shape_size shA) !irange_nat map_r_map.
rewrite (@eq_map_r_nat _ _ (fun i => Ok
  [seq \sum_(0 <= k < n) entry A i k * entry B k j | j <- iota 0 p])).
  move=> i /andP [_ lt_i].
  rewrite (ncols_shape n_gt0 shB) bind_ok.
  rewrite irange_nat map_r_map -map_r_ok; apply: eq_map_r_nat.
  move=> j /andP [_ lt_j]; rewrite for_acc_map.
  rewrite (@for_acc_sum _ (fun k => entry A i k * entry B k j)).
    move=> k a; rewrite mem_iota => /andP [_ lt_k].
    by rewrite (part2_entry shA) // (part2_entry shB).
  by rewrite add0r /index_iota subn0.
by rewrite map_r_ok bind_ok (matrix_ok m_gt0 (matmul_rows_shape _ _ _ _ _)).
Qed.

(** ** The adjugate identity, on matrices with at least two rows *)

Lemma mx_of_removed (n : nat) (M : nat -> nat -> scalar) (i j : 'I_n.+1) :
  mx_of n n (removed i j M) = row' i (col' j (mx_of n.+1 n.+1 M)).
Proof.
apply/matrixP => r c; rewrite !mxE /removed /= /bump.
by congr M; rewrite ltnNge; case: leqP.
Qed.

Lemma cofactor_expansion_det (n : nat) (M : nat -> nat -> scalar) :
  (0 < n)%N -> cofactor_expansion n M = \det (mx_of n n M).
Proof.
elim: n M => // -[_ M _ | n IH M _]; first by rewrite det_mx11 mxE.
rewrite cofactor_expansionS (expand_det_col _ ord0) big_mkord.
apply: eq_bigr => i _; rewrite /cofactor mxE addn0 mulrAC mulrC.
by rewrite IH // (mx_of_removed M i ord0).
Qed.

Lemma mx_of_adj_rows (n : nat) (M : nat -> nat -> scalar) :
  (1 < n)%N ->
  mx_of n n (entry (adj_rows n M)) = \adj (mx_of n n M).
Proof.
case: n => [|[|n]] // _; apply/matrixP => i j.
rewrite !mxE entry_adj_rows // /cofactor addnC; congr (_ * _).
by rewrite cofactor_expansion_det // mx_of_removed.
Qed.

Lemma mx_of_matmul_rows (m n p : nat) (A B : seq (seq scalar)) :
  mx_of m p (entry (matmul_rows m n p A B))
  = mx_of m n (entry A) *m mx_of n p (entry B).
Proof.
apply/matrixP => i j; rewrite !mxE entry_matmul_rows // big_mkord.
by apply: eq_bigr => k _; rewrite !mxE.
Qed.

Lemma entry_mx_of (n : nat) (X : seq (seq scalar)) (i j : nat)
    (lt_i : (i < n)%N) (lt_j : (j < n)%N) :
  entry X i j = mx_of n n (entry X) (Ordinal lt_i) (Ordinal lt_j).
Proof. by rewrite mxE. Qed.

Lemma scaled_rows_shape (r c : nat) (d : scalar) (rows : seq (seq scalar)) :
  is_shape r c rows -> is_shape r c (scaled_rows d rows).
Proof.
move=> sh; apply/is_shapeP; split; first by rewrite size_map (shape_size sh).
move=> i lt_i; rewrite (nth_map [::]) ?(shape_size sh) // size_map.
exact: shape_row sh lt_i.
Qed.

Lemma entry_scaled_rows (r c : nat) (d : scalar) (rows : seq (seq scalar))
    (i j : nat) :
  is_shape r c rows -> (i < r)%N -> (j < c)%N ->
  entry (scaled_rows d rows) i j = d * entry rows i j.
Proof.
move=> sh lt_i lt_j; rewrite /entry (nth_map [::]) ?(shape_size sh) //.
by rewrite (nth_map 0) // (shape_row sh).
Qed.

Lemma scalar_times_matrix (d : scalar) (rows : seq (seq scalar)) :
  rule_scalar_multiplication [:: Num d; Matrix rows]
  = Ok (Matrix (scaled_rows (d * 1) rows)).
Proof. by []. Qed.

(** The adjugate identity for the matrices on which [adj] answers: for a
    square matrix [A] with at least two rows, [A @ adj(A)] and
    [det(A) * identity_matrix(n)] are the same matrix, whether or not
    [det(A)] is zero. *)
Lemma matmul_adj_is_scaled_identity (n : nat) (A : seq (seq scalar)) :
  is_shape n.+2 n.+2 A ->
  exists (d : scalar) (adjA P I : seq (seq scalar)),
    [/\ det (Matrix A) = Ok d,
        adj (Matrix A) = Ok (Matrix adjA),
        identity_matrix (Z.of_nat n.+2) = Ok (Matrix I),
        reduce_matmul (Matrix A) (Matrix adjA) = Ok (Matrix P)
      & rule_scalar_multiplication [:: Num d; Matrix I] = Ok (Matrix P)].
Proof.
move=> sh; set N := n.+2; have N_gt0 : (0 < N)%N by [].
exists (cofactor_expansion N (entry A)), (adj_rows N (entry A)),
       (matmul_rows N N N A (adj_rows N (entry A))), (identity_rows N).
have det_A := det_square N_gt0 sh.
split=> //; first exact: adj_ok.
- exact: identity_matrix_ok.
- exact: reduce_matmul_ok (adj_rows_shape _ _).
rewrite scalar_times_matrix; congr (Ok (Matrix _)).
apply: (@shape_ext N N).
- exact/scaled_rows_shape/identity_rows_shape.
- exact: matmul_rows_shape.
move=> i j lt_i lt_j.
rewrite (entry_scaled_rows _ (identity_rows_shape N)) // entry_identity_rows //.
rewrite (entry_mx_of _ lt_i lt_j) mx_of_matmul_rows mx_of_adj_rows //.
rewrite mul_mx_adj mxE -cofactor_expansion_det //= mulr1.
by rewrite -[Ordinal lt_i == _]/(i == j); case: eqP; rewrite ?mulr1 ?mulr0.
Qed.

(** C1 fails on every 1 by 1 matrix: [det(A) * identity_matrix(1)] is
    the matrix with the entry of [A], but [adj(A)] raises, hence so does
    [A @ adj(A)]. *)
Theorem matmul_adj_1x1_raises :
  let A := Matrix [:: [:: 5%:Q]] in
  [/\ det A = Ok 5%:Q,
      (Let I := identity_matrix 1 in rule_scalar_multiplication [:: Num 5%:Q; I])
        = Ok (Matrix [:: [:: 5%:Q]]),
      adj A = Raise ValueError
    & (Let a := adj A in reduce_matmul A a) = Raise ValueError].
Proof. by split; vm_compute. Qed.

(** ** Powers by repeated squaring *)

Lemma naive_pow_shape n A k : is_shape n n (naive_pow n A k).
Proof. by case: k => [|k]; [exact: identity_rows_shape | exact: matmul_rows_shape]. Qed.

Lemma mx_of_inj (n : nat) (X Y : seq (seq scalar)) :
  is_shape n n X -> is_shape n n Y ->
  mx_of n n (entry X) = mx_of n n (entry Y) -> X = Y.
Proof.
move=> shX shY eq_mx; apply: (shape_ext shX shY) => i j lt_i lt_j.
by rewrite !(entry_mx_of _ lt_i lt_j) eq_mx.
Qed.

Lemma mx_of_identity_rows n : mx_of n n (entry (identity_rows n)) = 1%:M.
Proof.
by apply/matrixP => i j; rewrite !mxE entry_identity_rows.
Qed.

Lemma matmul_naive_pow (n : nat) (A : seq (seq scalar)) (a b : nat) :
  is_shape n n A ->
  matmul_rows n n n (naive_pow n A a) (naive_pow n A b) = naive_pow n A (a + b).
Proof.
move=> sh; apply: mx_of_inj; [exact: matmul_rows_shape | exact: naive_pow_shape |].
elim: b => [|b IH].
  by rewrite addn0 mx_of_matmul_rows /= mx_of_identity_rows mulmx1.
by rewrite addnS /= !mx_of_matmul_rows -IH mx_of_matmul_rows mulmxA.
Qed.

Lemma naive_pow1 (n : nat) (A : seq (seq scalar)) :
  is_shape n n A -> naive_pow n A 1 = A.
Proof.
move=> sh; apply: (mx_of_inj (naive_pow_shape n A 1) sh).
by rewrite [naive_pow _ _ _]/= mx_of_matmul_rows mx_of_identity_rows mul1mx.
Qed.

Lemma land_pow2 (t a : Z) :
  (0 <= t)%Z -> Z.land (2 ^ t) a = if Z.testbit a t then (2 ^ t)%Z else 0%Z.
Proof.
move=> t_ge0; apply: Z.bits_inj' => m m_ge0.
rewrite Z.land_spec Z.pow2_bits_eqb //.
case: (Z.eqb_spec t m) => [<- | neq_tm] /=.
  by case: (Z.testbit a t); rewrite ?Z.bits_0 ?Z.pow2_bits_true.
by case: (Z.testbit a t); rewrite ?Z.bits_0 ?Z.pow2_bits_false.
Qed.

Lemma mod_pow2_succ (t a : Z) :
  (0 <= t)%Z -> (0 <= a)%Z ->
  (a mod 2 ^ (t + 1) = a mod 2 ^ t + if Z.testbit a t then 2 ^ t else 0)%Z.
Proof.
move=> t_ge0 a_ge0.
have pow_gt0 : (0 < 2 ^ t)%Z by apply: Z.pow_pos_nonneg.
have powS : (2 ^ (t + 1) = 2 * 2 ^ t)%Z by rewrite Z.pow_add_r // Z.pow_1_r; lia.
have := Z.testbit_spec' a t t_ge0; rewrite powS.
have := Z.div_mod a (2 ^ t) ltac:(lia).
have := Z.mod_pos_bound a (2 ^ t) pow_gt0.
have := Z.div_mod (a / 2 ^ t) 2 ltac:(lia).
have := Z.mod_pos_bound (a / 2 ^ t) 2 ltac:(lia).
move: (a / 2 ^ t)%Z (a mod 2 ^ t)%Z => q r.
move: (q / 2)%Z (q mod 2)%Z => q2 b bnd_b eq_q bnd_r eq_a eq_b.
symmetry; apply: (Z.mod_unique_pos _ _ q2);
  case: (Z.testbit a t) eq_b; rewrite /Z.b2z => eq_b; nia.
Qed.

Arguments naive_pow : simpl never.
Arguments Z.pow : simpl never.
Arguments Z.land : simpl never.
Arguments Z.shiftl : simpl never.
Arguments Z.leb : simpl never.
Arguments Z.eqb : simpl never.

Section PowLoop.

Variables (n : nat) (A : seq (seq scalar)) (npos : Z).
Hypotheses (n_gt0 : (0 < n)%N) (shA : is_shape n n A) (npos_ge0 : (0 <= npos)%Z).

Local Notation pw := (pow_expr n A).

Lemma matmul_pw (a b : Z) :
  (0 <= a)%Z -> (0 <= b)%Z -> reduce_matmul (pw a) (pw b) = Ok (pw (a + b)).
Proof.
move=> a_ge0 b_ge0.
rewrite (reduce_matmul_ok n_gt0 n_gt0 (naive_pow_shape _ _ _) (naive_pow_shape _ _ _)).
by rewrite matmul_naive_pow // /pow_expr Z2Nat.inj_add.
Qed.

Lemma pow_loop_naive (fuel : nat) (t : Z) :
  (0 <= t)%Z -> (0 < fuel)%N -> (npos + 2 <= 2 ^ t + Z.of_nat fuel)%Z ->
  pow_loop fuel (2 ^ t) npos (pw (2 ^ t)) (pw (npos mod 2 ^ t)) = Ok (pw npos).
Proof.
elim: fuel t => // fuel IH t t_ge0 _ le_fuel.
have pow_gt0 : (0 < 2 ^ t)%Z by apply: Z.pow_pos_nonneg.
have mod_bnd := Z.mod_pos_bound npos (2 ^ t) pow_gt0.
rewrite /=; case: Z.leb_spec => [le_npos | gt_npos]; last first.
  by rewrite Z.mod_small //; lia.
have -> : (if (Z.land (2 ^ t) npos =? 0)%Z then Ok (pw (npos mod 2 ^ t))
           else reduce_matmul (pw (npos mod 2 ^ t)) (pw (2 ^ t)))
          = Ok (pw (npos mod 2 ^ (t + 1))).
  rewrite land_pow2 // mod_pow2_succ //.
  case: (Z.testbit npos t); last by rewrite Z.eqb_refl Z.add_0_r.
  by case: Z.eqb_spec => [|_]; [lia | rewrite matmul_pw //; lia].
rewrite bind_ok matmul_pw ?bind_ok; try lia.
have -> : Z.shiftl (2 ^ t) 1 = (2 ^ (t + 1))%Z.
  by rewrite Z.shiftl_mul_pow2 // Z.pow_add_r.
have -> : (2 ^ t + 2 ^ t = 2 ^ (t + 1))%Z.
  by rewrite Z.pow_add_r // Z.pow_1_r; lia.
have powS : (2 ^ (t + 1) = 2 * 2 ^ t)%Z by rewrite Z.pow_add_r // Z.pow_1_r; lia.
by apply: IH; [lia | nat_lia | nat_lia].
Qed.

Lemma pow_loop_from_identity :
  pow_loop (Z.to_nat npos).+1 1 npos (Matrix A) (Matrix (identity_rows n))
  = Ok (pw npos).
Proof.
have := @pow_loop_naive (Z.to_nat npos).+1 0 (Z.le_refl 0) isT.
rewrite Z.pow_0_r Z.mod_1_r /pow_expr -[Z.to_nat 1]/1%N -[Z.to_nat 0]/0%N.
rewrite naive_pow1 // -[naive_pow n A 0]/(identity_rows n); apply.
by nat_lia.
Qed.

End PowLoop.

(** ** Negative powers *)

Lemma map_frac_nonzero (d : scalar) (rows : seq (seq scalar)) :
  d != 0 ->
  map_r (fun row => map_r (fun v => frac v d) row) rows
  = Ok [seq [seq v / d | v <- row] | row <- rows].
Proof.
move=> d_neq0; rewrite -map_r_ok; elim: rows => //= row rows ->.
have -> // : map_r (fun v => frac v d) row = Ok [seq v / d | v <- row].
by elim: row => //= v row ->; rewrite /frac (negPf d_neq0).
Qed.

Lemma map_frac_zero (r c : nat) (rows : seq (seq scalar)) :
  (0 < r)%N -> (0 < c)%N -> is_shape r c rows ->
  map_r (fun row => map_r (fun v => frac v 0) row) rows
  = Raise ZeroDivisionError.
Proof.
move=> r_gt0 c_gt0 sh; have := shape_row sh r_gt0; have := shape_size sh.
case: rows {sh} => [sz0 | [|v row] rows _ /= sz0]; first by rewrite -sz0 in r_gt0.
  by rewrite -sz0 in c_gt0.
by rewrite /frac ?eqxx.
Qed.

Lemma scaled_shape (r c : nat) (d : scalar) (rows : seq (seq scalar)) :
  is_shape r c rows -> is_shape r c [seq [seq v / d | v <- row] | row <- rows].
Proof.
move=> sh; apply/is_shapeP; split; first by rewrite size_map (shape_size sh).
move=> i lt_i; rewrite (nth_map [::]) ?(shape_size sh) // size_map.
exact: shape_row sh lt_i.
Qed.

(** For a negative exponent [z] the loop leaves [P], the matrix [A]
    multiplied [|z|] times, and the rule divides every entry of [adj(P)]
    by [det(P)]; when [det(P)] is zero the rule raises a hard error.
    With two rows or more and a nonzero determinant [d] the rule returns
    the rows of the adjugate divided by [d]; on a 1 by 1 matrix [adj]
    itself raises ([adj_1x1_raises]), and so does the rule. *)
Theorem pow_negative_is_adj_over_det (n : nat) (A : seq (seq scalar)) (z : Z) :
  (0 < n)%N -> is_shape n n A -> (z < 0)%Z ->
  let P := naive_pow n A (Z.to_nat (Z.abs z)) in
  [/\ pow_loop (Z.to_nat (Z.abs z)).+1 1 (Z.abs z)
               (Matrix A) (Matrix (identity_rows n)) = Ok (Matrix P),
      reduce_matrix_inverse (Matrix A) (PyInt z)
      = (Let d := det (Matrix P) in
         Let a := adj (Matrix P) in
         Let rs := map_r (fun row => map_r (fun v => frac v d) row) (args_of a) in
         matrix rs),
      det (Matrix P) = Ok 0 ->
        is_hard_error (reduce_matrix_inverse (Matrix A) (PyInt z))
    & forall d, (1 < n)%N -> det (Matrix P) = Ok d -> d != 0 ->
        reduce_matrix_inverse (Matrix A) (PyInt z)
        = Ok (Matrix [seq [seq v / d | v <- row]
                     | row <- adj_rows n (entry P)])].
Proof.
move=> n_gt0 sh z_lt0 P.
have abs_ge0 : (0 <= Z.abs z)%Z by lia.
have loop := pow_loop_from_identity n_gt0 sh abs_ge0.
have shP : is_shape n n P by exact: naive_pow_shape.
have inv_eq : reduce_matrix_inverse (Matrix A) (PyInt z)
      = (Let d := det (Matrix P) in
         Let a := adj (Matrix P) in
         Let rs := map_r (fun row => map_r (fun v => frac v d) row) (args_of a) in
         matrix rs).
  rewrite /reduce_matrix_inverse (nrows_shape sh) (ncols_shape n_gt0 sh) !bind_ok.
  rewrite ifN ?negbK ?eqxx // identity_matrix_ok // bind_ok loop bind_ok.
  by case: Z.geb_spec => //; lia.
split=> // [det0 | d n_gt1 det_d d_neq0]; rewrite inv_eq.
  rewrite det0 bind_ok; case: n n_gt0 sh P shP {loop inv_eq det0} => // -[|n] _ sh P shP.
    have := shape_row shP (ltn0Sn 0); have := shape_size shP.
    by case: P {shP} => [|[|x [|y row]] [|row' rows]].
  by rewrite (adj_ok shP) bind_ok (map_frac_zero _ _ (adj_rows_shape _ _)).
rewrite det_d bind_ok; case: n n_gt1 sh P shP {n_gt0 loop inv_eq det_d} => // -[|n] // _ sh P shP.
rewrite (adj_ok shP) bind_ok map_frac_nonzero // bind_ok.
exact: matrix_ok (scaled_shape _ (adj_rows_shape _ _)).
Qed.

Lemma pow_negative_is_adj_over_det_witness :
  reduce_matrix_inverse (Matrix [:: [:: 2%:Q; 0]; [:: 0; 2%:Q]]) (PyInt (-1))
  = Ok (Matrix [:: [:: 1%:Q / 2%:Q; 0]; [:: 0; 1%:Q / 2%:Q]]).
Proof.
have [_ -> _ _] := @pow_negative_is_adj_over_det 2
  [:: [:: 2%:Q; 0]; [:: 0; 2%:Q]] (-1) isT isT (erefl Lt).
by rewrite -[Z.to_nat _]/1%N naive_pow1 //; vm_compute.
Defined.

(** C3 fails on every 1 by 1 matrix: for a negative exponent the rule
    asks [adj] for the adjugate of the power [P], and [adj] raises on a
    1 by 1 matrix.  For [matrix([2]) ** -1] the power is [matrix([2])],
    its determinant is 2 and its adjugate is the 1 by 1 identity, so
    that [adj(P) / det(P)] is [matrix([1/2])]; the rule raises
    [ValueError]. *)
Theorem pow_negative_1x1_raises :
  let A := [:: [:: 2%:Q]] in
  [/\ forall (x : scalar) (k : positive),
        reduce_matrix_inverse (Matrix [:: [:: x]]) (PyInt (Z.neg k))
        = Raise ValueError,
      pow_loop 2 1 1 (Matrix A) (Matrix (identity_rows 1)) = Ok (Matrix A),
      det (Matrix A) = Ok 2%:Q,
      \adj (mx_of 1 1 (entry A)) = 1%:M
    & reduce_matrix_inverse (Matrix A) (PyInt (- 1)) = Raise ValueError].
Proof.
move=> A.
have raises (x : scalar) (k : positive) :
    reduce_matrix_inverse (Matrix [:: [:: x]]) (PyInt (Z.neg k))
    = Raise ValueError.
  have sh : is_shape 1 1 [:: [:: x]] by [].
  have [_ -> _ _] := @pow_negative_is_adj_over_det 1 [:: [:: x]] (Z.neg k)
    isT sh (erefl Lt).
  have := naive_pow_shape 1 [:: [:: x]] (Z.to_nat (Z.abs (Z.neg k))).
  by case: (naive_pow _ _ _) => [|[|y [|y' row]] [|row' rows]].
split.
- exact: raises.
- by vm_compute.
- by vm_compute.
- apply/matrixP => i j; rewrite !ord1 !mxE /cofactor eqxx.
  have det00 (M : 'M[scalar]_(1.-1)) : \det M = 1 := det_mx00 M.
  by rewrite det00 mulr1 expr0.
- exact: (raises 2%:Q 1%positive).
Qed.

(** ** Row reduction on the working copy *)

Arguments Z.sub : simpl never.
Arguments Z.add : simpl never.
Arguments Z.of_nat : simpl never.
Arguments Z.to_nat : simpl never.
Arguments Z.ltb : simpl never.
Arguments Z.geb : simpl never.
Arguments Z.min : simpl never.

Lemma bindM_ok (S T U : Type) (m : M S T) (f : T -> M S U) (s s' : S) (v : T) :
  m s = (s', Ok v) -> bindM m f s = f v s'.
Proof. by rewrite /bindM => ->. Qed.

Section RowsOf.

Variables rows cols : nat.
Implicit Types (e : nat -> nat -> scalar) (m : seq (seq scalar)).

Lemma rows_of_shape e : is_shape rows cols (rows_of rows cols e).
Proof.
apply/is_shapeP; split; first by rewrite size_mkseq.
by move=> i lt_i; rewrite nth_mkseq // size_mkseq.
Qed.

Lemma entry_rows_of e s c :
  (s < rows)%N -> (c < cols)%N -> entry (rows_of rows cols e) s c = e s c.
Proof. by move=> lt_s lt_c; rewrite /entry nth_mkseq // nth_mkseq. Qed.

Lemma eq_rows_of e1 e2 :
  (forall s c, (s < rows)%N -> (c < cols)%N -> e1 s c = e2 s c) ->
  rows_of rows cols e1 = rows_of rows cols e2.
Proof.
move=> eq_e; apply: (shape_ext (rows_of_shape e1) (rows_of_shape e2)).
by move=> s c lt_s lt_c; rewrite !entry_rows_of //; apply: eq_e.
Qed.

Lemma rows_of_entry m : is_shape rows cols m -> m = rows_of rows cols (entry m).
Proof.
move=> sh; apply: (shape_ext sh (rows_of_shape _)) => s c lt_s lt_c.
by rewrite entry_rows_of.
Qed.

End RowsOf.

Lemma setitem_set_nth (T : Type) (x0 : T) (xs : seq T) (i : nat) (x : T) :
  (i < size xs)%N -> setitem xs i x = Ok (set_nth x0 xs i x).
Proof. by move=> lt_i; rewrite /setitem lt_i set_nthE lt_i. Qed.

Section Primitives.

Variables rows cols : nat.
Implicit Types (st : rr_state) (i j k s c : nat).

Local Notation shaped st := (is_shape rows cols (mat st)).

Lemma mat_get_ok st i k :
  shaped st -> (i < rows)%N -> (k < cols)%N ->
  mat_get i k st = (st, Ok (entry (mat st) i k)).
Proof.
move=> sh lt_i lt_k; rewrite /mat_get (getitem_nth [::]) ?(shape_size sh) //=.
by rewrite (getitem_nth 0) ?(shape_row sh).
Qed.

Lemma mat_set_ok st i k v :
  shaped st -> (i < rows)%N -> (k < cols)%N ->
  mat_set i k v st
  = (RRState (rows_of rows cols (fun s c =>
       if (s == i) && (c == k) then v else entry (mat st) s c)) (steps_out st),
     Ok tt).
Proof.
move=> sh lt_i lt_k; rewrite /mat_set (getitem_nth [::]) ?(shape_size sh) //=.
rewrite (setitem_set_nth 0) ?(shape_row sh) //=.
rewrite (setitem_set_nth [::]) ?(shape_size sh) //=; congr (RRState _ _, _).
apply: (@shape_ext rows cols); last first.
- move=> s c lt_s lt_c; rewrite entry_rows_of // /entry nth_set_nth /=.
  by case: (s =P i) => //= ->; rewrite nth_set_nth /=; case: eqP.
- exact: rows_of_shape.
apply/is_shapeP; split.
  by rewrite size_set_nth (shape_size sh); apply/maxn_idPr.
move=> s lt_s; rewrite nth_set_nth /=; case: eqP => [_ | _].
  by rewrite size_set_nth (shape_row sh) //; apply/maxn_idPr.
exact: shape_row sh lt_s.
Qed.

Lemma mat_swap_ok st i j :
  shaped st -> (i < rows)%N -> (j < rows)%N ->
  mat_swap i j st
  = (RRState (rows_of rows cols (fun s c =>
       entry (mat st) (if s == j then i else if s == i then j else s) c))
       (steps_out st),
     Ok tt).
Proof.
move=> sh lt_i lt_j; rewrite /mat_swap !(getitem_nth [::]) ?(shape_size sh) //=.
rewrite (setitem_set_nth [::]) ?(shape_size sh) //=.
rewrite (setitem_set_nth [::]) ?size_set_nth ?(shape_size sh) //=.
  by rewrite (maxn_idPr lt_i).
congr (RRState _ _, _); apply: (@shape_ext rows cols); last first.
- move=> s c lt_s lt_c; rewrite entry_rows_of // /entry !nth_set_nth /=.
  by case: (s =P j) => // _; rewrite nth_set_nth /=; case: (s =P i).
- exact: rows_of_shape.
apply/is_shapeP; split.
  by rewrite !size_set_nth (shape_size sh) (maxn_idPr lt_i) (maxn_idPr lt_j).
move=> s lt_s; rewrite nth_set_nth /=; case: eqP => [_ | _].
  exact: shape_row sh lt_i.
by rewrite nth_set_nth /=; case: eqP => _; apply: (shape_row sh).
Qed.

Lemma steps_append_ok st (x : step) :
  exists2 st', steps_append x st = (st', Ok tt) & mat st' = mat st.
Proof. by exists (RRState (mat st) (omap (rcons^~ x) (steps_out st))). Qed.

End Primitives.

Section RowOps.

Variables rows cols : nat.
Implicit Types (st : rr_state) (i j k s c : nat).

Local Notation shaped st := (is_shape rows cols (mat st)).
Local Notation wc := value_copy.

Lemma swap_ok st i j :
  shaped st -> (i < rows)%N -> (j < rows)%N ->
  exists2 st', swap wc i j st = (st', Ok tt)
    & mat st' = rows_of rows cols (fun s c =>
        entry (mat st) (if s == j then i else if s == i then j else s) c).
Proof.
move=> sh lt_i lt_j; rewrite /swap /= (bindM_ok _ (mat_swap_ok sh lt_i lt_j)).
have [st' run' mat_st'] := steps_append_ok
  (RRState (rows_of rows cols (fun s c =>
     entry (mat st) (if s == j then i else if s == i then j else s) c))
     (steps_out st)) (StepSwap i.+1 j.+1).
by exists st'; rewrite ?run' ?mat_st'.
Qed.

Lemma row_loop (i : nat) (g : nat -> scalar) (body : nat -> M rr_state unit)
    (m0 : seq (seq scalar)) (st : rr_state) :
  (forall k st1, (k < cols)%N -> mat st1 = rows_of rows cols (row_prefix i g m0 k) ->
     exists2 st', body k st1 = (st', Ok tt)
       & mat st' = rows_of rows cols (row_prefix i g m0 k.+1)) ->
  mat st = rows_of rows cols (row_prefix i g m0 0) ->
  exists2 st', forM (iota 0 cols) body st = (st', Ok tt)
    & mat st' = rows_of rows cols (fun s c => if s == i then g c else entry m0 s c).
Proof.
move=> step st_E0.
have aux n : forall k0 st1, (k0 + n = cols)%N ->
    mat st1 = rows_of rows cols (row_prefix i g m0 k0) ->
    exists2 st', forM (iota k0 n) body st1 = (st', Ok tt)
      & mat st' = rows_of rows cols (row_prefix i g m0 cols).
  elim: n => [|n IH] k0 st1 eq_cols st_E.
    by exists st1 => //; rewrite st_E -eq_cols addn0.
  have lt_k0 : (k0 < cols)%N by nat_lia.
  have [st2 run2 mat_st2] := step k0 st1 lt_k0 st_E.
  have [|st' run' mat_st'] := IH k0.+1 st2 _ mat_st2; first by nat_lia.
  by exists st' => //=; rewrite (bindM_ok _ run2).
have [st' run mat_st'] := aux cols 0%N st (add0n cols) st_E0.
exists st' => //; rewrite mat_st'; apply: eq_rows_of => s c lt_s lt_c.
by rewrite /row_prefix lt_c andbT.
Qed.

Lemma row_prefix0 (i : nat) (g : nat -> scalar) (m0 : seq (seq scalar)) :
  is_shape rows cols m0 -> m0 = rows_of rows cols (row_prefix i g m0 0).
Proof.
move=> sh; rewrite [LHS](rows_of_entry sh); apply: eq_rows_of => s c _ _.
by rewrite /row_prefix ltn0 andbF.
Qed.

Lemma row_prefixS (i : nat) (g : nat -> scalar) (m0 : seq (seq scalar)) (k : nat) :
  rows_of rows cols (fun s c =>
    if (s == i) && (c == k) then g k
    else entry (rows_of rows cols (row_prefix i g m0 k)) s c)
  = rows_of rows cols (row_prefix i g m0 k.+1).
Proof.
apply: eq_rows_of => s c lt_s lt_c; rewrite entry_rows_of // /row_prefix.
have -> : (c < k.+1)%N = (c == k) || (c < k)%N by rewrite ltnS leq_eqVlt.
by case: (s =P i) => //= _; case: (c =P k) => [-> | _].
Qed.

Lemma scale_ok st i x :
  shaped st -> (i < rows)%N ->
  exists2 st', scale wc cols i x st = (st', Ok tt)
    & mat st' = rows_of rows cols (fun s c =>
        if s == i then entry (mat st) i c * x else entry (mat st) s c).
Proof.
move=> sh lt_i; rewrite /scale.
pose g c := entry (mat st) i c * x.
have step k st0 : (k < cols)%N ->
    mat st0 = rows_of rows cols (row_prefix i g (mat st) k) ->
    exists2 st', (Do v := wc_get wc i k in wc_set wc i k (v * x)) st0 = (st', Ok tt)
      & mat st' = rows_of rows cols (row_prefix i g (mat st) k.+1).
  move=> lt_k mat_st0.
  have sh0 : shaped st0 by rewrite mat_st0; apply: rows_of_shape.
  rewrite (bindM_ok _ (mat_get_ok sh0 lt_i lt_k)) /= (mat_set_ok _ sh0) //=.
  eexists; first by [].
  rewrite /= mat_st0 -row_prefixS; apply: eq_rows_of => s c lt_s lt_c.
  by rewrite !entry_rows_of // /row_prefix eqxx ltnn.
have [st1 run1 mat_st1] := row_loop step (row_prefix0 i g sh).
have [st' run' mat_st'] := steps_append_ok st1 (StepScale x i.+1).
by exists st'; rewrite ?(bindM_ok _ run1) ?mat_st'.
Qed.

Lemma replace_ok st i j x :
  shaped st -> (i < rows)%N -> (j < rows)%N ->
  exists2 st', replace wc cols i j x st = (st', Ok tt)
    & mat st' = rows_of rows cols (fun s c =>
        if s == i then entry (mat st) i c + x * entry (mat st) j c
        else entry (mat st) s c).
Proof.
move=> sh lt_i lt_j; rewrite /replace.
pose g c := entry (mat st) i c + x * entry (mat st) j c.
have step k st0 : (k < cols)%N ->
    mat st0 = rows_of rows cols (row_prefix i g (mat st) k) ->
    exists2 st', (Do a := wc_get wc i k in Do b := wc_get wc j k in
                  wc_set wc i k (a + x * b)) st0 = (st', Ok tt)
      & mat st' = rows_of rows cols (row_prefix i g (mat st) k.+1).
  move=> lt_k mat_st0.
  have sh0 : shaped st0 by rewrite mat_st0; apply: rows_of_shape.
  rewrite (bindM_ok _ (mat_get_ok sh0 lt_i lt_k)).
  rewrite (bindM_ok _ (mat_get_ok sh0 lt_j lt_k)) /= (mat_set_ok _ sh0) //=.
  eexists; first by [].
  rewrite /= mat_st0 -row_prefixS; apply: eq_rows_of => s c lt_s lt_c.
  by rewrite !entry_rows_of // /row_prefix eqxx ltnn !andbF.
have [st1 run1 mat_st1] := row_loop step (row_prefix0 i g sh).
have [st' run' mat_st'] := steps_append_ok st1 (StepReplace i.+1 x j.+1).
by exists st'; rewrite ?(bindM_ok _ run1) ?mat_st'.
Qed.

Lemma is_zero_ok st i :
  shaped st -> (i < rows)%N ->
  is_zero wc cols i st
  = (st, Ok (all (fun k => entry (mat st) i k == 0) (iota 0 cols))).
Proof.
move=> sh lt_i; rewrite /is_zero.
have: forall k, k \in iota 0 cols -> (k < cols)%N.
  by move=> k; rewrite mem_iota.
elim: (iota 0 cols) => //= k ks IH lt_ks.
have lt_k : (k < cols)%N by apply/lt_ks/mem_head.
have get_k : (Do v := mat_get i k in ret (v == 0)) st
             = (st, Ok (entry (mat st) i k == 0)).
  by rewrite (bindM_ok _ (mat_get_ok sh lt_i lt_k)).
rewrite (bindM_ok _ get_k); case: eqP => //= _; apply: IH => k' k'_in.
by apply: lt_ks; rewrite in_cons k'_in orbT.
Qed.

End RowOps.

(** ** The loops of [row_reduce] compute the functional model *)

Section Refinement.

Variables rows cols : nat.
Implicit Types (st : rr_state) (m : seq (seq scalar)) (i j k s c L : nat).

Local Notation shaped st := (is_shape rows cols (mat st)).
Local Notation wc := value_copy.

Lemma swap_rows_shape m i k : is_shape rows cols (swap_rows rows cols m i k).
Proof. exact: rows_of_shape. Qed.

Lemma eliminate_shape m ks i j : is_shape rows cols (eliminate rows cols m ks i j).
Proof. exact: rows_of_shape. Qed.

Lemma eliminate_nil m i j :
  is_shape rows cols m -> eliminate rows cols m [::] i j = m.
Proof. by move=> sh; rewrite [RHS](rows_of_entry sh). Qed.

Lemma entry_replace_row m k i (x : scalar) s c :
  (s < rows)%N -> (c < cols)%N ->
  entry (replace_row rows cols m k i x) s c
  = if s == k then entry m k c + x * entry m i c else entry m s c.
Proof. by move=> lt_s lt_c; rewrite /replace_row entry_rows_of. Qed.

Lemma eliminate_cons m k ks i j :
  (i < rows)%N -> (j < cols)%N ->
  k \notin ks -> k != i -> i \notin ks ->
  eliminate rows cols (replace_row rows cols m k i (- entry m k j)) ks i j
  = eliminate rows cols m (k :: ks) i j.
Proof.
move=> lt_i lt_j k_notin neq_ki i_notin; apply: eq_rows_of => s c lt_s lt_c.
rewrite in_cons !entry_replace_row // [i == k]eq_sym (negPf neq_ki).
by case: (s =P k) => [-> | _] /=; first by rewrite (negPf k_notin).
Qed.

Lemma elim_loop_ok st (ks : seq nat) i j :
  shaped st -> (i < rows)%N -> (j < cols)%N ->
  all (fun k => (k < rows)%N) ks -> uniq ks -> i \notin ks ->
  exists2 st',
    forM ks (fun k =>
      Do w := wc_get wc k j in
      if w != 0 then Do w := wc_get wc k j in replace wc cols k i (- w)
      else ret tt) st = (st', Ok tt)
    & mat st' = eliminate rows cols (mat st) ks i j.
Proof.
move=> sh lt_i lt_j; elim: ks st sh => [|k ks IH] st sh /=.
  by move=> _ _ _; exists st; rewrite ?eliminate_nil.
case/andP=> lt_k lt_ks /andP [k_notin uniq_ks].
rewrite in_cons negb_or eq_sym => /andP [neq_ki i_notin].
have [st1 run1 mat_st1] :
  exists2 st1,
    (Do w := wc_get wc k j in
     if w != 0 then Do w := wc_get wc k j in replace wc cols k i (- w)
     else ret tt) st = (st1, Ok tt)
    & mat st1 = replace_row rows cols (mat st) k i (- entry (mat st) k j).
  rewrite (bindM_ok _ (mat_get_ok sh lt_k lt_j)).
  case: eqP => [eq0 | _] /=.
    exists st => //; rewrite /replace_row eq0 [LHS](rows_of_entry sh).
    by apply: eq_rows_of => s c _ _; rewrite oppr0 mul0r addr0; case: eqP => // ->.
  rewrite (bindM_ok _ (mat_get_ok sh lt_k lt_j)).
  exact: replace_ok.
have sh1 : shaped st1 by rewrite mat_st1; apply: rows_of_shape.
have [st' run' mat_st'] := IH st1 sh1 lt_ks uniq_ks i_notin.
exists st'; first by rewrite (bindM_ok _ run1).
by rewrite mat_st' mat_st1 eliminate_cons.
Qed.

Lemma search_loop_ok st (ks : seq nat) i j :
  shaped st -> (i < rows)%N -> (j < cols)%N ->
  all (fun k => (k < rows)%N) ks ->
  exists2 st',
    for_break ks (fun k =>
      Do w := wc_get wc k j in
      if w != 0 then swap wc i k ;; ret true else ret false) st = (st', Ok tt)
    & mat st' = if first_nonzero_row (mat st) j ks is Some k
                then swap_rows rows cols (mat st) i k else mat st.
Proof.
move=> sh lt_i lt_j; rewrite /first_nonzero_row.
elim: ks => [|k ks IH] /=; first by exists st.
case/andP=> lt_k lt_ks.
have -> : (Do w := wc_get wc k j in
           if w != 0 then swap wc i k ;; ret true else ret false)
          = (fun st0 => bindM (mat_get k j) (fun w =>
               if w != 0 then swap wc i k ;; ret true else ret false) st0) by [].
rewrite /bindM (mat_get_ok sh lt_k lt_j); case: eqP => [_ | _] /=.
  exact: IH.
have [st' -> mat_st'] := swap_ok sh lt_i lt_k.
by exists st'.
Qed.

Lemma py_range2_rows (i L : nat) :
  py_range2 (Z.of_nat i + 1) (Z.of_nat L - 1 + 1) = iota i.+1 (L - i.+1).
Proof. by rewrite /py_range2; congr iota; nat_lia. Qed.

Lemma skip_ok st (fuel L : nat) :
  shaped st -> (L <= rows)%N -> (L < fuel)%N ->
  skip_zero_rows wc cols fuel (Z.of_nat L - 1) st
  = (st, Ok (Z.of_nat (skip_fun cols fuel (mat st) L) - 1)%Z).
Proof.
move=> sh; elim: fuel L => // fuel IH [|L] le_L lt_fuel //=.
case: Z.geb_spec => [_ | ?]; last by lia.
have -> : Z.to_nat (Z.of_nat L.+1 - 1) = L by lia.
rewrite (bindM_ok _ (is_zero_ok sh _)) // -/(zero_row cols (mat st) L).
case: ifP => // _.
have -> : (Z.of_nat L.+1 - 1 - 1 = Z.of_nat L - 1)%Z by lia.
by apply: IH; nat_lia.
Qed.

End Refinement.

Section ForwardRefinement.

Variables (rows cols : nat) (to_col : Z).
Hypothesis to_col_le : (to_col <= Z.of_nat cols)%Z.
Implicit Types (st : rr_state) (m : seq (seq scalar)) (i j k s c L : nat).

Local Notation shaped st := (is_shape rows cols (mat st)).
Local Notation wc := value_copy.
Local Notation tc := (Z.to_nat to_col).

Lemma find_pivot_shape m i j L :
  is_shape rows cols m -> is_shape rows cols (find_pivot rows cols m i j L).
Proof.
move=> sh; rewrite /find_pivot; case: ifP => // _.
by case: first_nonzero_row => // k; apply: rows_of_shape.
Qed.

Lemma normalize_pivot_shape m i j :
  is_shape rows cols m -> is_shape rows cols (normalize_pivot rows cols m i j).
Proof. by move=> sh; rewrite /normalize_pivot; case: ifP => // _; apply: rows_of_shape. Qed.

Lemma all_lt_iota (a n b : nat) :
  (a + n <= b)%N -> all (fun k => (k < b)%N) (iota a n).
Proof.
move=> le_b; apply/allP => k; rewrite mem_iota => /andP [_ lt_k].
exact: leq_trans lt_k le_b.
Qed.

(** The branch [if is_zero(i): ...] at the head of an iteration. *)
Lemma zero_branch_ok st i L :
  shaped st -> (i < rows)%N -> (L <= rows)%N ->
  let z := zero_row cols (mat st) i in
  let mL := if z then (swap_rows rows cols (mat st) i L.-1, L.-1)
            else (mat st, L) in
  exists2 st',
    (if z then
       if (Z.of_nat i >=? Z.of_nat L - 1)%Z then ret (true, (Z.of_nat L - 1)%Z)
       else swap wc i (Z.to_nat (Z.of_nat L - 1)) ;;
            ret (false, (Z.of_nat L - 1 - 1)%Z)
     else ret (false, (Z.of_nat L - 1)%Z)) st
    = (st', Ok (z && (L <= i.+1)%N,
                if z && (L <= i.+1)%N then (Z.of_nat L - 1)%Z
                else (Z.of_nat mL.2 - 1)%Z))
    & if z && (L <= i.+1)%N then mat st' = mat st
      else mat st' = mL.1 /\ (mL.2 <= rows)%N.
Proof.
move=> sh lt_i le_L z mL; rewrite {}/mL; case: z => /=; last by exists st.
case: Z.geb_spec => [le_i | gt_i].
  have -> : (L <= i.+1)%N by nat_lia.
  by exists st.
have -> /= : (L <= i.+1)%N = false by nat_lia.
have -> : Z.to_nat (Z.of_nat L - 1) = L.-1 by nat_lia.
have lt_L1 : (L.-1 < rows)%N by nat_lia.
have [st' run' mat_st'] := swap_ok sh lt_i lt_L1.
exists st'; last by split; [| nat_lia].
rewrite (bindM_ok _ run') /ret; congr (_, Ok (_, _)); nat_lia.
Qed.

Lemma forward_ok (fuel : nat) st i j L :
  shaped st -> (L <= rows)%N -> (tc - j < fuel)%N ->
  exists2 st',
    forward wc rows cols to_col fuel i j (Z.of_nat L - 1) st
    = (st', Ok (Z.of_nat (fwd_fun rows cols tc fuel (mat st) i j L).2 - 1)%Z)
    & mat st' = (fwd_fun rows cols tc fuel (mat st) i j L).1.
Proof.
elim: fuel st i j L => // fuel IH st i j L sh le_L lt_fuel.
rewrite /= -/(forward _ _ _ _ _).
have -> : (Z.of_nat j <? to_col)%Z = (j < tc)%N.
  by case: Z.ltb_spec => ?; symmetry; nat_lia.
case: ifP => [/andP [lt_i lt_j] | _]; last by exists st.
have lt_jc : (j < cols)%N by nat_lia.
rewrite (bindM_ok _ (is_zero_ok sh lt_i)) -/(zero_row cols (mat st) i).
have [st1 run1] := zero_branch_ok sh lt_i le_L.
rewrite (bindM_ok _ run1) {run1} /=.
case: ifP => [_ mat_st1 | _]; first by exists st1.
set mL := (if zero_row _ _ _ then _ else _); case=> mat_st1 le_L1.
have sh1 : shaped st1.
  by rewrite mat_st1 /mL; case: ifP => // _; apply: rows_of_shape.
rewrite (bindM_ok _ (mat_get_ok sh1 lt_i lt_jc)).
have [st2 run2 mat_st2] :
  exists2 st2,
    (if entry (mat st1) i j == 0
     then for_break (py_range2 (Z.of_nat i + 1) (Z.of_nat mL.2 - 1 + 1))
            (fun k => Do w := wc_get wc k j in
                      if w != 0 then swap wc i k ;; ret true else ret false)
     else ret tt) st1 = (st2, Ok tt)
    & mat st2 = find_pivot rows cols mL.1 i j mL.2.
  rewrite /find_pivot -mat_st1 py_range2_rows; case: ifP => _; last by exists st1.
  by apply: search_loop_ok => //; apply: all_lt_iota; nat_lia.
rewrite (bindM_ok _ run2) {run2}.
have sh2 : shaped st2 by rewrite mat_st2; apply: find_pivot_shape; rewrite -mat_st1.
rewrite (bindM_ok _ (mat_get_ok sh2 lt_i lt_jc)) mat_st2.
set m2 := find_pivot _ _ _ _ _ _ in mat_st2 *.
case: ifP => [_ | /negbT piv_neq0].
  by rewrite -mat_st2; apply: IH => //; nat_lia.
rewrite (bindM_ok _ (mat_get_ok sh2 lt_i lt_jc)) mat_st2.
have [st3 run3 mat_st3] :
  exists2 st3,
    (if entry m2 i j != 1
     then Do v := wc_get wc i j in Do c := lift (frac 1 v) in scale wc cols i c
     else ret tt) st2 = (st3, Ok tt)
    & mat st3 = normalize_pivot rows cols m2 i j.
  rewrite /normalize_pivot; case: ifP => _; last by exists st2.
  rewrite (bindM_ok _ (mat_get_ok sh2 lt_i lt_jc)) mat_st2.
  rewrite /lift /frac (negPf piv_neq0) [bindM _ _ _]/= -mat_st2.
  exact: scale_ok.
rewrite (bindM_ok _ run3) {run3}.
have sh3 : shaped st3.
  by rewrite mat_st3; apply: normalize_pivot_shape; rewrite -mat_st2.
have all_ks : all (fun k => (k < rows)%N) (iota i.+1 (mL.2 - i.+1)).
  by apply: all_lt_iota; nat_lia.
have i_notin : i \notin iota i.+1 (mL.2 - i.+1) by rewrite mem_iota ltnn.
have [st4 run4 mat_st4] :=
  elim_loop_ok sh3 lt_i lt_jc all_ks (iota_uniq _ _) i_notin.
rewrite py_range2_rows (bindM_ok _ run4) {run4}.
have sh4 : shaped st4 by rewrite mat_st4; apply: rows_of_shape.
have [|st' run' mat_st'] := IH st4 i.+1 j.+1 mL.2 sh4 le_L1; first by nat_lia.
by exists st'; rewrite ?run' ?mat_st' mat_st4 mat_st3.
Qed.

Lemma eliminate_above_ok st i j :
  shaped st -> (i < rows)%N -> (j < cols)%N ->
  exists2 st',
    forM (rev (iota 0 i)) (fun k =>
      Do w := wc_get wc k j in
      if w != 0 then Do w := wc_get wc k j in replace wc cols k i (- w)
      else ret tt) st = (st', Ok tt)
    & mat st' = eliminate rows cols (mat st) (rev (iota 0 i)) i j.
Proof.
move=> sh lt_i lt_j; apply: elim_loop_ok => //.
- by rewrite all_rev; apply: all_lt_iota; nat_lia.
- by rewrite rev_uniq iota_uniq.
- by rewrite mem_rev mem_iota ltnn andbF.
Qed.

Lemma back_row_shape m i :
  is_shape rows cols m -> is_shape rows cols (back_row rows cols tc m i).
Proof.
move=> sh; rewrite /back_row; case: first_nonzero_col => // j.
exact: rows_of_shape.
Qed.

Lemma back_row_ok st i :
  shaped st -> (i < rows)%N ->
  exists2 st',
    for_break (py_range to_col) (fun j =>
      Do v := wc_get wc i j in
      if v != 0 then
        forM (rev (iota 0 i)) (fun k =>
          Do w := wc_get wc k j in
          if w != 0 then Do w := wc_get wc k j in replace wc cols k i (- w)
          else ret tt) ;;
        ret true
      else ret false) st = (st', Ok tt)
    & mat st' = back_row rows cols tc (mat st) i.
Proof.
move=> sh lt_i; rewrite /back_row /first_nonzero_col /py_range.
have: all (fun j => (j < cols)%N) (iota 0 tc) by apply: all_lt_iota; nat_lia.
elim: (iota 0 tc) => [|j js IH] /=; first by exists st.
case/andP=> lt_j lt_js.
have -> : (Do v := wc_get wc i j in
           if v != 0 then
             forM (rev (iota 0 i)) (fun k =>
               Do w := wc_get wc k j in
               if w != 0 then Do w := wc_get wc k j in replace wc cols k i (- w)
               else ret tt) ;;
             ret true
           else ret false)
          = (fun st0 => bindM (mat_get i j) (fun v =>
               if v != 0 then
                 forM (rev (iota 0 i)) (fun k =>
                   Do w := wc_get wc k j in
                   if w != 0 then
                     Do w := wc_get wc k j in replace wc cols k i (- w)
                   else ret tt) ;;
                 ret true
               else ret false) st0) by [].
rewrite /bindM (mat_get_ok sh lt_i lt_j); case: eqP => [_ | _] /=.
  exact: IH.
have [st' -> mat_st'] := eliminate_above_ok sh lt_i lt_j.
by exists st'.
Qed.

Lemma bwd_fun_shape m L :
  is_shape rows cols m -> is_shape rows cols (bwd_fun rows cols tc m L).
Proof.
rewrite /bwd_fun; elim: (rev _) m => //= i is_ IH m sh.
exact/IH/back_row_shape.
Qed.

Lemma backward_ok st L :
  shaped st -> (L <= rows)%N ->
  exists2 st',
    backward wc cols to_col (Z.of_nat L - 1) st = (st', Ok tt)
    & mat st' = bwd_fun rows cols tc (mat st) L.
Proof.
move=> sh le_L; rewrite /backward /bwd_fun.
have -> : py_range (Z.of_nat L - 1 + 1) = iota 0 L.
  by rewrite /py_range; congr iota; lia.
have: all (fun i => (i < rows)%N) (rev (iota 0 L)).
  by rewrite all_rev; apply: all_lt_iota.
elim: (rev _) st sh => [|i is_ IH] st sh /=; first by exists st.
case/andP=> lt_i lt_is.
have [st1 run1 mat_st1] := back_row_ok sh lt_i.
have sh1 : shaped st1 by rewrite mat_st1; apply: back_row_shape.
have [st' run' mat_st'] := IH st1 sh1 lt_is.
by exists st'; rewrite ?(bindM_ok _ run1) ?mat_st' ?mat_st1.
Qed.

Lemma fwd_fun_shape (fuel : nat) m i j L :
  is_shape rows cols m -> is_shape rows cols (fwd_fun rows cols tc fuel m i j L).1.
Proof.
elim: fuel m i j L => // fuel IH m i j L sh /=.
case: ifP => // _; case: ifP => // _.
set mL := (if zero_row _ _ _ then _ else _).
have sh1 : is_shape rows cols mL.1.
  by rewrite /mL; case: ifP => // _; apply: rows_of_shape.
case: ifP => _; first exact/IH/find_pivot_shape.
exact/IH/rows_of_shape.
Qed.

Lemma fwd_fun_le (fuel : nat) m i j L :
  ((fwd_fun rows cols tc fuel m i j L).2 <= L)%N.
Proof.
elim: fuel m i j L => // fuel IH m i j L /=.
case: ifP => // _; case: ifP => // _.
set mL := (if zero_row _ _ _ then _ else _).
have le_L : (mL.2 <= L)%N by rewrite /mL; case: ifP => //= _; apply: leq_pred.
by case: ifP => _; apply: leq_trans (IH _ _ _ _) le_L.
Qed.

Lemma skip_fun_le (fuel : nat) m L : (skip_fun cols fuel m L <= L)%N.
Proof.
elim: fuel L => // fuel IH [|L] //=.
by case: ifP => // _; apply: leq_trans (IH L) (leqnSn L).
Qed.

Lemma row_reduce_loops_ok st (rref : bool) :
  shaped st ->
  exists2 st',
    row_reduce_loops wc rows cols to_col rref st = (st', Ok tt)
    & mat st' = row_reduce_fun rows cols tc rref (mat st).
Proof.
move=> sh; rewrite /row_reduce_loops /row_reduce_fun.
rewrite (bindM_ok _ (skip_ok sh (leqnn rows) (ltnSn rows))).
set L := skip_fun _ _ _ _.
have le_L : (L <= rows)%N by apply: skip_fun_le.
have [|st1 run1 mat_st1] := @forward_ok cols.+1 st 0 0 L sh le_L.
  by nat_lia.
rewrite (bindM_ok _ run1); case: rref; last by exists st1.
have sh1 : shaped st1 by rewrite mat_st1; apply: fwd_fun_shape.
have [|st' run' mat_st'] :=
  @backward_ok st1 (fwd_fun rows cols tc cols.+1 (mat st) 0 0 L).2 sh1.
  exact: leq_trans (fwd_fun_le _ _ _ _ _) le_L.
by exists st'; rewrite ?run' ?mat_st' ?mat_st1.
Qed.

End ForwardRefinement.

Lemma map_id_rows (A : seq (seq scalar)) :
  [seq [seq v | v <- row] | row <- A] = A.
Proof. by rewrite -[RHS]map_id; apply: eq_map => row; rewrite map_id. Qed.

Lemma row_reduce_ok (rows cols : nat) (A : seq (seq scalar)) (rref : bool)
    (steps : option (seq step)) (to_col : option pyval) (t : Z) :
  (0 < rows)%N -> is_shape rows cols A -> check_to_col cols to_col = Ok t ->
  exists steps',
    row_reduce (Matrix A) rref steps to_col
    = (steps', Ok (Matrix (row_reduce_fun rows cols (Z.to_nat t) rref A))).
Proof.
move=> rows_gt0 sh chk; rewrite /row_reduce map_id_rows /=.
rewrite /bindM /lift (getitem_nth [::]) ?(shape_size sh) //.
rewrite (shape_row sh) // chk.
have t_le : (t <= Z.of_nat cols)%Z.
  by case: to_col chk => [[z | e | s] | ] //= [<-]; lia.
have [st' -> mat_st'] := @row_reduce_loops_ok rows cols t t_le
  (RRState A steps) rref sh.
have sh' : is_shape rows cols (mat st').
  rewrite mat_st' /row_reduce_fun; case: (rref); last exact: fwd_fun_shape.
  exact/bwd_fun_shape/fwd_fun_shape.
by exists (steps_out st'); rewrite (matrix_ok rows_gt0 sh') mat_st'.
Qed.

(** ** Echelon forms *)

Section Echelon.

Variables rows cols : nat.
Implicit Types (m : seq (seq scalar)) (p : nat -> nat) (i j k r s c t L : nat).

Lemma zero_rowP m i :
  reflect (forall c, (c < cols)%N -> entry m i c = 0) (zero_row cols m i).
Proof.
apply: (iffP allP) => [all0 c lt_c | all0 c].
  by apply/eqP/all0; rewrite mem_iota.
by rewrite mem_iota => /andP [_ lt_c]; apply/eqP/all0.
Qed.

Lemma entry_swap_rows m a b s c :
  (s < rows)%N -> (c < cols)%N ->
  entry (swap_rows rows cols m a b) s c
  = entry m (if s == b then a else if s == a then b else s) c.
Proof. by move=> lt_s lt_c; rewrite /swap_rows entry_rows_of. Qed.

Lemma entry_scale_row m i x s c :
  (s < rows)%N -> (c < cols)%N ->
  entry (scale_row rows cols m i x) s c
  = if s == i then entry m i c * x else entry m s c.
Proof. by move=> lt_s lt_c; rewrite /scale_row entry_rows_of. Qed.

Lemma entry_eliminate m ks i j s c :
  (s < rows)%N -> (c < cols)%N ->
  entry (eliminate rows cols m ks i j) s c
  = if s \in ks then entry m s c + (- entry m s j) * entry m i c
    else entry m s c.
Proof. by move=> lt_s lt_c; rewrite /eliminate entry_rows_of. Qed.

End Echelon.

Lemma ohead_filter_some (T : eqType) (P : pred T) (xs : seq T) (x : T) :
  ohead [seq y <- xs | P y] = Some x -> x \in xs /\ P x.
Proof.
move=> hd; have: x \in [seq y <- xs | P y].
  by case: (filter P xs) hd => //= y ys [->]; rewrite mem_head.
by rewrite mem_filter => /andP [].
Qed.

Lemma ohead_filter_none (T : eqType) (P : pred T) (xs : seq T) :
  ohead [seq y <- xs | P y] = None -> forall x, x \in xs -> ~~ P x.
Proof.
move=> hd x x_in; apply/negP => Px.
have: x \in [seq y <- xs | P y] by rewrite mem_filter Px.
by case: (filter P xs) hd.
Qed.

Section ForwardInvariant.

Variables rows cols : nat.
Implicit Types (m : seq (seq scalar)) (p : nat -> nat) (i j k r s c t L : nat).

Local Notation fwd_inv := (fwd_inv rows cols).
Local Notation swap_rows := (swap_rows rows cols).

Lemma swap_inv m i j L p a b :
  fwd_inv m i j L p ->
  (i <= a)%N -> (a < L)%N -> (i <= b)%N -> (b < L)%N ->
  fwd_inv (swap_rows m a b) i j L p.
Proof.
move=> [bnd [sh zeroL piv inc low]] le_a lt_a le_b lt_b.
have [le_iL le_L le_j] := bnd.
split=> //; split=> //; first exact: rows_of_shape.
- move=> s c le_s lt_s lt_c; rewrite entry_swap_rows //.
  have /negPf-> : s != b by nat_lia.
  have /negPf-> : s != a by nat_lia.
  exact: zeroL.
- move=> t lt_t; have [lt_p piv1 piv0] := piv t lt_t.
  have lt_tr : (t < rows)%N by nat_lia.
  have neq_b : (t == b) = false by nat_lia.
  have neq_a : (t == a) = false by nat_lia.
  split=> // [|c lt_c]; rewrite entry_swap_rows ?neq_a ?neq_b //; try nat_lia.
  exact: piv0.
- move=> s c le_s lt_s lt_c; rewrite entry_swap_rows //; first by nat_lia.
  by apply: low => //; do ?[case: ifP => _]; nat_lia.
Qed.

Lemma swap_zero_inv m i j L p :
  fwd_inv m i j L p -> zero_row cols m i -> (i.+1 < L)%N ->
  fwd_inv (swap_rows m i L.-1) i j L.-1 p.
Proof.
move=> [bnd [sh zeroL piv inc low]] /zero_rowP zero_i lt_iL.
have [le_iL le_L le_j] := bnd.
split; first by split=> //; nat_lia.
split=> //; first exact: rows_of_shape.
- move=> s c le_s lt_s lt_c; rewrite entry_swap_rows //.
  case: eqP => [_ | /eqP neq_s]; first exact: zero_i.
  have /negPf-> : s != i by nat_lia.
  by apply: zeroL => //; nat_lia.
- move=> t lt_t; have [lt_p piv1 piv0] := piv t lt_t.
  have lt_tr : (t < rows)%N by nat_lia.
  have neq_b : (t == L.-1) = false by nat_lia.
  have neq_a : (t == i) = false by nat_lia.
  split=> // [|c lt_c]; rewrite entry_swap_rows ?neq_a ?neq_b //; try nat_lia.
  exact: piv0.
- move=> s c le_s lt_s lt_c; rewrite entry_swap_rows //; first by nat_lia.
  by apply: low => //; do ?[case: ifP => _]; nat_lia.
Qed.

Lemma find_pivot_inv m i j L p :
  fwd_inv m i j L p -> (i < L)%N -> (j < cols)%N ->
  let m2 := find_pivot rows cols m i j L in
  fwd_inv m2 i j L p
  /\ (entry m2 i j = 0 ->
      forall s, (i <= s)%N -> (s < rows)%N -> entry m2 s j = 0).
Proof.
move=> inv lt_iL lt_j; rewrite /find_pivot.
have [bnd [sh zeroL piv inc low]] := inv; have [le_iL le_L le_j] := bnd.
case: eqP => [eq0 | /eqP neq0] /=; last by split=> // /eqP; rewrite (negPf neq0).
case hd: first_nonzero_row => [k|] /=.
  have [] := ohead_filter_some hd; rewrite mem_iota => /andP [lt_ik lt_k] neq0.
  have lt_kL : (k < L)%N by nat_lia.
  split; first by apply: swap_inv => //; nat_lia.
  rewrite entry_swap_rows //; first by nat_lia.
  have -> : (i == k) = false by nat_lia.
  by rewrite eqxx => /eqP; rewrite (negPf neq0).
split=> // _ s le_s lt_s; case: (ltnP s L) => [lt_sL | le_Ls]; last exact: zeroL.
move: le_s; rewrite leq_eqVlt => /orP [/eqP <- // | lt_is].
apply/eqP; rewrite -[_ == _]negbK; apply: (ohead_filter_none hd).
by rewrite mem_iota lt_is /=; nat_lia.
Qed.

Lemma skip_column_inv m i j L p :
  fwd_inv m i j L p -> (j < cols)%N ->
  (forall s, (i <= s)%N -> (s < rows)%N -> entry m s j = 0) ->
  fwd_inv m i j.+1 L p.
Proof.
move=> [bnd [sh zeroL piv inc low]] lt_j col0; have [le_iL le_L le_j] := bnd.
split=> //; split=> //.
- by move=> t lt_t; have [lt_p piv1 piv0] := piv t lt_t; split=> //; nat_lia.
- move=> s c le_s lt_s; rewrite ltnS leq_eqVlt => /orP [/eqP -> | lt_c].
    exact: col0.
  exact: low.
Qed.

Lemma normalize_pivot_inv m i j L p :
  fwd_inv m i j L p -> (i < L)%N -> (j < cols)%N -> entry m i j != 0 ->
  let m3 := normalize_pivot rows cols m i j in
  fwd_inv m3 i j L p /\ entry m3 i j = 1.
Proof.
move=> inv lt_iL lt_j neq0; rewrite /normalize_pivot.
have [bnd [sh zeroL piv inc low]] := inv; have [le_iL le_L le_j] := bnd.
have lt_i : (i < rows)%N by nat_lia.
case: eqP => [eq1 | _] /=; first by [].
split; last by rewrite entry_scale_row // eqxx mul1r mulfV.
split=> //; split=> //; first exact: rows_of_shape.
- move=> s c le_s lt_s lt_c; rewrite entry_scale_row //.
  have /negPf-> : s != i by nat_lia.
  exact: zeroL.
- move=> t lt_t; have [lt_p piv1 piv0] := piv t lt_t.
  have lt_tr : (t < rows)%N by nat_lia.
  have neq_i : (t == i) = false by nat_lia.
  split=> // [|c lt_c]; rewrite entry_scale_row ?neq_i //; try nat_lia.
  exact: piv0.
- move=> s c le_s lt_s lt_c; rewrite entry_scale_row //; first by nat_lia.
  by case: eqP => _; rewrite low ?mul0r.
Qed.

Lemma eliminate_below_inv m i j L p :
  fwd_inv m i j L p -> (i < L)%N -> (j < cols)%N -> entry m i j = 1 ->
  fwd_inv (eliminate rows cols m (iota i.+1 (L - i.+1)) i j) i.+1 j.+1 L
          (fun t => if t == i then j else p t).
Proof.
move=> [bnd [sh zeroL piv inc low]] lt_iL lt_j piv_i.
have [le_iL le_L le_j] := bnd; have lt_i : (i < rows)%N by nat_lia.
have in_ks s : (s \in iota i.+1 (L - i.+1)) = (i < s)%N && (s < L)%N.
  by rewrite mem_iota subnKC.
split=> //; split=> //; first exact: rows_of_shape.
- move=> s c le_s lt_s lt_c; rewrite entry_eliminate // in_ks.
  have -> : (s < L)%N = false by nat_lia.
  by rewrite andbF; apply: zeroL.
- move=> t; rewrite ltnS leq_eqVlt => /orP [/eqP -> | lt_t].
    rewrite eqxx; split=> // [|c lt_c]; rewrite entry_eliminate ?in_ks ?ltnn //.
      by nat_lia.
    exact: low.
  have [lt_p piv1 piv0] := piv t lt_t.
  have lt_tr : (t < rows)%N by nat_lia.
  have -> : (t == i) = false by nat_lia.
  have not_in : (i < t)%N = false by nat_lia.
  split=> // [||c lt_c]; rewrite ?entry_eliminate ?in_ks ?not_in //; try nat_lia.
  exact: piv0.
- move=> t s lt_ts; rewrite ltnS leq_eqVlt => /orP [/eqP eq_s | lt_s].
    rewrite eq_s in lt_ts *.
    rewrite eqxx; have -> : (t == i) = false by nat_lia.
    by have [] := piv t lt_ts.
  have -> : (t == i) = false by nat_lia.
  have -> : (s == i) = false by nat_lia.
  exact: inc.
- move=> s c lt_is lt_s; rewrite ltnS => le_c.
  have lt_c : (c < cols)%N by nat_lia.
  rewrite entry_eliminate // in_ks lt_is /=; case: ltnP => [lt_sL | le_Ls].
    move: le_c; rewrite leq_eqVlt => /orP [/eqP -> | lt_cj].
      by rewrite piv_i mulr1 addrN.
    by rewrite (low s c) ?(low i c) ?mulr0 ?addr0 //; nat_lia.
  exact: zeroL.
Qed.

End ForwardInvariant.

Section ForwardEchelon.

Variables rows cols : nat.
Implicit Types (m : seq (seq scalar)) (p : nat -> nat) (i j k r s c t L : nat).

Local Notation fwd_inv := (fwd_inv rows cols).
Local Notation echelon := (echelon rows cols).
Local Notation fwd_fun := (fwd_fun rows cols cols).

Lemma skip_fun_zero (fuel : nat) m L :
  (L < fuel)%N ->
  forall s, (skip_fun cols fuel m L <= s)%N -> (s < L)%N -> zero_row cols m s.
Proof.
elim: fuel L => // fuel IH [|L] //= lt_fuel s.
case: ifP => [zero_L le_s | _ le_s lt_s]; last by nat_lia.
rewrite ltnS leq_eqVlt => /orP [/eqP -> // | lt_s].
exact: IH le_s lt_s.
Qed.

Lemma skip_fun_nonzero (fuel : nat) m L :
  (L < fuel)%N -> (0 < skip_fun cols fuel m L)%N ->
  ~~ zero_row cols m (skip_fun cols fuel m L).-1.
Proof.
elim: fuel L => // fuel IH [|L] //= lt_fuel.
by case: ifP => [_ | ->] //; apply: IH.
Qed.

Lemma fwd_inv_start m :
  is_shape rows cols m ->
  fwd_inv m 0 0 (skip_fun cols rows.+1 m rows) (fun _ => 0%N).
Proof.
move=> sh; split; first by split=> //; apply: skip_fun_le.
split=> // s c le_s lt_s lt_c.
exact/(zero_rowP _ _ _ (skip_fun_zero (ltnSn rows) le_s lt_s)).
Qed.

Lemma fwd_inv_exit m i j L p :
  fwd_inv m i j L p ->
  (forall s c, (i <= s)%N -> (s < rows)%N -> (c < cols)%N -> entry m s c = 0) ->
  echelon m i p.
Proof.
move=> [[le_iL le_L le_j] [sh zeroL piv inc low]] zero_i; split=> //.
  exact: leq_trans le_iL le_L.
by move=> t lt_t; have [lt_p piv1 piv0] := piv t lt_t; split=> //; nat_lia.
Qed.

Lemma fwd_fun_echelon (fuel : nat) m i j L p :
  fwd_inv m i j L p -> (cols - j < fuel)%N ->
  exists r p',
    [/\ echelon (fwd_fun fuel m i j L).1 r p',
        (r <= (fwd_fun fuel m i j L).2)%N
      & ((fwd_fun fuel m i j L).2 <= rows)%N].
Proof.
elim: fuel m i j L p => // fuel IH m i j L p inv lt_fuel /=.
have [[le_iL le_L le_j] [sh zeroL piv inc low]] := inv.
case: ifP => [/andP [lt_i lt_j] | out]; last first.
  exists i, p; split=> //; apply: fwd_inv_exit inv _ => s c le_s lt_s lt_c.
  have lt_i : (i < rows)%N by exact: leq_ltn_trans le_s lt_s.
  by rewrite lt_i /= in out; apply: low => //; nat_lia.
case: ifP => [/andP [/zero_rowP zero_i le_Li] | not_brk].
  exists i, p; split=> //; apply: fwd_inv_exit inv _ => s c.
  rewrite leq_eqVlt => /orP [/eqP <- _ | lt_is lt_s lt_c]; first exact: zero_i.
  by apply: zeroL => //; nat_lia.
set mL := (if zero_row _ _ _ then _ else _).
have [inv1 lt_iL1] : fwd_inv mL.1 i j mL.2 p /\ (i < mL.2)%N.
  rewrite /mL; case zero_i: (zero_row cols m i) not_brk => /= not_brk.
    have lt_iL : (i.+1 < L)%N by nat_lia.
    by split; [exact: swap_zero_inv | nat_lia].
  split=> //; rewrite ltnNge; apply/negP => le_Li.
  by move/negP: zero_i; apply; apply/zero_rowP => c lt_c; apply: zeroL.
have [inv2 col0] := find_pivot_inv inv1 lt_iL1 lt_j.
set m2 := find_pivot _ _ _ _ _ _ in inv2 col0 *.
case: eqP => [/col0 zero_j | /eqP neq0].
  by apply: IH (skip_column_inv inv2 lt_j zero_j) _; nat_lia.
have [inv3 piv1] := normalize_pivot_inv inv2 lt_iL1 lt_j neq0.
by apply: IH (eliminate_below_inv inv3 lt_iL1 lt_j piv1) _; nat_lia.
Qed.

End ForwardEchelon.

Lemma ohead_filter_iota (P : pred nat) (n k : nat) :
  (k < n)%N -> P k -> (forall c, (c < k)%N -> ~~ P c) ->
  ohead [seq c <- iota 0 n | P c] = Some k.
Proof.
move=> lt_k Pk before; have -> : n = (k + (n - k).-1.+1)%N by nat_lia.
rewrite iotaD filter_cat add0n /= Pk.
rewrite (@eq_in_filter _ P pred0) ?filter_pred0 // => c.
by rewrite mem_iota add0n => /andP [_ /before /negPf].
Qed.

Lemma filter_iota_none (P : pred nat) (n : nat) :
  (forall c, (c < n)%N -> ~~ P c) -> [seq c <- iota 0 n | P c] = [::].
Proof.
move=> none; rewrite (@eq_in_filter _ P pred0) ?filter_pred0 // => c.
by rewrite mem_iota add0n => /andP [_ /none /negPf].
Qed.

Section BackwardPass.

Variables rows cols : nat.
Implicit Types (m : seq (seq scalar)) (p : nat -> nat) (i j k r s c t L : nat).

Local Notation echelon := (echelon rows cols).
Local Notation reduced := (reduced rows).
Local Notation back_row := (back_row rows cols cols).
Local Notation bwd_fun := (bwd_fun rows cols cols).
Local Notation eliminate := (eliminate rows cols).

Lemma back_row_pivot m r p t :
  echelon m r p -> (t < r)%N ->
  back_row m t = eliminate m (rev (iota 0 t)) t (p t).
Proof.
move=> [sh le_r piv inc zero_r] lt_t; have [lt_p piv1 piv0] := piv t lt_t.
rewrite /back_row /first_nonzero_col (@ohead_filter_iota _ _ (p t)) //.
  by rewrite piv1 oner_neq0.
by move=> c /piv0 ->; rewrite negbK.
Qed.

Lemma back_row_zero m r p t :
  echelon m r p -> (r <= t)%N -> (t < rows)%N -> back_row m t = m.
Proof.
move=> [sh le_r piv inc zero_r] le_t lt_t.
rewrite /back_row /first_nonzero_col filter_iota_none // => c lt_c.
by rewrite zero_r // negbK.
Qed.

Lemma eliminate_id m ks i j :
  is_shape rows cols m -> (forall s, s \in ks -> entry m s j = 0) ->
  eliminate m ks i j = m.
Proof.
move=> sh col0; rewrite [RHS](rows_of_entry sh); apply: eq_rows_of => s c _ _.
by case: ifP => // /col0 ->; rewrite oppr0 mul0r addr0.
Qed.

Lemma back_row_inv m r p t :
  echelon m r p -> cleared_above m r p t.+1 -> (t < r)%N ->
  echelon (back_row m t) r p /\ cleared_above (back_row m t) r p t.
Proof.
move=> ech clr lt_t; rewrite (back_row_pivot ech lt_t).
have [sh le_r piv inc zero_r] := ech; have [lt_p piv1 piv0] := piv t lt_t.
have lt_tr : (t < rows)%N by nat_lia.
have in_ks s : (s \in rev (iota 0 t)) = (s < t)%N by rewrite mem_rev mem_iota.
have row_t c : (c < cols)%N ->
    entry (eliminate m (rev (iota 0 t)) t (p t)) t c = entry m t c.
  by move=> lt_c; rewrite entry_eliminate // in_ks ltnn.
split.
  split=> //; first exact: rows_of_shape.
  - move=> u lt_u; have [lt_pu pivu1 pivu0] := piv u lt_u.
    have lt_ur : (u < rows)%N by nat_lia.
    split=> // [|c lt_c]; rewrite entry_eliminate ?in_ks //; try nat_lia.
      case: ltnP => // lt_ut; rewrite pivu1 piv0 ?mulr0 ?addr0 //.
      exact: inc.
    case: ltnP => // lt_ut; rewrite pivu0 // piv0 ?mulr0 ?addr0 //.
    by apply: ltn_trans lt_c _; apply: inc.
  - move=> s c le_s lt_s lt_c; rewrite entry_eliminate // in_ks.
    have -> : (s < t)%N = false by nat_lia.
    exact: zero_r.
move=> u s le_u lt_u lt_s; have [lt_pu pivu1 pivu0] := piv u lt_u.
have lt_sr : (s < rows)%N by nat_lia.
rewrite entry_eliminate // in_ks; move: le_u.
rewrite leq_eqVlt => /orP [/eqP eq_u | lt_tu].
  by rewrite -eq_u in lt_s *; rewrite lt_s piv1 mulr1 addrN.
case: ltnP => [lt_st | le_ts]; last exact: clr.
by rewrite (clr u s) // ?(clr u t) ?mulr0 ?addr0 //; nat_lia.
Qed.

Lemma bwd_funS m L : bwd_fun m L.+1 = bwd_fun (back_row m L) L.
Proof.
by rewrite /bwd_fun -[L.+1]addn1 iotaD rev_cat /= add0n.
Qed.

Lemma bwd_fun_inv m r p L :
  (L <= rows)%N -> echelon m r p -> cleared_above m r p L ->
  echelon (bwd_fun m L) r p /\ cleared_above (bwd_fun m L) r p 0.
Proof.
elim: L m => [|L IH] m le_L ech clr //; rewrite bwd_funS.
case: (ltnP L r) => [lt_Lr | le_rL].
  by have [ech' clr'] := back_row_inv ech clr lt_Lr; apply: IH => //; nat_lia.
rewrite (back_row_zero ech le_rL) //; apply: IH => //; first by nat_lia.
by move=> t s le_t lt_t; nat_lia.
Qed.

Lemma cleared_reduced m r p :
  echelon m r p -> cleared_above m r p 0 -> reduced m r p.
Proof.
move=> [sh le_r piv inc zero_r] clr t s lt_t lt_s neq_st.
have [lt_p _ _] := piv t lt_t.
case: (ltngtP s t) neq_st => // [lt_st | lt_ts] _; first exact: clr.
case: (ltnP s r) => [lt_sr | le_rs]; last exact: zero_r.
by have [_ _] := piv s lt_sr; apply; apply: inc.
Qed.

End BackwardPass.

Section FixedPoint.

Variables rows cols : nat.
Implicit Types (m : seq (seq scalar)) (p : nat -> nat) (i j k r s c t L : nat).

Local Notation echelon := (echelon rows cols).
Local Notation reduced := (reduced rows).

Lemma pivot_row_nonzero m r p t :
  echelon m r p -> (t < r)%N -> zero_row cols m t = false.
Proof.
move=> [sh le_r piv inc zero_r] lt_t; have [lt_p piv1 _] := piv t lt_t.
by apply/negP => /zero_rowP /(_ _ lt_p) /eqP; rewrite piv1 oner_eq0.
Qed.

Lemma skip_fun_echelon m r p (fuel : nat) L :
  echelon m r p -> (r <= L)%N -> (L <= rows)%N -> (L < fuel)%N ->
  skip_fun cols fuel m L = r.
Proof.
move=> ech; have [sh le_r piv inc zero_r] := ech.
elim: fuel L => // fuel IH [|L] le_rL le_L lt_fuel /=; first by nat_lia.
move: le_rL; rewrite leq_eqVlt => /orP [/eqP eq_r | lt_rL].
  by rewrite (pivot_row_nonzero ech) // eq_r.
have -> : zero_row cols m L.
  by apply/zero_rowP => c lt_c; apply: zero_r.
by apply: IH => //; nat_lia.
Qed.

Lemma fwd_fun_fixed m r p (fuel : nat) i j :
  echelon m r p -> reduced m r p ->
  (i <= r)%N -> ((i < r)%N -> (j <= p i)%N) ->
  fwd_fun rows cols cols fuel m i j r = (m, r).
Proof.
move=> ech red; have [sh le_r piv inc zero_r] := ech.
elim: fuel i j => // fuel IH i j le_ir le_jp /=.
case: ifP => // /andP [lt_i lt_j].
move: le_ir; rewrite leq_eqVlt => /orP [/eqP eq_i | lt_ir].
  have -> : zero_row cols m i.
    by apply/zero_rowP => c lt_c; apply: zero_r => //; rewrite eq_i.
  by rewrite eq_i leqnSn.
rewrite (pivot_row_nonzero ech lt_ir) /=.
have [lt_p piv1 piv0] := piv i lt_ir.
have find_id : find_pivot rows cols m i j r = m.
  rewrite /find_pivot; case: eqP => // eq0.
  rewrite /first_nonzero_row (@eq_in_filter _ _ pred0) ?filter_pred0 // => k.
  rewrite mem_iota => /andP [lt_ik lt_k].
  have lt_kr : (k < r)%N by nat_lia.
  have lt_jp : (j < p i)%N.
    have := le_jp lt_ir; rewrite leq_eqVlt => /orP [/eqP eq_j | //].
    by move/eqP: eq0; rewrite eq_j piv1 oner_eq0.
  have lt_jpk : (j < p k)%N := ltn_trans lt_jp (inc _ _ lt_ik lt_kr).
  by have [_ _ ->] := piv k lt_kr; rewrite ?eqxx.
rewrite find_id; case: eqP => [eq0 | /eqP neq0].
  apply: IH => [|_]; first exact: ltnW.
  have := le_jp lt_ir; rewrite leq_eqVlt => /orP [/eqP eq_j | //].
  by move/eqP: eq0; rewrite eq_j piv1 oner_eq0.
have eq_j : j = p i.
  apply/eqP; move: (le_jp lt_ir); rewrite leq_eqVlt => /orP [// | lt_jp].
  by rewrite piv0 ?eqxx in neq0.
rewrite /normalize_pivot eq_j piv1 eqxx /=.
rewrite (@eliminate_id rows cols) //.
  move=> s; rewrite mem_iota => /andP [lt_is lt_s].
  by apply: red => //; nat_lia.
apply: IH => // lt_i1; rewrite -eq_j.
by have := inc i i.+1 (ltnSn i) lt_i1; rewrite -eq_j.
Qed.

Lemma bwd_fun_fixed m r p L :
  echelon m r p -> reduced m r p -> (L <= rows)%N ->
  bwd_fun rows cols cols m L = m.
Proof.
move=> ech red; have [sh le_r piv inc zero_r] := ech.
elim: L => // L IH le_L; rewrite bwd_funS.
have -> : back_row rows cols cols m L = m; last by apply: IH; nat_lia.
case: (ltnP L r) => [lt_Lr | le_rL]; last exact: back_row_zero ech le_rL le_L.
rewrite (back_row_pivot ech lt_Lr); apply: eliminate_id => // s.
rewrite mem_rev mem_iota add0n => /andP [_ lt_s].
by apply: red => //; nat_lia.
Qed.

Lemma row_reduce_fun_fixed m :
  is_rref rows cols m -> row_reduce_fun rows cols cols true m = m.
Proof.
move=> [r [p [ech red]]]; have [sh le_r _ _ _] := ech.
rewrite /row_reduce_fun (skip_fun_echelon ech le_r (leqnn rows) (ltnSn rows)).
by rewrite (fwd_fun_fixed _ ech red) //= (bwd_fun_fixed ech red).
Qed.

Lemma row_reduce_fun_echelon m :
  is_shape rows cols m ->
  is_echelon rows cols (row_reduce_fun rows cols cols false m).
Proof.
move=> sh; rewrite /row_reduce_fun.
have [|r [p [ech _ _]]] := fwd_fun_echelon (fwd_inv_start sh) (fuel := cols.+1).
  by nat_lia.
by exists r, p.
Qed.

Lemma row_reduce_fun_rref m :
  is_shape rows cols m ->
  is_rref rows cols (row_reduce_fun rows cols cols true m).
Proof.
move=> sh; rewrite /row_reduce_fun.
have [|r [p [ech le_rL le_L]]] :=
  fwd_fun_echelon (fwd_inv_start sh) (fuel := cols.+1); first by nat_lia.
set mL := fwd_fun _ _ _ _ _ _ _ _ in ech le_rL le_L *.
have clrL : cleared_above mL.1 r p mL.2.
  by move=> t s le_t lt_t; nat_lia.
have [ech' clr] := bwd_fun_inv le_L ech clrL.
by exists r, p; split=> //; apply: cleared_reduced ech' clr.
Qed.

End FixedPoint.

(** ** Row reduction, rank and nullity *)

Lemma row_reduce_default (rows cols : nat) (A : seq (seq scalar)) (rref : bool)
    (steps : option (seq step)) :
  (0 < rows)%N -> is_shape rows cols A ->
  (row_reduce (Matrix A) rref steps None).2
  = Ok (Matrix (row_reduce_fun rows cols cols rref A)).
Proof.
move=> rows_gt0 sh.
have [steps' ->] := @row_reduce_ok rows cols A rref steps None
  (Z.min (Z.of_nat cols) (Z.of_nat cols)) rows_gt0 sh (erefl _).
by rewrite Z.min_id Nat2Z.id.
Qed.

Lemma row_reduce_fun_shape (rows cols tc : nat) (rref : bool) (A : seq (seq scalar)) :
  is_shape rows cols A -> is_shape rows cols (row_reduce_fun rows cols tc rref A).
Proof.
move=> sh; rewrite /row_reduce_fun -[tc]Nat2Z.id.
have le_L := skip_fun_le cols rows.+1 A rows.
by case: rref; [apply: bwd_fun_shape|]; apply: fwd_fun_shape.
Qed.

(** C7: the reduced row echelon form that [row_reduce] returns is left
    as it is by another reduction. *)
Theorem row_reduce_rref_idempotent (rows cols : nat) (A : seq (seq scalar))
    (steps : option (seq step)) :
  (0 < rows)%N -> is_shape rows cols A ->
  exists R : seq (seq scalar),
    [/\ (row_reduce (Matrix A) true steps None).2 = Ok (Matrix R),
        is_rref rows cols R
      & forall steps', (row_reduce (Matrix R) true steps' None).2 = Ok (Matrix R)].
Proof.
move=> rows_gt0 sh; exists (row_reduce_fun rows cols cols true A).
have rref_R := row_reduce_fun_rref sh.
split=> // [|steps']; first exact: row_reduce_default.
rewrite (row_reduce_default _ _ rows_gt0 (row_reduce_fun_shape _ _ sh)).
by rewrite row_reduce_fun_fixed.
Qed.

Lemma row_reduce_rref_idempotent_witness :
  exists R : seq (seq scalar),
    (row_reduce (Matrix [:: [:: 1%:Q; 2%:Q]; [:: 3%:Q; 4%:Q]]) true None None).2
      = Ok (Matrix R)
    /\ (row_reduce (Matrix R) true None None).2 = Ok (Matrix R).
Proof.
have [R [red_A _ red_R]] := @row_reduce_rref_idempotent 2 2
  [:: [:: 1%:Q; 2%:Q]; [:: 3%:Q; 4%:Q]] None isT isT.
by exists R.
Defined.

(** ** Row reduction keeps the solutions of the homogeneous system *)

Section Solutions.

Variables rows cols : nat.
Implicit Types (m : seq (seq scalar)) (x : nat -> scalar) (i j k s c L : nat).

Local Notation dot m s x := (\sum_(0 <= c < cols) entry m s c * x c).
Local Notation shaped m := (is_shape rows cols m).
Local Notation same m m' := (forall x, solves cols m x <-> solves cols m' x).

Lemma solvesP m x :
  shaped m ->
  solves cols m x <-> (forall s, (s < rows)%N -> dot m s x = 0).
Proof. by move=> sh; rewrite /solves (shape_size sh). Qed.

Lemma dot_rows_of (e : nat -> nat -> scalar) x s :
  (s < rows)%N ->
  dot (rows_of rows cols e) s x = \sum_(0 <= c < cols) e s c * x c.
Proof.
move=> lt_s; apply: eq_big_nat => c /andP [_ lt_c].
by rewrite entry_rows_of.
Qed.

Lemma same_swap_rows m i k :
  shaped m -> (i < rows)%N -> (k < rows)%N ->
  same m (swap_rows rows cols m i k).
Proof.
move=> sh lt_i lt_k x.
rewrite (solvesP x sh) (solvesP x (swap_rows_shape _ _ _ _ _)).
have dot_swap s : (s < rows)%N ->
    dot (swap_rows rows cols m i k) s x
    = dot m (if s == k then i else if s == i then k else s) x.
  by move=> lt_s; rewrite /swap_rows dot_rows_of.
have lt_sw s : (s < rows)%N ->
    ((if s == k then i else if s == i then k else s) < rows)%N.
  by move=> lt_s; do 2?[case: ifP => _].
split=> sol s lt_s; first by rewrite dot_swap // sol // lt_sw.
have := sol _ (lt_sw _ lt_s); rewrite dot_swap ?lt_sw //.
suff -> : (if (if s == k then i else if s == i then k else s) == k then i
           else if (if s == k then i else if s == i then k else s) == i
                then k
                else if s == k then i else if s == i then k else s) = s by [].
case: (eqVneq s k) => [-> | s_k]; first by rewrite eqxx; case: eqP.
case: (eqVneq s i) => [-> | s_i]; first by rewrite eqxx.
by rewrite (negbTE s_k) (negbTE s_i).
Qed.

Lemma same_scale_row m i (a : scalar) :
  shaped m -> a != 0 -> same m (scale_row rows cols m i a).
Proof.
move=> sh a_neq0 x.
rewrite (solvesP x sh) (solvesP x (rows_of_shape _ _ _)).
have dot_scale s : (s < rows)%N ->
    dot (scale_row rows cols m i a) s x
    = if s == i then a * dot m i x else dot m s x.
  move=> lt_s; rewrite /scale_row dot_rows_of //; case: ifP => // _.
  by rewrite big_distrr /=; apply: eq_bigr => c _; rewrite mulrA [a * _]mulrC.
split=> sol s lt_s.
  by rewrite dot_scale //; case: eqP => [<-|_]; rewrite sol ?mulr0.
have := sol s lt_s; rewrite dot_scale //; case: eqP => [<-|//].
by move/eqP; rewrite mulf_eq0 (negbTE a_neq0) /= => /eqP.
Qed.

Lemma same_eliminate m (ks : seq nat) i j :
  shaped m -> (i < rows)%N -> i \notin ks ->
  same m (eliminate rows cols m ks i j).
Proof.
move=> sh lt_i i_ks x.
rewrite (solvesP x sh) (solvesP x (eliminate_shape _ _ _ _ _ _)).
have dot_elim s : (s < rows)%N ->
    dot (eliminate rows cols m ks i j) s x
    = if s \in ks then dot m s x + (- entry m s j) * dot m i x else dot m s x.
  move=> lt_s; rewrite /eliminate dot_rows_of //; case: ifP => // _.
  rewrite big_distrr /= -big_split /=; apply: eq_bigr => c _.
  by rewrite mulrDl mulrA.
split=> sol s lt_s.
  by rewrite dot_elim //; case: ifP => _; rewrite !sol // mulr0 addr0.
have dot_i : dot m i x = 0.
  by have := sol i lt_i; rewrite dot_elim // (negbTE i_ks).
by have := sol s lt_s; rewrite dot_elim //; case: ifP => // _; rewrite dot_i mulr0 addr0.
Qed.

Lemma same_find_pivot m i j L :
  shaped m -> (i < rows)%N -> (L <= rows)%N ->
  same m (find_pivot rows cols m i j L).
Proof.
move=> sh lt_i le_L; rewrite /find_pivot; case: ifP => // _.
rewrite /first_nonzero_row.
case found: (ohead _) => [k|] //.
have [] := ohead_filter_some found; rewrite mem_iota => /andP [lt_ik lt_k] _.
apply: same_swap_rows => //.
by nat_lia.
Qed.

Lemma same_normalize_pivot m i j :
  shaped m -> entry m i j != 0 -> same m (normalize_pivot rows cols m i j).
Proof.
move=> sh piv_neq0; rewrite /normalize_pivot; case: ifP => // _.
by apply: same_scale_row => //; rewrite div1r invr_eq0.
Qed.

Lemma same_fwd_fun (tc fuel : nat) m i j L :
  shaped m -> (L <= rows)%N ->
  same m (fwd_fun rows cols tc fuel m i j L).1.
Proof.
elim: fuel m i j L => [|fuel IH] m i j L sh le_L //=.
case: ifP => // /andP [lt_i _].
case: ifP => // not_done.
set mL := (if zero_row cols m i then _ else _).
have [shL le_L2 same_L] : [/\ shaped mL.1, (mL.2 <= rows)%N & same m mL.1].
  rewrite /mL; case: ifP not_done => [_ /= not_le | _ _]; last by split.
  have lt_iL : (i.+1 < L)%N by rewrite ltnNge not_le.
  have lt_L1 : (L.-1 < rows)%N by nat_lia.
  split; first exact: swap_rows_shape.
    by rewrite /=; nat_lia.
  exact: same_swap_rows.
set m2 := find_pivot rows cols mL.1 i j mL.2.
have sh2 : shaped m2 by apply: find_pivot_shape.
have same_2 : same m m2.
  by move=> x; rewrite same_L; apply: same_find_pivot.
case: ifP => [_ | /negbT piv_neq0].
  by move=> x; rewrite same_2; apply: IH.
set m3 := normalize_pivot rows cols m2 i j.
have sh3 : shaped m3 by apply: normalize_pivot_shape.
set m4 := eliminate rows cols m3 _ i j.
have sh4 : shaped m4 by apply: eliminate_shape.
move=> x; rewrite same_2 (same_normalize_pivot sh2 piv_neq0) -/m3.
have not_in : i \notin iota i.+1 (mL.2 - i.+1) by rewrite mem_iota ltnn.
rewrite (same_eliminate j sh3 lt_i not_in) -/m4.
exact: IH.
Qed.

Lemma same_back_row (tc : nat) m i :
  shaped m -> (i < rows)%N -> same m (back_row rows cols tc m i).
Proof.
move=> sh lt_i; rewrite /back_row; case: (first_nonzero_col _ _ _) => [j|] //.
by apply: same_eliminate => //; rewrite mem_rev mem_iota ltnn andbF.
Qed.

Lemma same_bwd_fun (tc : nat) m L :
  shaped m -> (L <= rows)%N -> same m (bwd_fun rows cols tc m L).
Proof.
move=> sh le_L; rewrite /bwd_fun.
have : all (fun i => (i < rows)%N) (rev (iota 0 L)).
  apply/allP => i; rewrite mem_rev mem_iota add0n /= => lt_i.
  exact: leq_trans lt_i le_L.
elim: (rev _) m sh => [|i idxs IH] m sh //= /andP [lt_i lt_idxs] x.
rewrite (same_back_row tc sh lt_i); apply: IH => //.
by rewrite -[tc]Nat2Z.id; apply: back_row_shape.
Qed.

Lemma same_row_reduce_fun (tc : nat) (rref : bool) m :
  shaped m -> same m (row_reduce_fun rows cols tc rref m).
Proof.
move=> sh; rewrite /row_reduce_fun.
have le_L := skip_fun_le cols rows.+1 m rows.
have same_f := @same_fwd_fun tc cols.+1 m 0 0 _ sh le_L.
case: rref => // x; rewrite same_f; apply: same_bwd_fun.
  by rewrite -[tc]Nat2Z.id; apply: fwd_fun_shape.
by rewrite -[tc]Nat2Z.id; apply: leq_trans (fwd_fun_le _ _ _ _ _ _ _ _) le_L.
Qed.

End Solutions.

(** ** The pivot rows of an echelon form *)

Lemma increasing_ge (r : nat) (p : nat -> nat) (t : nat) :
  increasing r p -> (t < r)%N -> (t <= p t)%N.
Proof.
move=> inc; elim: t => // t IH lt_t.
by apply: leq_ltn_trans (IH (ltnW lt_t)) (inc _ _ _ lt_t).
Qed.

Lemma echelon_le_cols (rows cols r : nat) (m : seq (seq scalar))
    (p : nat -> nat) :
  echelon rows cols m r p -> (r <= cols)%N.
Proof.
case=> _ _ piv inc _; case: r piv inc => // r piv inc.
have [lt_p _ _] := piv r (ltnSn r).
exact: leq_ltn_trans (increasing_ge inc (ltnSn r)) lt_p.
Qed.

Lemma count_lt_iota (r n : nat) :
  (r <= n)%N -> count (fun s => (s < r)%N) (iota 0 n) = r.
Proof.
move=> le_r; rewrite -(subnKC le_r) iotaD count_cat add0n.
have -> : count (fun s => (s < r)%N) (iota 0 r) = r.
  rewrite -[RHS](size_iota 0 r); apply/eqP; rewrite -all_count.
  by apply/allP => s; rewrite mem_iota.
have -> : count (fun s => (s < r)%N) (iota r (n - r)) = 0%N.
  apply/eqP; rewrite -leqn0 leqNgt -has_count; apply/hasPn => s.
  by rewrite mem_iota -leqNgt => /andP [].
by rewrite addn0.
Qed.

Lemma nonzero_rows_echelon (rows cols r : nat) (m : seq (seq scalar))
    (p : nat -> nat) :
  echelon rows cols m r p -> nonzero_rows m = r.
Proof.
case=> sh le_r piv inc zero.
rewrite /nonzero_rows [in LHS](rows_of_entry sh) /rows_of /mkseq count_map.
rewrite -[RHS](count_lt_iota le_r); apply: eq_in_count => s.
rewrite mem_iota add0n /= => lt_s; rewrite all_map.
case: (ltnP s r) => [lt_sr | le_rs].
  have [lt_p one _] := piv s lt_sr.
  apply/negP => /allP /(_ (p s)); rewrite mem_iota add0n /= one => /(_ lt_p).
  by rewrite oner_eq0.
apply/negbF/allP => c; rewrite mem_iota add0n /= => lt_c.
by rewrite zero.
Qed.

(** ** The rank of linear algebra *)

Section LinearRank.

Variables rows cols : nat.
Implicit Types (m : seq (seq scalar)) (x : nat -> scalar) (p : nat -> nat).

Local Notation mx m := (mx_of rows cols (entry m)).

(** A row of a matrix with [cols] columns, as an assignment of the
    unknowns. *)
Lemma solves_row (k : nat) (X : 'M[scalar]_(k, cols)) (a : 'I_k) m :
  is_shape rows cols m ->
  solves cols m (fun c => if insub c is Some j then X a j else 0)
  <-> forall s : 'I_rows, (X *m (mx m)^T) a s = 0.
Proof.
move=> sh; rewrite /solves (shape_size sh).
have dot (s : 'I_rows) :
    \sum_(0 <= c < cols)
      entry m s c * (if insub c is Some j then X a j else 0)
    = (X *m (mx m)^T) a s.
  rewrite big_mkord mxE; apply: eq_bigr => c _.
  by rewrite valK !mxE mulrC.
split=> [sol s | sol s lt_s]; first by rewrite -dot; apply: sol.
exact: etrans (dot (Ordinal lt_s)) (sol _).
Qed.

Lemma same_solutions_ker m m' :
  is_shape rows cols m -> is_shape rows cols m' ->
  (forall x, solves cols m x -> solves cols m' x) ->
  (kermx (mx m)^T <= kermx (mx m')^T)%MS.
Proof.
move=> sh sh' sub; apply/sub_kermxP/matrixP => a s; rewrite [RHS]mxE.
move: s; apply/(solves_row _ a sh')/sub/(solves_row _ a sh) => s.
by rewrite mulmx_ker mxE.
Qed.

Lemma same_solutions_rank m m' :
  is_shape rows cols m -> is_shape rows cols m' ->
  (forall x, solves cols m x <-> solves cols m' x) ->
  \rank (mx m) = \rank (mx m').
Proof.
move=> sh sh' same.
have le1 := mxrankS (same_solutions_ker sh sh' (fun x => (same x).1)).
have le2 := mxrankS (same_solutions_ker sh' sh (fun x => (same x).2)).
have := anti_leq (introT andP (conj le1 le2)).
rewrite !mxrank_ker !mxrank_tr => eq_ker.
have le_m := rank_leq_col (mx m); have le_m' := rank_leq_col (mx m').
by rewrite -(subKn le_m) eq_ker subKn.
Qed.

(** An echelon form with [r] pivot rows has rank [r]: the rows from [r]
    on are zero, and a combination of the rows that vanishes has the
    coefficient zero on every pivot row. *)
Lemma echelon_rank m r p :
  echelon rows cols m r p -> \rank (mx m) = r.
Proof.
case=> sh le_r piv inc zero; apply/eqP; rewrite eqn_leq; apply/andP; split.
  have -> : mx m = (pid_mx r : 'M_rows) *m mx m.
    apply/matrixP => i j; rewrite !mxE (bigD1 i) //= big1 ?addr0.
      move=> k; rewrite -val_eqE /= => /negPf k_i.
      by rewrite !mxE eq_sym k_i mul0r.
    rewrite !mxE eqxx /=; case: ltnP => [_ | le_ri]; first by rewrite mul1r.
    by rewrite mul0r zero.
  by apply: leq_trans (mxrankM_maxl _ _) _; rewrite rank_pid_mx.
pose K := kermx (mx m).
have K0 (a : 'I_rows) (s : nat) (lt_s : (s < rows)%N) :
    (s < r)%N -> K a (Ordinal lt_s) = 0.
  elim/ltn_ind: s lt_s => s IH lt_s lt_sr.
  have [lt_p one left0] := piv s lt_sr.
  have : (K *m mx m) a (Ordinal lt_p) = 0 by rewrite mulmx_ker mxE.
  rewrite mxE (bigD1 (Ordinal lt_s)) //= big1 ?addr0.
    move=> t; rewrite -val_eqE /= => t_s; rewrite [mx m _ _]mxE /=.
    case: (ltngtP t s) t_s => // [lt_ts | lt_st] _.
      have -> : t = Ordinal (ltn_ord t) by apply: val_inj.
      by rewrite IH ?mul0r //; apply: ltn_trans lt_sr.
    case: (ltnP t r) => [lt_tr | le_rt]; last by rewrite zero ?mulr0.
    have [_ _ left_t] := piv t lt_tr.
    by rewrite left_t ?mulr0 //; apply: inc.
  by rewrite [mx m _ _]mxE /= one mulr1.
have sub : (K <= kermx (pid_mx r : 'M_rows))%MS.
  apply/sub_kermxP/matrixP => a s; rewrite mxE [RHS]mxE big1 // => t _.
  rewrite [pid_mx _ _ _]mxE.
  case: (ltnP t r) => [lt_tr | _]; last by rewrite andbF mulr0.
  have -> : t = Ordinal (ltn_ord t) by apply: val_inj.
  by rewrite K0 ?mul0r.
have := mxrankS sub; rewrite !mxrank_ker rank_pid_mx // => le_ker.
have le_m := rank_leq_row (mx m).
by rewrite -(subKn le_r) -(subKn le_m); apply: leq_sub2l.
Qed.

End LinearRank.

(** C8: [rank(A)] is the number of rows that are not entirely zero in
    the echelon form [E] that [row_reduce] makes of [A].  [E] is in row
    echelon form and has the solutions of [A], so that the count is the
    rank of [A] as a matrix; and [rank(A) + nullity(A)] is the number of
    columns. *)
Theorem rank_plus_nullity (rows cols : nat) (A : seq (seq scalar)) :
  (0 < rows)%N -> is_shape rows cols A ->
  exists (E : seq (seq scalar)) (r : nat) (v : Z),
    [/\ [/\ (row_reduce (Matrix A) false None None).2 = Ok (Matrix E),
            is_echelon rows cols E
          & forall x, solves cols A x <-> solves cols E x],
        rank (Matrix A) = Ok r,
        r = nonzero_rows E /\ r = \rank (mx_of rows cols (entry A)),
        nullity (Matrix A) = Ok v
      & (Z.of_nat r + v = Z.of_nat cols)%Z].
Proof.
move=> rows_gt0 sh; pose E := row_reduce_fun rows cols cols false A.
have red_A := row_reduce_default false None rows_gt0 sh.
have rank_A : rank (Matrix A) = Ok (nonzero_rows E) by rewrite /rank /= red_A.
have shE : is_shape rows cols E by apply: row_reduce_fun_shape.
have same : forall x, solves cols A x <-> solves cols E x.
  exact: same_row_reduce_fun.
have [r [p ech]] := row_reduce_fun_echelon sh.
exists E, (nonzero_rows E), (Z.of_nat cols - Z.of_nat (nonzero_rows E))%Z.
split=> //.
- by split=> //; exists r, p.
- split=> //; rewrite (same_solutions_rank sh shE same).
  by rewrite (echelon_rank ech) -/E (nonzero_rows_echelon ech).
- by rewrite /nullity [is_matrix _]/= (ncols_shape rows_gt0 sh) rank_A.
- by lia.
Qed.

Lemma rank_plus_nullity_witness :
  exists (r : nat) (v : Z),
    [/\ rank (Matrix [:: [:: 1%:Q; 2%:Q]; [:: 2%:Q; 4%:Q]]) = Ok r,
        r = \rank (mx_of 2 2 (entry [:: [:: 1%:Q; 2%:Q]; [:: 2%:Q; 4%:Q]])),
        nullity (Matrix [:: [:: 1%:Q; 2%:Q]; [:: 2%:Q; 4%:Q]]) = Ok v
      & (Z.of_nat r + v = 2)%Z].
Proof.
have [E [r [v [_ rank_A [_ rank_mx] nullity_A sum]]]] := @rank_plus_nullity 2 2
  [:: [:: 1%:Q; 2%:Q]; [:: 2%:Q; 4%:Q]] isT isT.
by exists r, v.
Defined.

(** ** Row reduction on the heap: the frame *)

Section Preserves.

Variables (S : Type) (I : S -> Prop).

Lemma preserves_ret (T : Type) (v : T) : preserves I (ret v).
Proof. by []. Qed.

Lemma preserves_raise (T : Type) (e : error) : preserves I (@raise S T e).
Proof. by []. Qed.

Lemma preserves_lift (T : Type) (r : result T) : preserves I (lift r).
Proof. by []. Qed.

Lemma preserves_bind (T U : Type) (m : M S T) (f : T -> M S U) :
  preserves I m -> (forall v, preserves I (f v)) -> preserves I (bindM m f).
Proof.
move=> m_ok f_ok s Is; rewrite /bindM.
by case run: (m s) (m_ok s Is) => [s' [v|e]] //= Is'; apply: f_ok.
Qed.

Lemma preserves_if (T : Type) (b : bool) (m1 m2 : M S T) :
  preserves I m1 -> preserves I m2 -> preserves I (if b then m1 else m2).
Proof. by case: b. Qed.

Lemma preserves_forM (A : Type) (xs : seq A) (body : A -> M S unit) :
  (forall x, preserves I (body x)) -> preserves I (forM xs body).
Proof.
move=> body_ok; elim: xs => [|x xs IHxs] //=.
by apply: preserves_bind => // _.
Qed.

Lemma preserves_for_break (A : Type) (xs : seq A) (body : A -> M S bool) :
  (forall x, preserves I (body x)) -> preserves I (for_break xs body).
Proof.
move=> body_ok; elim: xs => [|x xs IHxs] //=.
by apply: preserves_bind => // stop; apply: preserves_if.
Qed.

Lemma preserves_allM (A : Type) (p : A -> M S bool) (xs : seq A) :
  (forall x, preserves I (p x)) -> preserves I (allM p xs).
Proof.
move=> p_ok; elim: xs => [|x xs IHxs] //=.
by apply: preserves_bind => // b; apply: preserves_if.
Qed.

Lemma preserves_mapM (A B : Type) (f : A -> M S B) (xs : seq A) :
  (forall x, preserves I (f x)) -> preserves I (mapM f xs).
Proof.
move=> f_ok; elim: xs => [|x xs IHxs] //=.
apply: preserves_bind => // y; apply: preserves_bind => // ys.
exact: preserves_ret.
Qed.

Lemma returns_bind (T U : Type) (m : M S T) (f : T -> M S U)
    (Q : S -> U -> Prop) :
  preserves I m -> (forall v, returns I (f v) Q) -> returns I (bindM m f) Q.
Proof.
move=> m_ok f_ok s Is; rewrite /bindM.
by case run: (m s) (m_ok s Is) => [s' [v|e]] //= Is'; apply: f_ok.
Qed.

End Preserves.

Ltac pres :=
  repeat match goal with
  | |- preserves _ (ret _) => exact: preserves_ret
  | |- preserves _ (raise _) => exact: preserves_raise
  | |- preserves _ (lift _) => exact: preserves_lift
  | |- preserves _ (bindM _ _) => apply: preserves_bind => [|?]
  | |- preserves _ (if _ then _ else _) => apply: preserves_if
  | |- preserves _ (forM _ _) => apply: preserves_forM => ?
  | |- preserves _ (for_break _ _) => apply: preserves_for_break => ?
  | |- preserves _ (allM _ _) => apply: preserves_allM => ?
  | |- preserves _ (mapM _ _) => apply: preserves_mapM => ?
  | |- _ => solve [eauto 1 with nocore]
  end.

Section Loops.

Variables (S : Type) (I : S -> Prop).
Variable wc : working_copy S.
Hypothesis get_ok : forall i k, preserves I (wc_get wc i k).
Hypothesis set_ok : forall i k v, preserves I (wc_set wc i k v).
Hypothesis swap_ok : forall i j, preserves I (wc_swap wc i j).
Hypothesis append_ok : forall s, preserves I (wc_append wc s).

Variables (rows cols : nat) (to_col : Z).

Lemma preserves_swap (i j : nat) : preserves I (swap wc i j).
Proof. by rewrite /swap; pres. Qed.

Lemma preserves_scale (i : nat) (c : scalar) : preserves I (scale wc cols i c).
Proof. by rewrite /scale; pres. Qed.

Lemma preserves_replace (i j : nat) (c : scalar) : preserves I (replace wc cols i j c).
Proof. by rewrite /replace; pres. Qed.

Lemma preserves_is_zero (i : nat) : preserves I (is_zero wc cols i).
Proof. by rewrite /is_zero; pres. Qed.

Lemma preserves_skip_zero_rows (fuel : nat) (last_nz : Z) :
  preserves I (skip_zero_rows wc cols fuel last_nz).
Proof.
elim: fuel last_nz => [|fuel IHfuel] last_nz /=; first exact: preserves_raise.
have zero_ok := preserves_is_zero.
by pres.
Qed.

Lemma preserves_forward (fuel i j : nat) (last_nz : Z) :
  preserves I (forward wc rows cols to_col fuel i j last_nz).
Proof.
elim: fuel i j last_nz => [|fuel IHfuel] i j last_nz /=; first exact: preserves_raise.
have zero_ok := preserves_is_zero.
have swp_ok := preserves_swap.
have scl_ok := preserves_scale.
have rep_ok := preserves_replace.
by pres.
Qed.

Lemma preserves_backward (last_nz : Z) : preserves I (backward wc cols to_col last_nz).
Proof.
have rep_ok := preserves_replace.
by rewrite /backward; pres.
Qed.

Lemma preserves_row_reduce_loops (rref : bool) :
  preserves I (row_reduce_loops wc rows cols to_col rref).
Proof.
have skip_ok := preserves_skip_zero_rows.
have fwd_ok := preserves_forward.
have bwd_ok := preserves_backward.
by rewrite /row_reduce_loops; pres.
Qed.

End Loops.

(** ** The frame of [row_reduce] *)

Section Pure.

Variable I : heap -> Prop.

Lemma preserves_load_row (l : nat) : preserves I (load_row l).
Proof. by move=> h Ih; rewrite /load_row; case: getitem => [[]|]. Qed.

Lemma preserves_load_refs (l : nat) : preserves I (load_refs l).
Proof. by move=> h Ih; rewrite /load_refs; case: getitem => [[]|]. Qed.

Lemma preserves_load_steps (l : nat) : preserves I (load_steps l).
Proof. by move=> h Ih; rewrite /load_steps; case: getitem => [[]|]. Qed.

End Pure.

Lemma getitem_some (T : Type) (x0 : T) (xs : seq T) (i : nat) (x : T) :
  getitem xs i = Ok x -> (i < size xs)%N /\ nth x0 xs i = x.
Proof.
case: (ltnP i (size xs)) => [lt_i|le_i]; last by rewrite getitem_out.
by rewrite (getitem_nth x0 lt_i) => -[<-].
Qed.

Lemma getitem_mem (T : eqType) (xs : seq T) (i : nat) (x : T) :
  getitem xs i = Ok x -> x \in xs.
Proof. by case/(getitem_some x) => lt_i <-; apply: mem_nth. Qed.

Lemma setitem_all (T : Type) (P : pred T) (xs ys : seq T) (i : nat) (x : T) :
  all P xs -> P x -> setitem xs i x = Ok ys -> all P ys.
Proof.
move=> all_xs Px; rewrite /setitem; case: ifP => // _ [<-].
rewrite all_cat /= Px -{1}(cat_take_drop i xs) in all_xs *.
move: all_xs; rewrite all_cat => /andP [-> all_drop] /=.
have := all_drop; rewrite -{1}(cat_take_drop 1 (drop i xs)) all_cat drop_drop add1n.
by case/andP.
Qed.

Lemma same_obj_refl (o : obj) : same_obj o o.
Proof. by case: o. Qed.

Lemma frame_refl (h : heap) : frame h h.
Proof. by split=> // l _; apply: same_obj_refl. Qed.

Section HeapInvariant.

Variables (h0 : heap) (mat_loc : nat) (steps_loc : option nat).

Local Notation d := (ORow [::]).
Local Notation J := (inv h0 mat_loc).

Lemma inv_set (h : heap) (l : nat) (o : obj) :
  J h -> (l < size h)%N ->
  (size h0 <= l)%N \/ (is_steps (nth d h l) /\ is_steps o) ->
  (if l == mat_loc then exists2 refs, o = ORefs refs & all (leq (size h0)) refs
   else True) ->
  J (set_nth d h l o).
Proof.
case=> -[le_h0 same_h] le_mat [refs mat_refs fresh] lt_l kind at_mat.
split=> //.
- split=> [|l' lt_l']; first by rewrite size_set_nth (maxn_idPr lt_l).
  rewrite nth_set_nth /=; case: eqP => [eq_l|_]; last exact: same_h.
  case: kind => [le_l|[steps_l steps_o]]; first by nat_lia.
  have := same_h _ lt_l'; rewrite eq_l /same_obj.
  by case: (nth _ h0 l) => // vs eq_h; rewrite eq_h in steps_l.
- rewrite nth_set_nth /= [mat_loc == l]eq_sym.
  by case: eqP at_mat => [_|_ _] //; exists refs.
Qed.

Lemma inv_load_refs (h : heap) :
  J h -> exists2 refs, load_refs mat_loc h = (h, Ok refs) & all (leq (size h0)) refs.
Proof.
case=> _ _ [refs mat_refs fresh]; exists refs => //.
have lt_mat : (mat_loc < size h)%N.
  by case: ltnP => // le_h; rewrite nth_default in mat_refs.
by rewrite /load_refs (getitem_nth d lt_mat) mat_refs.
Qed.

Lemma store_row_ok (r : nat) (vs : seq scalar) :
  (size h0 <= r)%N -> preserves J (store_row r vs).
Proof.
move=> le_r h Jh; rewrite /store_row /bindM /load_row.
case get_r: (getitem h r) => [[vs0|refs|log]|e] //=.
have [lt_r nth_r] := getitem_some d get_r.
apply: inv_set => //; first by left.
case: eqP => // eq_r; case: Jh => _ _ [refs]; rewrite -/d -eq_r nth_r.
by [].
Qed.

Lemma store_refs_ok (refs : seq nat) :
  all (leq (size h0)) refs -> preserves J (store_refs mat_loc refs).
Proof.
move=> fresh h Jh; rewrite /store_refs /bindM /load_refs.
case get_m: (getitem h mat_loc) => [[vs0|refs0|log]|e] //=.
have [lt_m nth_m] := getitem_some d get_m.
apply: inv_set => //; first by left; case: Jh.
by rewrite eqxx; exists refs.
Qed.

Lemma store_steps_ok (l : nat) (log : seq step) : preserves J (store_steps l log).
Proof.
move=> h Jh; rewrite /store_steps /bindM /load_steps.
case get_l: (getitem h l) => [[vs0|refs0|log0]|e] //=.
have [lt_l nth_l] := getitem_some d get_l.
apply: inv_set => //; first by right; rewrite nth_l.
case: eqP => // eq_l; case: Jh => _ _ [refs]; rewrite -/d -eq_l nth_l.
by [].
Qed.

Lemma alloc_ok (o : obj) : preserves J (alloc o).
Proof.
move=> h [[le_h0 same_h] le_mat [refs mat_refs fresh]]; rewrite /alloc /=.
have lt_mat : (mat_loc < size h)%N.
  by case: ltnP => // le_h; rewrite nth_default in mat_refs.
split=> //.
- split=> [|l lt_l]; first by rewrite size_rcons; nat_lia.
  by rewrite nth_rcons (leq_trans lt_l le_h0); apply: same_h.
- by exists refs => //; rewrite nth_rcons lt_mat.
Qed.

Lemma heap_get_ok (i k : nat) : preserves J (heap_get mat_loc i k).
Proof.
have load_refs_ok := @preserves_load_refs J.
have load_row_ok := @preserves_load_row J.
by rewrite /heap_get; pres.
Qed.

Lemma heap_set_ok (i k : nat) (v : scalar) : preserves J (heap_set mat_loc i k v).
Proof.
move=> h Jh; have [refs run fresh] := inv_load_refs Jh.
rewrite /heap_set (bindM_ok _ run) /bindM /lift.
case get_r: (getitem refs i) => [r|e] //.
have le_r : (size h0 <= r)%N by apply: (allP fresh); apply: getitem_mem get_r.
have := @preserves_load_row J r h Jh.
case: (load_row r h) => h1 [vs|e] //= Jh1.
case: (setitem vs k v) => [vs'|e] //.
exact: store_row_ok.
Qed.

Lemma heap_swap_ok (i j : nat) : preserves J (heap_swap mat_loc i j).
Proof.
move=> h Jh; have [refs run fresh] := inv_load_refs Jh.
rewrite /heap_swap (bindM_ok _ run) {1 2 3}/bindM /lift.
case get_j: (getitem refs j) => [rj|e] //.
case get_i: (getitem refs i) => [ri|e] //.
have le_rj : (size h0 <= rj)%N by apply: (allP fresh); apply: getitem_mem get_j.
have le_ri : (size h0 <= ri)%N by apply: (allP fresh); apply: getitem_mem get_i.
case set_i: (setitem refs i rj) => [refs1|e] //.
have fresh1 := setitem_all fresh le_rj set_i.
apply: preserves_bind Jh; first exact: store_refs_ok.
move=> _ h1 Jh1; have [refs2 run2 fresh2] := inv_load_refs Jh1.
rewrite (bindM_ok _ run2) /bindM /lift.
case set_j: (setitem refs2 j ri) => [refs3|e] //.
exact: store_refs_ok (setitem_all fresh2 le_ri set_j) _ Jh1.
Qed.

Lemma heap_append_ok (s : step) : preserves J (heap_append steps_loc s).
Proof.
have load_steps_ok := @preserves_load_steps J.
have store_ok := store_steps_ok.
by rewrite /heap_append; case: steps_loc => [l|]; pres.
Qed.

Lemma matrix_heap_ok (refs : seq nat) : preserves J (matrix_heap refs).
Proof.
have load_row_ok := @preserves_load_row J.
have new_ok := alloc_ok.
by rewrite /matrix_heap; pres.
Qed.

Lemma row_reduce_loops_heap_ok (rows cols : nat) (to_col : Z) (rref : bool) :
  preserves J (row_reduce_loops (heap_copy mat_loc steps_loc) rows cols to_col rref).
Proof.
apply: preserves_row_reduce_loops.
- exact: heap_get_ok.
- exact: heap_set_ok.
- exact: heap_swap_ok.
- exact: heap_append_ok.
Qed.

End HeapInvariant.

(** The rows of the working copy are made by the call. *)
Lemma copy_rows_fresh (refs : seq nat) (h h' : heap) (res : result (seq nat)) :
  mapM (fun r => Do vs := load_row r in
                 alloc (ORow [seq v | v <- vs])) refs h = (h', res) ->
  (exists t, h' = h ++ t) /\
  (forall new_refs, res = Ok new_refs -> all (leq (size h)) new_refs).
Proof.
elim: refs h h' res => [|r refs IHrefs] h h' res /=.
  by case=> <- <-; split=> [|new_refs [<-]] //; exists [::]; rewrite cats0.
rewrite {1}/bindM {1}/bindM.
have := @preserves_load_row (eq h) r h (erefl h).
case: (load_row r h) => h1 [vs|e] /= <-; last first.
  by case=> <- <-; split=> //; exists [::]; rewrite cats0.
rewrite {1}/bindM.
case run: (mapM _ _ _) => [h2 [new_refs|e]] [<- <-].
- have [[t ->] fresh] := IHrefs _ _ _ run.
  split=> [|_ [<-]] /=; first by exists (ORow [seq v | v <- vs] :: t); rewrite cat_rcons.
  rewrite leqnn /=; apply: sub_all (fresh _ (erefl _)) => l.
  by rewrite size_rcons; apply: ltnW.
- have [[t ->] _] := IHrefs _ _ _ run.
  by split=> //; exists (ORow [seq v | v <- vs] :: t); rewrite cat_rcons.
Qed.

Lemma inv_start (h : heap) (t : seq obj) (new_refs : seq nat) :
  all (leq (size h)) new_refs ->
  inv h (size (h ++ t)) (rcons (h ++ t) (ORefs new_refs)).
Proof.
move=> fresh; split.
- split=> [|l lt_l]; first by rewrite size_rcons size_cat; nat_lia.
  rewrite nth_rcons size_cat (ltn_addr _ lt_l) nth_cat lt_l.
  exact: same_obj_refl.
- by rewrite size_cat leq_addr.
- by exists new_refs => //; rewrite nth_rcons ltnn eqxx.
Qed.

Lemma inv_frame (h0 : heap) (mat_loc : nat) (h : heap) :
  inv h0 mat_loc h -> frame h0 h.
Proof. by case. Qed.

Lemma matrix_heap_fresh (h0 : heap) (mat_loc : nat) :
  returns (inv h0 mat_loc)
    (Do refs := load_refs mat_loc in matrix_heap refs) (fresh_matrix h0).
Proof.
move=> h Jh e; have [refs run fresh] := inv_load_refs Jh.
rewrite (bindM_ok _ run) /matrix_heap; case: ifP => // _.
set sizes_of := mapM _ refs.
have load_row_ok := @preserves_load_row (eq h).
have : preserves (eq h) sizes_of by rewrite /sizes_of; pres.
move/(_ h (erefl h)); rewrite /bindM.
case: (sizes_of h) => h1 [sizes|err] //= <-.
case: ifP => // _; rewrite /alloc /= => -[<-] /=.
case: Jh => -[le_h _] _ _; split=> //.
by exists refs => //; rewrite nth_rcons ltnn eqxx.
Qed.

(** Whatever the arguments, and whether the call returns or raises, the
    caller's rows and lists of rows are as they were; a matrix that is
    returned is a new one. *)
Lemma row_reduce_heap_frame (h : heap) (e : hexpr) (rref : bool)
    (steps_loc : option nat) (to_col : option pyval) :
  let run := row_reduce_heap e rref steps_loc to_col h in
  frame h run.1 /\ (forall e', run.2 = Ok e' -> fresh_matrix h run.1 e').
Proof.
pose post (run : heap * result hexpr) :=
  frame h run.1 /\ (forall e', run.2 = Ok e' -> fresh_matrix h run.1 e').
change (post (row_reduce_heap e rref steps_loc to_col h)).
have post_raise err : post (h, Raise err) by split=> //; apply: frame_refl.
case: e => head args; rewrite /row_reduce_heap.
case: ifP => _; first exact: post_raise.
rewrite {1}/bindM.
have := @preserves_load_refs (eq h) args h (erefl h).
case: (load_refs args h) => h1 [refs|e] /= <-; last exact: post_raise.
rewrite {1}/bindM.
case run: (mapM _ _ _) => [h2 [new_refs|e]]; have [[t eq_h2] fresh] := copy_rows_fresh run;
  last first.
  rewrite eq_h2; split=> //; split=> [|l lt_l] /=; first by rewrite size_cat leq_addr.
  by rewrite nth_cat lt_l; apply: same_obj_refl.
rewrite {1}/bindM /alloc eq_h2.
have := inv_start t (fresh _ (erefl _)).
set mat_loc := size (h ++ t); set h3 := rcons _ _ => inv_h3.
have get_ok := @preserves_load_refs (inv h mat_loc).
have row_ok := @preserves_load_row (inv h mat_loc).
have loops_ok := @row_reduce_loops_heap_ok h mat_loc steps_loc.
have mat_ok := @matrix_heap_ok h mat_loc.
split.
  by apply: (@inv_frame h mat_loc); move: h3 inv_h3; rewrite -/(preserves _ _); pres.
move: h3 inv_h3; rewrite -/(returns _ _ (fresh_matrix h)).
do 3![apply: returns_bind => [|?]; first by pres].
apply: returns_bind; first exact: loops_ok.
by move=> _; apply: matrix_heap_fresh.
Qed.

Lemma frame_load_refs (h h' : heap) (l : nat) (refs : seq nat) :
  frame h h' -> (load_refs l h).2 = Ok refs -> (load_refs l h').2 = Ok refs.
Proof.
case=> le_h same_h; rewrite /load_refs.
case get_l: (getitem h l) => [[vs|rs|log]|e] //= [<-].
have [lt_l nth_l] := getitem_some (ORow [::]) get_l.
have := same_h _ lt_l; rewrite nth_l /same_obj => eq_l.
by rewrite (getitem_nth (ORow [::]) (leq_trans lt_l le_h)) eq_l.
Qed.

Lemma frame_load_row (h h' : heap) (l : nat) (vs : seq scalar) :
  frame h h' -> (load_row l h).2 = Ok vs -> (load_row l h').2 = Ok vs.
Proof.
case=> le_h same_h; rewrite /load_row.
case get_l: (getitem h l) => [[vs0|rs|log]|e] //= [<-].
have [lt_l nth_l] := getitem_some (ORow [::]) get_l.
have := same_h _ lt_l; rewrite nth_l /same_obj => eq_l.
by rewrite (getitem_nth (ORow [::]) (leq_trans lt_l le_h)) eq_l.
Qed.

Lemma frame_read_rows (h h' : heap) (args : nat) (A : seq (seq scalar)) :
  frame h h' -> read_rows h args = Ok A -> read_rows h' args = Ok A.
Proof.
move=> fr; rewrite /read_rows.
case load: (load_refs args h).2 => [refs|e] //=.
rewrite (frame_load_refs fr load) /=.
elim: refs A {load} => [|r refs IHrefs] A //=.
case load_r: (load_row r h).2 => [vs|e] //=.
rewrite (frame_load_row fr load_r) /=.
case: (map_r _ refs) IHrefs => [B|e] //= IHrefs eq_A.
by rewrite (IHrefs B (erefl _)).
Qed.

(** C9: [row_reduce] leaves its input unchanged.  Let [A] be the rows of
    the matrix at [args] before the call.  After the call, whatever the
    flag [rref], the list [steps_out] and the bound [to_col], and
    whether the call returns or raises, every object of the caller that
    is not the list [steps_out] is as it was, and the rows of the matrix
    at [args] are [A], entry for entry; a matrix that is returned is a
    new object, and so are its rows. *)
Theorem row_reduce_leaves_input (h : heap) (head : string) (args : nat)
    (rref : bool) (steps_loc : option nat) (to_col : option pyval)
    (A : seq (seq scalar)) :
  read_rows h args = Ok A ->
  let run := row_reduce_heap (HExpr head args) rref steps_loc to_col h in
  [/\ frame h run.1, read_rows run.1 args = Ok A
    & forall e, run.2 = Ok e -> fresh_matrix h run.1 e].
Proof.
move=> read_A run.
have [fr fresh] := row_reduce_heap_frame h (HExpr head args) rref steps_loc to_col.
by split=> //; apply: frame_read_rows read_A.
Qed.

Lemma row_reduce_leaves_input_witness :
  let A := [:: [:: 1%:Q; 2%:Q]; [:: 3%:Q; 4%:Q]] in
  let run := row_reduce_heap (HExpr "matrix" 2) true (Some 3%N) None example_heap in
  read_rows example_heap 2 = Ok A /\
  [/\ frame example_heap run.1, read_rows run.1 2 = Ok A
    & forall e, run.2 = Ok e -> fresh_matrix example_heap run.1 e].
Proof.
split; first by vm_compute.
by apply: row_reduce_leaves_input; vm_compute.
Defined.

(** On that heap the call answers a new matrix, the identity, and the
    list at location 3 holds the three steps. *)
Lemma row_reduce_heap_example :
  let run := row_reduce_heap (HExpr "matrix" 2) true (Some 3%N) None example_heap in
  [/\ run.2 = Ok (HExpr "matrix" 7),
      read_rows run.1 7 = Ok [:: [:: 1%:Q; 0%:Q]; [:: 0%:Q; 1%:Q]],
      (load_steps 3 run.1).2
      = Ok [:: StepReplace 2 (- 3%:Q) 1; StepScale (- (1%:Q / 2%:Q)) 2;
               StepReplace 1 (- 2%:Q) 2]
    & row_reduce (Matrix [:: [:: 1%:Q; 2%:Q]; [:: 3%:Q; 4%:Q]]) true (Some [::]) None
      = (Some [:: StepReplace 2 (- 3%:Q) 1; StepScale (- (1%:Q / 2%:Q)) 2;
                  StepReplace 1 (- 2%:Q) 2],
         Ok (Matrix [:: [:: 1%:Q; 0%:Q]; [:: 0%:Q; 1%:Q]]))].
Proof. by split; vm_compute. Qed.

(** ** Row reduction on the heap computes what it computes on values *)

Section Simulation.

Variables (S1 S2 : Type) (R : S1 -> S2 -> Prop).

Lemma sim_ret (T : Type) (v : T) : sim R (ret v) (ret v).
Proof. by []. Qed.

Lemma sim_raise (T : Type) (e : error) : sim R (@raise S1 T e) (raise e).
Proof. by []. Qed.

Lemma sim_lift (T : Type) (r : result T) : sim R (lift r) (lift r).
Proof. by []. Qed.

Lemma sim_bind (T U : Type) (m1 : M S1 T) (m2 : M S2 T)
    (f1 : T -> M S1 U) (f2 : T -> M S2 U) :
  sim R m1 m2 -> (forall v, sim R (f1 v) (f2 v)) ->
  sim R (bindM m1 f1) (bindM m2 f2).
Proof.
move=> m_ok f_ok s1 s2 Rs; rewrite /bindM.
have := m_ok s1 s2 Rs; case: (m1 s1) => s1' r1; case: (m2 s2) => s2' r2 /=.
by case=> Rs' ->; case: r2 => [v|e] //; apply: f_ok.
Qed.

Lemma sim_if (T : Type) (b : bool) (m1 m1' : M S1 T) (m2 m2' : M S2 T) :
  sim R m1 m2 -> sim R m1' m2' ->
  sim R (if b then m1 else m1') (if b then m2 else m2').
Proof. by case: b. Qed.

Lemma sim_forM (A : Type) (xs : seq A) (body1 : A -> M S1 unit)
    (body2 : A -> M S2 unit) :
  (forall x, sim R (body1 x) (body2 x)) -> sim R (forM xs body1) (forM xs body2).
Proof.
move=> body_ok; elim: xs => [|x xs IHxs] //=.
by apply: sim_bind => // _.
Qed.

Lemma sim_for_break (A : Type) (xs : seq A) (body1 : A -> M S1 bool)
    (body2 : A -> M S2 bool) :
  (forall x, sim R (body1 x) (body2 x)) ->
  sim R (for_break xs body1) (for_break xs body2).
Proof.
move=> body_ok; elim: xs => [|x xs IHxs] //=.
by apply: sim_bind => // stop; apply: sim_if.
Qed.

Lemma sim_allM (A : Type) (p1 : A -> M S1 bool) (p2 : A -> M S2 bool)
    (xs : seq A) :
  (forall x, sim R (p1 x) (p2 x)) -> sim R (allM p1 xs) (allM p2 xs).
Proof.
move=> p_ok; elim: xs => [|x xs IHxs] //=.
by apply: sim_bind => // b; apply: sim_if.
Qed.

End Simulation.

Ltac sims :=
  repeat match goal with
  | |- sim _ (ret _) (ret _) => exact: sim_ret
  | |- sim _ (raise _) (raise _) => exact: sim_raise
  | |- sim _ (lift _) (lift _) => exact: sim_lift
  | |- sim _ (bindM _ _) (bindM _ _) => apply: sim_bind => [|?]
  | |- sim _ (if _ then _ else _) (if _ then _ else _) => apply: sim_if
  | |- sim _ (forM _ _) (forM _ _) => apply: sim_forM => ?
  | |- sim _ (for_break _ _) (for_break _ _) => apply: sim_for_break => ?
  | |- sim _ (allM _ _) (allM _ _) => apply: sim_allM => ?
  | |- _ => solve [eauto 1 with nocore]
  end.

Section LoopsSimulation.

Variables (S1 S2 : Type) (R : S1 -> S2 -> Prop).
Variables (wc1 : working_copy S1) (wc2 : working_copy S2).
Hypothesis get_ok : forall i k, sim R (wc_get wc1 i k) (wc_get wc2 i k).
Hypothesis set_ok : forall i k v, sim R (wc_set wc1 i k v) (wc_set wc2 i k v).
Hypothesis swap_ok : forall i j, sim R (wc_swap wc1 i j) (wc_swap wc2 i j).
Hypothesis append_ok : forall s, sim R (wc_append wc1 s) (wc_append wc2 s).

Variables (rows cols : nat) (to_col : Z).

Lemma sim_swap (i j : nat) : sim R (swap wc1 i j) (swap wc2 i j).
Proof. by rewrite /swap; sims. Qed.

Lemma sim_scale (i : nat) (c : scalar) : sim R (scale wc1 cols i c) (scale wc2 cols i c).
Proof. by rewrite /scale; sims. Qed.

Lemma sim_replace (i j : nat) (c : scalar) :
  sim R (replace wc1 cols i j c) (replace wc2 cols i j c).
Proof. by rewrite /replace; sims. Qed.

Lemma sim_is_zero (i : nat) : sim R (is_zero wc1 cols i) (is_zero wc2 cols i).
Proof. by rewrite /is_zero; sims. Qed.

Lemma sim_skip_zero_rows (fuel : nat) (last_nz : Z) :
  sim R (skip_zero_rows wc1 cols fuel last_nz) (skip_zero_rows wc2 cols fuel last_nz).
Proof.
elim: fuel last_nz => [|fuel IHfuel] last_nz /=; first exact: sim_raise.
have zero_ok := sim_is_zero.
by sims.
Qed.

Lemma sim_forward (fuel i j : nat) (last_nz : Z) :
  sim R (forward wc1 rows cols to_col fuel i j last_nz)
        (forward wc2 rows cols to_col fuel i j last_nz).
Proof.
elim: fuel i j last_nz => [|fuel IHfuel] i j last_nz /=; first exact: sim_raise.
have zero_ok := sim_is_zero.
have swp_ok := sim_swap.
have scl_ok := sim_scale.
have rep_ok := sim_replace.
by sims.
Qed.

Lemma sim_backward (last_nz : Z) :
  sim R (backward wc1 cols to_col last_nz) (backward wc2 cols to_col last_nz).
Proof.
have rep_ok := sim_replace.
by rewrite /backward; sims.
Qed.

Lemma sim_row_reduce_loops (rref : bool) :
  sim R (row_reduce_loops wc1 rows cols to_col rref)
        (row_reduce_loops wc2 rows cols to_col rref).
Proof.
have skip_ok := sim_skip_zero_rows.
have fwd_ok := sim_forward.
have bwd_ok := sim_backward.
by rewrite /row_reduce_loops; sims.
Qed.

End LoopsSimulation.

Lemma getitem_set_nth (T : Type) (x0 : T) (xs : seq T) (i l : nat) (x : T) :
  (i < size xs)%N ->
  getitem (set_nth x0 xs i x) l = if l == i then Ok x else getitem xs l.
Proof.
move=> lt_i; have sz : size (set_nth x0 xs i x) = size xs.
  by rewrite size_set_nth (maxn_idPr lt_i).
case: (ltnP l (size xs)) => [lt_l | le_l].
  by rewrite !(getitem_nth x0) ?sz // nth_set_nth /=; case: eqP.
rewrite !getitem_out ?sz //; case: eqP => // eq_l.
by rewrite eq_l leqNgt lt_i in le_l.
Qed.

Lemma getitem_lt (T : Type) (xs : seq T) (i : nat) (x : T) :
  getitem xs i = Ok x -> (i < size xs)%N.
Proof. by case: ltnP => // le_i; rewrite getitem_out. Qed.

Lemma load_refs_some (h : heap) (l : nat) (refs : seq nat) :
  getitem h l = Ok (ORefs refs) -> load_refs l h = (h, Ok refs).
Proof. by rewrite /load_refs => ->. Qed.

Lemma load_row_some (h : heap) (l : nat) (vs : seq scalar) :
  getitem h l = Ok (ORow vs) -> load_row l h = (h, Ok vs).
Proof. by rewrite /load_row => ->. Qed.

Lemma load_steps_some (h : heap) (l : nat) (log : seq step) :
  getitem h l = Ok (OSteps log) -> load_steps l h = (h, Ok log).
Proof. by rewrite /load_steps => ->. Qed.

Lemma store_row_some (h : heap) (l : nat) (vs0 vs : seq scalar) :
  getitem h l = Ok (ORow vs0) ->
  store_row l vs h = (set_nth (ORow [::]) h l (ORow vs), Ok tt).
Proof. by rewrite /store_row /bindM /load_row => ->. Qed.

Lemma store_refs_some (h : heap) (l : nat) (refs0 refs : seq nat) :
  getitem h l = Ok (ORefs refs0) ->
  store_refs l refs h = (set_nth (ORow [::]) h l (ORefs refs), Ok tt).
Proof. by rewrite /store_refs /bindM /load_refs => ->. Qed.

Lemma store_steps_some (h : heap) (l : nat) (log0 log : seq step) :
  getitem h l = Ok (OSteps log0) ->
  store_steps l log h = (set_nth (ORow [::]) h l (OSteps log), Ok tt).
Proof. by rewrite /store_steps /bindM /load_steps => ->. Qed.

Lemma steps_rep_set (steps_loc : option nat) (steps : option (seq step))
    (h : heap) (l : nat) (o : obj) :
  (l < size h)%N -> ~~ is_steps (nth (ORow [::]) h l) ->
  steps_rep steps_loc steps h ->
  steps_rep steps_loc steps (set_nth (ORow [::]) h l o).
Proof.
move=> lt_l kind; case: steps_loc steps => [sl|] [log|] //=.
rewrite getitem_set_nth //; case: eqP => // -> get_l.
by have [_ nth_l] := getitem_some (ORow [::]) get_l; rewrite nth_l in kind.
Qed.

Lemma nth_swap (T : Type) (x0 : T) (s : seq T) (i j t : nat) :
  nth x0 (set_nth x0 (set_nth x0 s i (nth x0 s j)) j (nth x0 s i)) t
  = nth x0 s (if t == j then i else if t == i then j else t).
Proof. by rewrite nth_set_nth /= nth_set_nth /=; case: (t == j); case: (t == i). Qed.

Lemma swap_index_inj (i j t u : nat) :
  (if t == j then i else if t == i then j else t)
  = (if u == j then i else if u == i then j else u) -> t = u.
Proof. by do 4?[case: eqP => ?]; lia. Qed.

Lemma swap_index_lt (n i j t : nat) :
  (i < n)%N -> (j < n)%N -> (t < n)%N ->
  ((if t == j then i else if t == i then j else t) < n)%N.
Proof. by move=> lt_i lt_j lt_t; do 2?[case: ifP => _]. Qed.

Section HeapSimulation.

Variables (mat_loc : nat) (steps_loc : option nat).

Local Notation R := (rep mat_loc steps_loc).
Local Notation d := (ORow [::]).

Lemma heap_get_sim (i k : nat) : sim R (mat_get i k) (heap_get mat_loc i k).
Proof.
move=> st h Rst; have [[refs [get_mat uq sz rows_ok]] st_ok] := Rst.
rewrite /mat_get /heap_get (bindM_ok _ (load_refs_some get_mat)) /bindM /lift /=.
case: (ltnP i (size refs)) => [lt_i | le_i]; last first.
  by rewrite !getitem_out -?sz.
rewrite (getitem_nth 0%N lt_i) (getitem_nth [::]) -?sz //.
by rewrite (load_row_some (rows_ok _ lt_i)).
Qed.

Lemma heap_set_sim (i k : nat) (v : scalar) :
  sim R (mat_set i k v) (heap_set mat_loc i k v).
Proof.
move=> st h Rst; have [[refs [get_mat uq sz rows_ok]] st_ok] := Rst.
rewrite /mat_set /heap_set (bindM_ok _ (load_refs_some get_mat)) /bindM /lift /=.
case: (ltnP i (size refs)) => [lt_i | le_i]; last first.
  by rewrite !getitem_out -?sz.
have lt_i' : (i < size (mat st))%N by rewrite -sz.
rewrite (getitem_nth 0%N lt_i) (getitem_nth [::]) //.
rewrite (load_row_some (rows_ok _ lt_i)) bind_ok.
case set_k: (setitem _ k v) => [row'|e] //=.
rewrite (setitem_set_nth [::]) // (store_row_some _ (rows_ok _ lt_i)) /=.
have lt_r := getitem_lt (rows_ok _ lt_i).
have [_ nth_r] := getitem_some d (rows_ok _ lt_i).
split=> //; split; last by apply: steps_rep_set => //; rewrite nth_r.
exists refs; split=> //.
- rewrite getitem_set_nth //; case: eqP => // eq_r.
  by rewrite eq_r (rows_ok _ lt_i) in get_mat.
- by rewrite size_set_nth (maxn_idPr lt_i').
- move=> t lt_t; rewrite getitem_set_nth // nth_set_nth /= nth_uniq //.
  by case: eqP => // _; apply: rows_ok.
Qed.

Lemma heap_swap_sim (i j : nat) : sim R (mat_swap i j) (heap_swap mat_loc i j).
Proof.
move=> st h Rst; have [[refs [get_mat uq sz rows_ok]] st_ok] := Rst.
case: (ltnP j (size refs)) => [lt_j | le_j]; last first.
  rewrite /mat_swap /heap_swap (bindM_ok _ (load_refs_some get_mat)) /bindM /lift.
  by rewrite (@getitem_out _ refs j) // (@getitem_out _ (mat st) j) -?sz.
have lt_j' : (j < size (mat st))%N by rewrite -sz.
case: (ltnP i (size refs)) => [lt_i | le_i]; last first.
  rewrite /mat_swap /heap_swap (bindM_ok _ (load_refs_some get_mat)) /bindM /lift.
  rewrite (getitem_nth 0%N lt_j) (getitem_nth [::]) // bind_ok.
  by rewrite (@getitem_out _ refs i) // (@getitem_out _ (mat st) i) -?sz.
have lt_i' : (i < size (mat st))%N by rewrite -sz.
pose m1 := set_nth [::] (mat st) i (nth [::] (mat st) j).
pose m2 := set_nth [::] m1 j (nth [::] (mat st) i).
pose refs1 := set_nth 0%N refs i (nth 0%N refs j).
pose refs2 := set_nth 0%N refs1 j (nth 0%N refs i).
pose h1 := set_nth d h mat_loc (ORefs refs1).
pose h2 := set_nth d h1 mat_loc (ORefs refs2).
have lt_j1 : (j < size m1)%N by rewrite size_set_nth (maxn_idPr lt_i').
have lt_j2 : (j < size refs1)%N by rewrite size_set_nth (maxn_idPr lt_i).
have lt_mat := getitem_lt get_mat.
have [_ nth_mat] := getitem_some d get_mat.
have get_mat1 : getitem h1 mat_loc = Ok (ORefs refs1).
  by rewrite getitem_set_nth // eqxx.
have lt_mat1 := getitem_lt get_mat1.
have -> : mat_swap i j st = (RRState m2 (steps_out st), Ok tt).
  rewrite /mat_swap (getitem_nth [::] lt_j') (getitem_nth [::] lt_i') !bind_ok.
  by rewrite (setitem_set_nth [::]) // bind_ok (setitem_set_nth [::]).
have -> : heap_swap mat_loc i j h = (h2, Ok tt).
  rewrite /heap_swap (bindM_ok _ (load_refs_some get_mat)) /bindM /lift.
  rewrite (getitem_nth 0%N lt_j) (getitem_nth 0%N lt_i) (setitem_set_nth 0%N) //.
  rewrite (store_refs_some _ get_mat) (load_refs_some get_mat1).
  by rewrite (setitem_set_nth 0%N) // (store_refs_some _ get_mat1).
have not_mat t : (t < size refs)%N -> nth 0%N refs t != mat_loc.
  move=> lt_t; apply/eqP => eq_t.
  by have := rows_ok _ lt_t; rewrite eq_t get_mat.
split=> //; split; last first.
  apply: steps_rep_set => //; first by rewrite (getitem_some d get_mat1).2.
  by apply: steps_rep_set => //; rewrite nth_mat.
exists refs2; split.
- by rewrite getitem_set_nth // eqxx.
- apply/(uniqP 0%N) => t u; rewrite !inE !size_set_nth.
  rewrite (maxn_idPr lt_i) (maxn_idPr lt_j) => lt_t lt_u.
  rewrite !nth_swap => /eqP; rewrite nth_uniq ?swap_index_lt // => /eqP.
  exact: swap_index_inj.
- by rewrite !size_set_nth (maxn_idPr lt_i) (maxn_idPr lt_j) (maxn_idPr lt_i')
             (maxn_idPr lt_j').
- move=> t; rewrite !size_set_nth (maxn_idPr lt_i) (maxn_idPr lt_j) => lt_t.
  rewrite !nth_swap; have lt_sw := swap_index_lt lt_i lt_j lt_t.
  rewrite !getitem_set_nth // (negbTE (not_mat _ lt_sw)).
  exact: rows_ok.
Qed.

Lemma heap_append_sim (s : step) :
  sim R (steps_append s) (heap_append steps_loc s).
Proof.
move=> st h Rst; have [[refs [get_mat uq sz rows_ok]] st_ok] := Rst.
rewrite /steps_append /heap_append; move: st_ok Rst.
case: steps_loc => [l|]; case: (steps_out st) => [log|] //= get_l Rst; last first.
  by split=> //; split=> //; exists refs.
rewrite (bindM_ok _ (load_steps_some get_l)) (store_steps_some _ get_l) /=.
have lt_l := getitem_lt get_l.
split=> //; split=> /=; last by rewrite getitem_set_nth // eqxx.
exists refs; split=> //.
- rewrite getitem_set_nth //; case: eqP => // eq_l.
  by rewrite eq_l get_l in get_mat.
- move=> t lt_t; rewrite getitem_set_nth //; case: eqP => [eq_l|_]; last exact: rows_ok.
  by have := rows_ok _ lt_t; rewrite eq_l get_l.
Qed.

Lemma row_reduce_loops_sim (rows cols : nat) (to_col : Z) (rref : bool) :
  sim R (row_reduce_loops value_copy rows cols to_col rref)
        (row_reduce_loops (heap_copy mat_loc steps_loc) rows cols to_col rref).
Proof.
apply: sim_row_reduce_loops.
- exact: heap_get_sim.
- exact: heap_set_sim.
- exact: heap_swap_sim.
- exact: heap_append_sim.
Qed.

End HeapSimulation.

Lemma map_r_size (A B : Type) (f : A -> result B) (xs : seq A) (ys : seq B) :
  map_r f xs = Ok ys -> size ys = size xs.
Proof.
elim: xs ys => [|x xs IHxs] ys /=; first by case=> <-.
case: (f x) => [y|e] //=; case: (map_r f xs) IHxs => [zs|e] //= IHxs [<-] /=.
by rewrite (IHxs zs).
Qed.

Lemma load_refs_run (h : heap) (l : nat) (refs : seq nat) :
  (load_refs l h).2 = Ok refs -> getitem h l = Ok (ORefs refs).
Proof. by rewrite /load_refs; case: getitem => [[vs|rs|log]|e] //= [->]. Qed.

Lemma load_row_run (h : heap) (l : nat) (vs : seq scalar) :
  (load_row l h).2 = Ok vs -> getitem h l = Ok (ORow vs).
Proof. by rewrite /load_row; case: getitem => [[vs0|rs|log]|e] //= [->]. Qed.

Lemma getitem_cat_some (T : Type) (xs ys : seq T) (i : nat) (x : T) :
  getitem xs i = Ok x -> getitem (xs ++ ys) i = Ok x.
Proof. by move=> get_i; rewrite getitem_cat_l // (getitem_lt get_i). Qed.

Lemma steps_rep_cat (steps_loc : option nat) (steps : option (seq step))
    (h t : heap) :
  steps_rep steps_loc steps h -> steps_rep steps_loc steps (h ++ t).
Proof. by case: steps_loc steps => [l|] [log|] //=; apply: getitem_cat_some. Qed.

(** The copy of the rows: one new row for each row of the matrix,
    whether or not two rows of the matrix are the same object. *)
Lemma copy_rows_run (h : heap) (refs : seq nat) (A : seq (seq scalar))
    (t : seq obj) :
  map_r (fun r => (load_row r h).2) refs = Ok A ->
  mapM (fun r => Do vs := load_row r in alloc (ORow [seq v | v <- vs])) refs
       (h ++ t)
  = (h ++ t ++ [seq ORow [seq v | v <- row] | row <- A],
     Ok (iota (size h + size t) (size refs))).
Proof.
elim: refs A t => [|r refs IHrefs] A t /=; first by case=> <-; rewrite cats0.
case load_r: (load_row r h).2 => [vs|e] //=.
case map_rest: (map_r _ refs) => [B|e] //= -[<-].
have get_r := getitem_cat_some t (load_row_run load_r).
rewrite (bindM_ok _ (bindM_ok _ (load_row_some get_r))) /alloc.
rewrite -cats1 -catA (bindM_ok _ (IHrefs _ _ map_rest)) /ret /=.
by rewrite !size_cat /= addn1 addnS -!catA.
Qed.

Section FinalMatrix.

Variables (mat_loc : nat) (steps_loc : option nat).

Lemma sizes_run (h : heap) (refs : seq nat) (m : seq (seq scalar)) :
  size refs = size m ->
  (forall t, (t < size refs)%N ->
     getitem h (nth 0%N refs t) = Ok (ORow (nth [::] m t))) ->
  mapM (fun r => Do vs := load_row r in ret (size vs)) refs h
  = (h, Ok [seq size row | row <- m])
  /\ map_r (fun r => (load_row r h).2) refs = Ok m.
Proof.
elim: refs m => [|r refs IHrefs] [|row m] //= [sz] rows_ok.
have get_r := rows_ok 0%N (ltn0Sn _).
have [|run_rest ->] := IHrefs m sz; first by move=> t lt_t; apply: (rows_ok t.+1).
rewrite (bindM_ok _ (bindM_ok _ (load_row_some get_r))) /ret /=.
by rewrite (bindM_ok _ run_rest) (load_row_some get_r).
Qed.

Lemma matrix_heap_sim (st : rr_state) (h : heap) :
  rep mat_loc steps_loc st h ->
  let run := (Do refs := load_refs mat_loc in matrix_heap refs) h in
  steps_rep steps_loc (steps_out st) run.1
  /\ (Let e := run.2 in expr_of run.1 e) = matrix (mat st).
Proof.
case=> -[refs [get_mat uq sz rows_ok]] st_ok.
rewrite (bindM_ok _ (load_refs_some get_mat)) /matrix_heap /matrix sz.
case: ifP => // _.
have [run_sizes read_m] := sizes_run sz rows_ok.
rewrite (bindM_ok _ run_sizes) has_map.
have -> : nth 0%N [seq size row | row <- mat st] 0 = size (nth [::] (mat st) 0).
  by case: (mat st).
rewrite (@eq_has _ (preim _ _) (fun row => size row != size (nth [::] (mat st) 0))) //.
case: ifP => // _; rewrite /bindM /alloc /ret /= /read_rows.
split; first by rewrite -cats1; apply: steps_rep_cat.
rewrite /load_refs -cats1 getitem_cat_cons bind_ok.
have -> : map_r (fun r => (load_row r (h ++ [:: ORefs refs])).2) refs = Ok (mat st).
  have [] := @sizes_run (h ++ [:: ORefs refs]) refs (mat st) sz => // t lt_t.
  exact: getitem_cat_some (rows_ok _ lt_t).
by [].
Qed.

End FinalMatrix.

Lemma bindM_raise (S T U : Type) (m : M S T) (f : T -> M S U) (s s' : S)
    (e : error) :
  m s = (s', Raise e) -> bindM m f s = (s', Raise e).
Proof. by rewrite /bindM => ->. Qed.

Lemma bindM_lift (S T U : Type) (r : result T) (f : T -> M S U) (s : S) :
  bindM (lift r) f s = match r with Ok v => f v s | Raise e => (s, Raise e) end.
Proof. by []. Qed.

(** The call on the heap answers the matrix that [row_reduce] answers on
    the rows [A] of its argument, or raises the same exception, and the
    list [steps_out] holds the same trace. *)
Lemma row_reduce_heap_refines (h : heap) (args : nat) (A : seq (seq scalar))
    (rref : bool) (steps_loc : option nat) (steps : option (seq step))
    (to_col : option pyval) :
  read_rows h args = Ok A -> steps_rep steps_loc steps h ->
  let run := row_reduce_heap (HExpr "matrix" args) rref steps_loc to_col h in
  let val := row_reduce (Matrix A) rref steps to_col in
  steps_rep steps_loc val.1 run.1 /\ (Let e := run.2 in expr_of run.1 e) = val.2.
Proof.
rewrite /read_rows; case load: (load_refs args h).2 => [refs0|e] //= read_A st_h.
have sz0 := map_r_size read_A.
have := copy_rows_run [::] read_A; rewrite cats0 addn0 => run_copy.
pose A' := [seq [seq v | v <- row] | row <- A].
pose objs := [seq ORow [seq v | v <- row] | row <- A].
pose new_refs := iota (size h) (size refs0).
pose mat_loc := size (h ++ objs).
pose h3 := rcons (h ++ objs) (ORefs new_refs).
pose st0 := RRState A' steps.
have sz_objs : size objs = size refs0 by rewrite size_map.
have sz_new : size new_refs = size A' by rewrite size_iota size_map.
have st_h3 : steps_rep steps_loc steps h3.
  by rewrite /h3 -cats1 -catA; apply: steps_rep_cat.
have rows0 t : (t < size refs0)%N ->
    getitem h3 (nth 0%N new_refs t) = Ok (ORow (nth [::] A' t)).
  move=> lt_t.
  rewrite nth_iota // /h3 -cats1 -catA getitem_cat_r getitem_cat_l ?sz_objs //.
  rewrite (getitem_nth (ORow [::])) ?sz_objs // (nth_map [::]) ?sz0 //=.
  by rewrite (nth_map [::]) ?sz0.
have rep0 : rep mat_loc steps_loc st0 h3.
  split=> //; exists new_refs; split=> //.
  - by rewrite /h3 -cats1 getitem_cat_cons.
  - exact: iota_uniq.
  - by move=> t; rewrite size_iota; apply: rows0.
rewrite (bindM_ok _ (load_refs_some (load_refs_run load))) (bindM_ok _ run_copy).
rewrite (bindM_ok _ (erefl : alloc (ORefs new_refs) (h ++ objs) = (h3, Ok mat_loc))).
rewrite -/A' -/st0 -/new_refs !bindM_lift.
case: (ltnP 0 (size refs0)) => [lt_0 | le_0]; last first.
  by rewrite (@getitem_out _ new_refs) ?size_iota // (@getitem_out _ A') ?size_map ?sz0.
rewrite (getitem_nth 0%N) ?size_iota // (getitem_nth [::]) ?size_map ?sz0 //.
rewrite (bindM_ok _ (load_row_some (rows0 _ lt_0))) !bindM_lift.
case: (check_to_col _ to_col) => [tc|e] //.
have := @row_reduce_loops_sim mat_loc steps_loc (size refs0)
  (size (nth [::] A' 0)) tc rref _ _ rep0.
case run_v: (row_reduce_loops value_copy _ _ _ _ st0) => [st4 [[]|e]];
  case run_h: (row_reduce_loops _ _ _ _ _ h3) => [h4 [[]|e']] [] //= R4 eq_r.
  rewrite (bindM_ok _ run_v) (bindM_ok _ run_h).
  exact: matrix_heap_sim R4.
rewrite (bindM_raise _ run_v) (bindM_raise _ run_h) /=.
by case: R4 eq_r => _ st4_ok [->].
Qed.

(** * The other functions of the module: properties *)

(** ** Columns and transposition *)

Lemma foldr_minn_sizes (c : nat) (args : seq (seq scalar)) :
  all (fun row => size row == c) args ->
  foldr minn c [seq size r | r <- args] = c.
Proof.
by elim: args => //= row args IH /andP [/eqP -> /IH ->]; rewrite minnn.
Qed.

Lemma zip_rows_shape (r c : nat) (args : seq (seq scalar)) :
  (0 < r)%N -> is_shape r c args ->
  zip_rows args = rows_of c r (fun j i => entry args i j).
Proof.
move=> r_gt0 sh; have sz := shape_size sh.
case: args sh sz r_gt0 => [|row0 args] sh sz; first by rewrite -sz.
move=> _; rewrite /zip_rows.
have all_c : all (fun row => size row == c) (row0 :: args).
  by case/andP: sh.
have -> : size row0 = c by case/andP: all_c => /eqP.
rewrite (foldr_minn_sizes all_c) /rows_of /mkseq.
apply: eq_map => j; apply: (@eq_from_nth _ 0); rewrite !size_map ?size_iota //.
move=> i lt_i; rewrite (nth_map [::]) // (nth_map 0%N) ?size_iota -?sz //.
by rewrite nth_iota -?sz.
Qed.

Lemma transpose_ok (r c : nat) (args : seq (seq scalar)) :
  (0 < r)%N -> (0 < c)%N -> is_shape r c args ->
  transpose (Matrix args)
  = Ok (Matrix (rows_of c r (fun j i => entry args i j))).
Proof.
move=> r_gt0 c_gt0 sh; rewrite /transpose (zip_rows_shape r_gt0 sh).
exact: matrix_ok c_gt0 (rows_of_shape _ _ _).
Qed.

(** X1: [transpose(A)] holds at [(j, i)] the entry of [A] at [(i, j)];
    transposing twice gives the matrix back, and a matrix with rows but
    no column cannot be transposed. *)
Theorem transpose_involutive (r c : nat) (A : seq (seq scalar)) :
  (0 < r)%N -> is_shape r c A ->
  if (0 < c)%N then
    exists2 T, transpose (Matrix A) = Ok (Matrix T)
             & [/\ is_shape c r T,
                   forall i j, (i < r)%N -> (j < c)%N ->
                     entry T j i = entry A i j
                 & transpose (Matrix T) = Ok (Matrix A)]
  else transpose (Matrix A) = Raise ValueError.
Proof.
move=> r_gt0 sh; case: ltnP => [c_gt0 | ]; last first.
  rewrite leqn0 => /eqP c0; rewrite /transpose (zip_rows_shape r_gt0 sh) c0.
  by [].
exists (rows_of c r (fun j i => entry A i j)); first exact: transpose_ok.
split; first exact: rows_of_shape.
  by move=> i j lt_i lt_j; rewrite entry_rows_of.
rewrite (transpose_ok c_gt0 r_gt0 (rows_of_shape _ _ _)).
congr (Ok (Matrix _)); rewrite [RHS](rows_of_entry sh).
by apply: eq_rows_of => s t lt_s lt_t; rewrite entry_rows_of.
Qed.

Lemma transpose_involutive_witness :
  exists2 T,
    transpose (Matrix [:: [:: 1%:Q; 2%:Q; 5%:Q]; [:: 3%:Q; 4%:Q; 6%:Q]])
    = Ok (Matrix T)
    & entry T 2 0 = 5%:Q
      /\ transpose (Matrix T)
         = Ok (Matrix [:: [:: 1%:Q; 2%:Q; 5%:Q]; [:: 3%:Q; 4%:Q; 6%:Q]]).
Proof.
have /= [T tr_A [_ entries tr_T]] := @transpose_involutive 2 3
  [:: [:: 1%:Q; 2%:Q; 5%:Q]; [:: 3%:Q; 4%:Q; 6%:Q]] isT isT.
by exists T => //; split=> //; rewrite (entries 0%N 2%N).
Defined.

Lemma all_r_nrows (r : nat) (T : seq (seq scalar)) :
  all (fun col => size col == r) T ->
  all_r (fun e => Let k := nrows e in Ok (r == k))
        [seq Matrix (column_of col) | col <- T] = Ok true.
Proof.
elim: T => //= col T IH /andP [/eqP sz_col /IH ->].
by rewrite /column_of size_map sz_col eqxx.
Qed.

Lemma map_r_vector (r : nat) (T : seq (seq scalar)) :
  (0 < r)%N -> all (fun col => size col == r) T ->
  map_r vector T = Ok [seq Matrix (column_of col) | col <- T].
Proof.
move=> r_gt0; elim: T => //= col T IH /andP [/eqP sz_col /IH ->].
by rewrite /vector sz_col eqn0Ngt r_gt0.
Qed.

Lemma flatten_singletons (T U : Type) (f : T -> U) (xs : seq T) :
  flatten [seq [:: f x] | x <- xs] = [seq f x | x <- xs].
Proof. by elim: xs => //= x xs ->. Qed.

(** The columns [T], each a column vector, side by side. *)
Lemma matrix_with_cols_columns (r c : nat) (T : seq (seq scalar)) :
  (0 < c)%N -> is_shape c r T ->
  matrix_with_cols [seq Matrix (column_of col) | col <- T]
  = Ok (Matrix (rows_of r c (fun i j => entry T j i))).
Proof.
move=> c_gt0 sh; have sz := shape_size sh.
have all_r : all (fun col => size col == r) T by case/andP: sh.
rewrite /matrix_with_cols size_map sz eqn0Ngt c_gt0 /=.
have -> : all is_matrix [seq Matrix (column_of col) | col <- T].
  by rewrite all_map; apply/allP.
rewrite (getitem_nth (Num 0)) ?size_map ?sz // (nth_map [::]) ?sz //=.
rewrite /column_of size_map (shape_row sh c_gt0) (all_r_nrows all_r) /=.
rewrite py_range_nat.
have -> : map_r (fun i =>
             Let parts := map_r (fun cm => getitem (args_of cm) i)
                            [seq Matrix [seq [:: x] | x <- col] | col <- T] in
             Ok (flatten parts)) (iota 0 r)
          = map_r (fun i => Ok [seq nth 0 col i | col <- T]) (iota 0 r).
  apply: eq_map_r_nat => i; rewrite add0n => /andP [_ lt_i].
  rewrite map_r_map.
  have -> : map_r (fun col => getitem (args_of (Matrix [seq [:: x] | x <- col])) i) T
            = map_r (fun col => Ok [:: nth 0 col i]) T.
    elim: (T) all_r => //= col T' IH /andP [/eqP sz_col /IH ->].
    by rewrite (getitem_nth [::]) ?size_map ?sz_col // (nth_map 0) ?sz_col.
  by rewrite map_r_ok /= flatten_singletons.
rewrite map_r_ok; congr (Ok (Matrix _)); rewrite /rows_of /mkseq.
apply: eq_map => i; apply: (@eq_from_nth _ 0); rewrite !size_map ?size_iota //.
by rewrite sz => j lt_j; rewrite (nth_map [::]) ?sz // (nth_map 0%N) ?size_iota // nth_iota.
Qed.

(** X2: the docstring identity of [matrix_with_cols]: the columns of a
    matrix, put side by side, give the matrix back.  A matrix with rows
    but no column has no columns to give. *)
Theorem matrix_with_cols_of_cols (r c : nat) (A : seq (seq scalar)) :
  (0 < r)%N -> is_shape r c A ->
  exists2 cs, cols (Matrix A) = Ok cs
    & size cs = c
      /\ matrix_with_cols cs
         = if (0 < c)%N then Ok (Matrix A) else Raise ValueError.
Proof.
move=> r_gt0 sh; rewrite /cols (zip_rows_shape r_gt0 sh).
have shT := rows_of_shape c r (fun j i => entry A i j).
have all_r : all (fun col => size col == r) (rows_of c r (fun j i => entry A i j)).
  by case/andP: shT.
rewrite (map_r_vector r_gt0 all_r).
eexists; first by []; split; first by rewrite size_map (shape_size shT).
case: ltnP => [c_gt0 | ]; last first.
  by rewrite leqn0 => /eqP ->.
rewrite (matrix_with_cols_columns c_gt0 shT); congr (Ok (Matrix _)).
rewrite [RHS](rows_of_entry sh).
by apply: eq_rows_of => s t lt_s lt_t; rewrite entry_rows_of.
Qed.

(** X3: [rows] gives the rows as column vectors, so putting them side by
    side gives the transpose. *)
Theorem matrix_with_cols_of_rows (r c : nat) (A : seq (seq scalar)) :
  (0 < r)%N -> (0 < c)%N -> is_shape r c A ->
  exists2 rs, rows (Matrix A) = Ok rs
    & exists2 T, transpose (Matrix A) = Ok (Matrix T)
               & matrix_with_cols rs = Ok (Matrix T).
Proof.
move=> r_gt0 c_gt0 sh.
have all_c : all (fun row => size row == c) A by case/andP: sh.
rewrite /rows (map_r_vector c_gt0 all_c).
eexists; first by [].
exists (rows_of c r (fun j i => entry A i j)); first exact: transpose_ok.
exact: matrix_with_cols_columns.
Qed.

Lemma matrix_with_cols_of_cols_witness :
  exists2 cs,
    cols (Matrix [:: [:: 1%:Q; 2%:Q; 5%:Q]; [:: 3%:Q; 4%:Q; 6%:Q]]) = Ok cs
    & matrix_with_cols cs
      = Ok (Matrix [:: [:: 1%:Q; 2%:Q; 5%:Q]; [:: 3%:Q; 4%:Q; 6%:Q]]).
Proof.
have [cs cols_A [_ with_cs]] := @matrix_with_cols_of_cols 2 3
  [:: [:: 1%:Q; 2%:Q; 5%:Q]; [:: 3%:Q; 4%:Q; 6%:Q]] isT isT.
by exists cs.
Defined.

Lemma matrix_with_cols_of_rows_witness :
  exists2 rs,
    rows (Matrix [:: [:: 1%:Q; 2%:Q; 5%:Q]; [:: 3%:Q; 4%:Q; 6%:Q]]) = Ok rs
    & exists2 T,
        transpose (Matrix [:: [:: 1%:Q; 2%:Q; 5%:Q]; [:: 3%:Q; 4%:Q; 6%:Q]])
        = Ok (Matrix T)
        & matrix_with_cols rs = Ok (Matrix T).
Proof.
exact: (@matrix_with_cols_of_rows 2 3
  [:: [:: 1%:Q; 2%:Q; 5%:Q]; [:: 3%:Q; 4%:Q; 6%:Q]] isT isT isT).
Defined.

(** ** Vectors *)

Lemma vector_ok (xs : seq scalar) :
  (0 < size xs)%N -> vector xs = Ok (Matrix (column_of xs)).
Proof. by rewrite /vector; case: xs. Qed.

Lemma column_of_entries (r : nat) (A : seq (seq scalar)) :
  is_shape r 1 A -> A = column_of [seq nth 0 row 0 | row <- A].
Proof.
case/andP=> _; rewrite /column_of -map_comp.
elim: A => //= row A IH /andP [sz_row /IH <-].
by case: row sz_row => [|x [|y row]].
Qed.

Lemma map_r_first (A : seq (seq scalar)) :
  all (fun row => size row == 1%N) A ->
  map_r (fun row => getitem row 0) A = Ok [seq nth 0 row 0 | row <- A].
Proof.
elim: A => //= row A IH /andP [sz_row /IH ->].
by case: row sz_row.
Qed.

(** X4: [vector] and [vector_entries] undo each other (the docstring
    relation of [vector_entries]), and [vector_entries] refuses a matrix
    that has not exactly one column. *)
Theorem vector_entries_inverse :
  [/\ forall xs, (0 < size xs)%N ->
        (Let v := vector xs in vector_entries v) = Ok xs,
      forall r A, (0 < r)%N -> is_shape r 1 A ->
        (Let xs := vector_entries (Matrix A) in vector xs) = Ok (Matrix A)
    & forall r c A, (0 < r)%N -> is_shape r c A -> c != 1%N ->
        vector_entries (Matrix A) = Raise ValueError].
Proof.
split=> [xs xs_gt0 | r A r_gt0 sh | r c A r_gt0 sh c_neq1].
- rewrite (vector_ok xs_gt0) /= /vector_entries /is_vector /=.
  case: xs xs_gt0 => //= x xs _; rewrite map_r_map /= map_r_ok /=.
  by rewrite map_id.
- rewrite /vector_entries /is_vector /= (ncols_shape r_gt0 sh) /=.
  have all1 : all (fun row => size row == 1%N) A by case/andP: sh.
  rewrite (map_r_first all1) /= vector_ok ?size_map ?(shape_size sh) //.
  by rewrite -(column_of_entries sh).
- rewrite /vector_entries /is_vector /= (ncols_shape r_gt0 sh) /=.
  by rewrite (negbTE c_neq1).
Qed.

(** ** Standard basis vectors *)

Lemma coord_vec_ok (n k : nat) :
  (1 < n)%N -> (k < n)%N ->
  coord_vec (Z.of_nat n) (Z.of_nat k.+1)
  = Ok (Matrix (column_of [seq (if k == j then 1 else 0) | j <- iota 0 n])).
Proof.
move=> n_gt1 lt_k; rewrite /coord_vec.
case: Z.leb_spec => [le_n|_]; first by nat_lia.
have -> : (1 <=? Z.of_nat k.+1)%Z && (Z.of_nat k.+1 <=? Z.of_nat n)%Z.
  by apply/andP; split; apply/Z.leb_spec0; nat_lia.
have n_gt0 : (0 < n)%N by apply: ltn_trans n_gt1.
rewrite Nat2Z.id irange_nat -map_comp /= vector_ok ?size_map ?size_iota //.
congr (Ok (Matrix (column_of _))); apply: eq_map => j /=.
case: Z.eqb_spec => [eq_kj | neq_kj]; case: eqP => // kj.
- by have : k = j by lia.
- by case: neq_kj; rewrite kj.
Qed.

(** X5: the docstring relation of [coord_vec]: for [n] at least 2 the
    vectors [coord_vec(n, 1)], ..., [coord_vec(n, n)], side by side, are
    the identity matrix.  For [n] at most 1 every call raises
    [ValueError], the one-entry vector [coord_vec(1, 1)] too. *)
Theorem coord_vecs_form_identity (n : nat) :
  if (1 < n)%N then
    exists2 vs, map_r (coord_vec (Z.of_nat n)) (irange n) = Ok vs
              & matrix_with_cols vs = identity_matrix (Z.of_nat n)
  else forall i, coord_vec (Z.of_nat n) i = Raise ValueError.
Proof.
case: ltnP => [n_gt1 | le_n1]; last first.
  move=> i; rewrite /coord_vec; case: Z.leb_spec => // lt_n.
  by nat_lia.
have n_gt0 : (0 < n)%N by apply: ltn_trans n_gt1.
exists [seq Matrix (column_of col) | col <- identity_rows n].
  rewrite irange_nat map_r_map /identity_rows -map_comp -map_r_ok.
  apply: eq_map_r_nat => k; rewrite add0n => /andP [_ lt_k] /=.
  exact: coord_vec_ok.
rewrite (matrix_with_cols_columns n_gt0 (identity_rows_shape n)).
rewrite identity_matrix_ok //; congr (Ok (Matrix _)).
rewrite [RHS](rows_of_entry (identity_rows_shape n)).
apply: eq_rows_of => s t lt_s lt_t.
by rewrite !entry_identity_rows // eq_sym.
Qed.

(** ** Diagonal matrices *)

Lemma diagonal_matrix_ok (ds : seq scalar) :
  (0 < size ds)%N ->
  diagonal_matrix ds
  = Ok (Matrix (rows_of (size ds) (size ds)
                  (fun i j => if i == j then nth 0 ds i else 0))).
Proof.
move=> ds_gt0; rewrite /diagonal_matrix eqn0Ngt ds_gt0 /= py_range_nat.
have -> : map_r (fun i => map_r (fun j => if i == j then getitem ds i else Ok 0)
                            (iota 0 (size ds))) (iota 0 (size ds))
          = map_r (fun i => Ok [seq (if i == j then nth 0 ds i else 0)
                               | j <- iota 0 (size ds)]) (iota 0 (size ds)).
  apply: eq_map_r_nat => i; rewrite add0n => /andP [_ lt_i].
  rewrite -map_r_ok; apply: eq_map_r_nat => j _.
  by case: ifP => // _; rewrite (getitem_nth 0).
rewrite map_r_ok /=.
exact: matrix_ok ds_gt0 (rows_of_shape _ _ _).
Qed.

(** X6: the determinant of a diagonal matrix is the product of its
    diagonal entries. *)
Theorem det_diagonal_matrix (ds : seq scalar) :
  (0 < size ds)%N ->
  (Let D := diagonal_matrix ds in det D) = Ok (\prod_(d <- ds) d).
Proof.
move=> ds_gt0; rewrite (diagonal_matrix_ok ds_gt0) /=.
rewrite -/(det (Matrix _)) (det_square ds_gt0 (rows_of_shape _ _ _)).
rewrite cofactor_expansion_det //; congr (Ok _).
have -> : mx_of (size ds) (size ds)
            (entry (rows_of (size ds) (size ds)
                      (fun i j => if i == j then nth 0 ds i else 0)))
          = diag_mx (\row_i nth 0 ds i).
  apply/matrixP => i j; rewrite !mxE entry_rows_of //.
  by rewrite -val_eqE /=; case: eqP.
rewrite det_diag (big_nth 0) big_mkord.
by apply: eq_bigr => i _; rewrite mxE.
Qed.

Lemma det_diagonal_matrix_witness :
  (Let D := diagonal_matrix [:: 2%:Q; 3%:Q] in det D)
  = Ok (\prod_(d <- [:: 2%:Q; 3%:Q]) d).
Proof. exact: (@det_diagonal_matrix [:: 2%:Q; 3%:Q] isT). Defined.

(** ** Selecting rows and columns *)

Lemma check_bounds_ok (b : nat) (idxs : seq Z) :
  check_bounds (Ok b) idxs
  = if all (in_bounds b) idxs then Ok tt else Raise ValueError.
Proof.
rewrite /check_bounds; elim: idxs => //= i idxs IH.
by rewrite -/(in_bounds b i); case: (in_bounds b i).
Qed.

Lemma in_bounds_lt (b : nat) (i : Z) :
  in_bounds b i -> (Z.to_nat (i - 1) < b)%N.
Proof.
by case/andP=> /Z.leb_spec0 le_1 /Z.leb_spec0 le_b; nat_lia.
Qed.

Lemma map_r_getitem (T : Type) (x0 : T) (xs : seq T) (b : nat) (idxs : seq Z) :
  size xs = b -> all (in_bounds b) idxs ->
  map_r (fun i => getitem xs (Z.to_nat (i - 1))) idxs
  = Ok [seq nth x0 xs (Z.to_nat (i - 1)) | i <- idxs].
Proof.
move=> sz; elim: idxs => //= i idxs IH /andP [in_i /IH ->].
by rewrite (getitem_nth x0) ?sz ?in_bounds_lt.
Qed.

Lemma row_list (r c : nat) (A : seq (seq scalar)) (vs : seq pyval) :
  (0 < r)%N -> is_shape r c A ->
  row (Matrix A) (IdxList vs)
  = if [&& (0 < size vs)%N, all is_PyInt vs
         & all (in_bounds r) [seq int_of v | v <- vs]]
    then Ok (Matrix [seq nth [::] A (Z.to_nat (int_of v - 1)) | v <- vs])
    else Raise ValueError.
Proof.
move=> r_gt0 sh; rewrite /row /=.
case: (all is_PyInt vs); last by rewrite andbF.
rewrite /= (nrows_shape sh) check_bounds_ok.
case in_b: (all _ _); last by rewrite andbF.
rewrite andbT /= (map_r_getitem [::] (shape_size sh) in_b) /= -map_comp.
case: vs in_b => [|v vs] //= /andP [in_v in_vs].
rewrite -/(matrix (_ :: _)).
have /allP all_c : all (fun row => size row == c) A by case/andP: sh.
have sz_nth i : in_bounds r i -> size (nth [::] A (Z.to_nat (i - 1))) == c.
  by move=> in_i; apply/all_c/mem_nth; rewrite (shape_size sh) in_bounds_lt.
apply: (@matrix_ok (size vs).+1 c) => //.
rewrite /is_shape /= size_map eqxx sz_nth //= all_map.
by move: in_vs; rewrite all_map; apply: sub_all => w /=; apply: sz_nth.
Qed.

(** X7: [row(A, idxs)] stacks the rows of [A] that the 1-based indices
    name, in their order and with repetitions; an index outside 1 ..
    nrows, an element that is not an [int] or an empty list of indices
    raises [ValueError]; the list of all indices gives [A] back. *)
Theorem row_selects (r c : nat) (A : seq (seq scalar)) :
  (0 < r)%N -> is_shape r c A ->
  (forall vs,
     row (Matrix A) (IdxList vs)
     = if [&& (0 < size vs)%N, all is_PyInt vs
            & all (in_bounds r) [seq int_of v | v <- vs]]
       then Ok (Matrix [seq nth [::] A (Z.to_nat (int_of v - 1)) | v <- vs])
       else Raise ValueError)
  /\ row (Matrix A) (IdxList [seq PyInt i | i <- irange r]) = Ok (Matrix A).
Proof.
move=> r_gt0 sh; split=> [vs|]; first exact: (row_list _ r_gt0 sh).
rewrite (row_list _ r_gt0 sh) irange_nat -!map_comp.
rewrite size_map size_iota r_gt0.
have -> : all is_PyInt [seq PyInt (Z.of_nat k.+1) | k <- iota 0 r].
  by rewrite all_map; apply/allP.
have -> : all (in_bounds r) [seq (int_of \o (PyInt \o (Z.of_nat \o succn))) k
                            | k <- iota 0 r].
  rewrite all_map; apply/allP => k; rewrite mem_iota add0n /= => lt_k.
  by apply/andP; split; apply/Z.leb_spec0; nat_lia.
congr (Ok (Matrix _)); apply: (@eq_from_nth _ [::]).
  by rewrite size_map size_iota (shape_size sh).
rewrite size_map size_iota => k lt_k.
rewrite (nth_map 0%N) ?size_iota // nth_iota //= add0n.
by congr (nth _ _ _); lia.
Qed.

Lemma row_selects_witness :
  row (Matrix [:: [:: 1%:Q; 2%:Q]; [:: 3%:Q; 4%:Q]])
      (IdxList [:: PyInt 2; PyInt 1; PyInt 2])
  = Ok (Matrix [:: [:: 3%:Q; 4%:Q]; [:: 1%:Q; 2%:Q]; [:: 3%:Q; 4%:Q]])
  /\ row (Matrix [:: [:: 1%:Q; 2%:Q]; [:: 3%:Q; 4%:Q]]) (IdxList [:: PyInt 0])
     = Raise ValueError.
Proof.
have [sel _] := @row_selects 2 2 [:: [:: 1%:Q; 2%:Q]; [:: 3%:Q; 4%:Q]] isT isT.
by split; rewrite sel.
Defined.

Lemma col_list (r c : nat) (A : seq (seq scalar)) (vs : seq pyval) :
  (0 < r)%N -> is_shape r c A ->
  col (Matrix A) (IdxList vs)
  = if all is_PyInt vs && all (in_bounds c) [seq int_of v | v <- vs]
    then Ok (Matrix [seq [seq nth 0 rw (Z.to_nat (int_of v - 1)) | v <- vs]
                    | rw <- A])
    else Raise ValueError.
Proof.
move=> r_gt0 sh; rewrite /col [index_list _]/= bind_ok.
case: (all is_PyInt vs) => //=.
rewrite -/(ncols (Matrix A)) (ncols_shape r_gt0 sh) check_bounds_ok.
case in_b: (all _ _) => //=.
have /allP all_c : all (fun rw => size rw == c) A by case/andP: sh.
have -> : map_r (fun rw => map_r (fun i => getitem rw (Z.to_nat (i - 1)))
                            [seq int_of v | v <- vs]) A
          = map_r (fun rw => Ok [seq nth 0 rw (Z.to_nat (int_of v - 1)) | v <- vs]) A.
  apply: eq_map_r => rw /all_c /eqP sz_rw.
  by rewrite (map_r_getitem 0 sz_rw in_b) -map_comp.
rewrite map_r_ok /=.
apply: (@matrix_ok r (size vs)) => //.
rewrite /is_shape size_map (shape_size sh) eqxx /= all_map.
by apply/allP => rw _ /=; rewrite size_map.
Qed.

(** X8: [col(A, idxs)] puts side by side the columns of [A] that the
    1-based indices name; an index outside 1 .. ncols or an element that
    is not an [int] raises [ValueError].  An empty list of indices is
    accepted, and gives a matrix with the rows of [A] and no column;
    otherwise [col] is [row] on the transpose, transposed back. *)
Theorem col_selects (r c : nat) (A : seq (seq scalar)) :
  (0 < r)%N -> is_shape r c A ->
  [/\ forall vs,
        col (Matrix A) (IdxList vs)
        = if all is_PyInt vs && all (in_bounds c) [seq int_of v | v <- vs]
          then Ok (Matrix [seq [seq nth 0 rw (Z.to_nat (int_of v - 1)) | v <- vs]
                          | rw <- A])
          else Raise ValueError,
      col (Matrix A) (IdxList [::]) = Ok (Matrix (nseq r [::]))
    & forall vs, (0 < size vs)%N ->
        col (Matrix A) (IdxList vs)
        = (Let T := transpose (Matrix A) in
           Let R := row T (IdxList vs) in
           transpose R)].
Proof.
move=> r_gt0 sh; split=> [vs | | vs vs_gt0]; first exact: (col_list _ r_gt0 sh).
- rewrite (col_list _ r_gt0 sh) /=; congr (Ok (Matrix _)).
  apply: (@eq_from_nth _ [::]); first by rewrite size_map size_nseq (shape_size sh).
  move=> i; rewrite size_map => lt_i; rewrite (nth_map [::]) // nth_nseq.
  by rewrite -(shape_size sh) lt_i.
rewrite (col_list _ r_gt0 sh).
case: (ltnP 0 c) => [c_gt0 | ]; last first.
  rewrite leqn0 => /eqP c0; rewrite /transpose (zip_rows_shape r_gt0 sh) c0 /=.
  case: (all is_PyInt vs) => //=.
  case: vs vs_gt0 => //= v vs _.
  by rewrite /in_bounds; case: Z.leb_spec => //; case: Z.leb_spec => //=; lia.
rewrite (transpose_ok r_gt0 c_gt0 sh) bind_ok.
set T := rows_of c r _; have shT : is_shape c r T by apply: rows_of_shape.
rewrite (row_list _ c_gt0 shT) vs_gt0 /=.
case int_vs: (all is_PyInt vs) => //=.
case in_b: (all _ _) => //=.
set R := [seq nth [::] T _ | v <- vs].
have shR : is_shape (size vs) r R.
  apply/is_shapeP; split; first by rewrite size_map.
  move=> i lt_i; rewrite (nth_map (PyInt 0)) //.
  apply: (shape_row shT); apply: in_bounds_lt.
  by move/(all_nthP 0%Z): in_b => /(_ i); rewrite size_map (nth_map (PyInt 0)) //; apply.
rewrite -/(transpose (Matrix R)) (transpose_ok vs_gt0 r_gt0 shR); congr (Ok (Matrix _)).
apply: (@shape_ext r (size vs)); last first.
- move=> i j lt_i lt_j; rewrite entry_rows_of // /entry.
  rewrite (nth_map [::]) ?(shape_size sh) // (nth_map (PyInt 0)) //.
  rewrite (nth_map (PyInt 0)) //.
  have lt_v : (Z.to_nat (int_of (nth (PyInt 0) vs j) - 1) < c)%N.
    apply: in_bounds_lt.
    by move/(all_nthP 0%Z): in_b => /(_ j); rewrite size_map (nth_map (PyInt 0)) //; apply.
  by rewrite -/(entry T _ _) entry_rows_of.
- exact: rows_of_shape.
- apply/is_shapeP; split; first by rewrite size_map (shape_size sh).
  by move=> i lt_i; rewrite (nth_map [::]) ?(shape_size sh) // size_map.
Qed.

Lemma col_selects_witness :
  col (Matrix [:: [:: 1%:Q; 2%:Q; 5%:Q]; [:: 3%:Q; 4%:Q; 6%:Q]])
      (IdxList [:: PyInt 3; PyInt 1])
  = Ok (Matrix [:: [:: 5%:Q; 1%:Q]; [:: 6%:Q; 3%:Q]])
  /\ col (Matrix [:: [:: 1%:Q; 2%:Q; 5%:Q]; [:: 3%:Q; 4%:Q; 6%:Q]]) (IdxList [::])
     = Ok (Matrix [:: [::]; [::]]).
Proof.
have [sel none _] := @col_selects 2 3
  [:: [:: 1%:Q; 2%:Q; 5%:Q]; [:: 3%:Q; 4%:Q; 6%:Q]] isT isT.
by split; [rewrite sel | rewrite none].
Defined.

(** ** Minors and the adjugate *)

Lemma filter_iota_nth (T : Type) (x0 : T) (i : nat) (xs : seq T) (m : nat) :
  [seq jv.2 | jv <- zip (iota m (size xs)) xs & jv.1 != i]
  = [seq nth x0 xs (k - m) | k <- [seq k <- iota m (size xs) | k != i]].
Proof.
elim: xs m => //= x xs IH m.
have tail : [seq nth x0 (x :: xs) (k - m) | k <- [seq k <- iota m.+1 (size xs) | k != i]]
            = [seq nth x0 xs (k - m.+1) | k <- [seq k <- iota m.+1 (size xs) | k != i]].
  apply/eq_in_map => k; rewrite mem_filter mem_iota => /and3P [_ lt_k _].
  by rewrite -[(k - m)%N]/((k.+1 - m.+1)%N) subSn.
by case: ifP => _ /=; rewrite ?subnn IH tail.
Qed.

Lemma without_nth (T : Type) (x0 : T) (i : nat) (xs : seq T) :
  without i xs = [seq nth x0 xs k | k <- [seq k <- iota 0 (size xs) | k != i]].
Proof.
rewrite /without /enumerate (filter_iota_nth x0).
by apply: eq_map => k; rewrite subn0.
Qed.

Lemma minors_sub (n i j : nat) (A : seq (seq scalar)) :
  is_shape n n A ->
  map_r (fun i0 =>
           map_r (fun j0 => Let rw := getitem A i0 in getitem rw j0)
                 [seq j0 <- iota 0 n | j0 != j])
        [seq i0 <- iota 0 n | i0 != i]
  = Ok (minor_rows i j A).
Proof.
move=> sh; have sz := shape_size sh.
have -> : map_r (fun i0 =>
                   map_r (fun j0 => Let rw := getitem A i0 in getitem rw j0)
                         [seq j0 <- iota 0 n | j0 != j])
                [seq i0 <- iota 0 n | i0 != i]
          = map_r (fun i0 => Ok (without j (nth [::] A i0)))
                  [seq i0 <- iota 0 n | i0 != i].
  apply: eq_map_r => i0; rewrite mem_filter mem_iota add0n => /and3P [_ _ lt_i0].
  rewrite (without_nth 0) (shape_row sh lt_i0) -map_r_ok.
  apply: eq_map_r => j0; rewrite mem_filter mem_iota add0n => /and3P [_ _ lt_j0].
  by rewrite (getitem_nth [::]) ?sz // bind_ok (getitem_nth 0) // (shape_row sh).
by rewrite map_r_ok /minor_rows (without_nth [::] i A) sz -map_comp.
Qed.

Lemma minors_ok (n : nat) (A : seq (seq scalar)) :
  is_shape n.+2 n.+2 A ->
  minors (Matrix A)
  = Ok (Matrix (rows_of n.+2 n.+2
                  (fun i j => cofactor_expansion n.+1 (removed i j (entry A))))).
Proof.
move=> sh; rewrite /minors (nrows_shape sh) (ncols_shape (ltn0Sn _) sh) !bind_ok.
rewrite eqxx -[~~ true]/false; lazy beta iota zeta.
have -> : map_r (fun i =>
             map_r (fun j =>
               Let sub := map_r (fun i0 =>
                            map_r (fun j0 => Let rw := getitem A i0 in getitem rw j0)
                                  [seq j0 <- iota 0 n.+2 | j0 != j])
                          [seq i0 <- iota 0 n.+2 | i0 != i] in
               Let m := matrix sub in det m) (iota 0 n.+2)) (iota 0 n.+2)
          = map_r (fun i =>
              Ok [seq cofactor_expansion n.+1 (removed i j (entry A))
                 | j <- iota 0 n.+2]) (iota 0 n.+2).
  apply: eq_map_r_nat => i; rewrite add0n => /andP [_ lt_i].
  rewrite -map_r_ok; apply: eq_map_r_nat => j; rewrite add0n => /andP [_ lt_j].
  by rewrite (minors_sub _ _ sh) bind_ok (det_minor_rows sh).
rewrite map_r_ok bind_ok.
exact: (matrix_ok (ltn0Sn _) (rows_of_shape n.+2 n.+2 _)).
Qed.

(** X9: on a square matrix with two rows or more, entry (i, j) of
    [minors] is the determinant of the matrix without row [i] and column
    [j], and [adj] is the transpose of the matrix of minors with the
    signs [(-1)^(i+j)].  On a 1 by 1 matrix [minors] raises
    [ValueError]. *)
Theorem adj_from_minors (n : nat) (A : seq (seq scalar)) :
  is_shape n.+2 n.+2 A ->
  (exists Mi Ad,
     [/\ minors (Matrix A) = Ok (Matrix Mi),
         adj (Matrix A) = Ok (Matrix Ad),
         is_shape n.+2 n.+2 Mi,
         forall i j, (i < n.+2)%N -> (j < n.+2)%N ->
           (Let m := matrix (minor_rows i j A) in det m) = Ok (entry Mi i j)
       & forall i j, (i < n.+2)%N -> (j < n.+2)%N ->
           entry Ad i j = (-1) ^+ (i + j) * entry Mi j i])
  /\ forall x, minors (Matrix [:: [:: x]]) = Raise ValueError.
Proof.
move=> sh; split=> //.
exists (rows_of n.+2 n.+2
          (fun i j => cofactor_expansion n.+1 (removed i j (entry A)))),
       (adj_rows n.+2 (entry A)).
split.
- exact: minors_ok.
- exact: adj_ok.
- exact: rows_of_shape.
- by move=> i j lt_i lt_j; rewrite (det_minor_rows sh) // entry_rows_of.
- by move=> i j lt_i lt_j; rewrite entry_adj_rows // entry_rows_of.
Qed.

Lemma adj_from_minors_witness :
  exists Mi Ad,
    [/\ minors (Matrix [:: [:: 1%:Q; 2%:Q]; [:: 3%:Q; 4%:Q]]) = Ok (Matrix Mi),
        adj (Matrix [:: [:: 1%:Q; 2%:Q]; [:: 3%:Q; 4%:Q]]) = Ok (Matrix Ad)
      & entry Ad 0 1 = (-1) ^+ (0 + 1) * entry Mi 1 0].
Proof.
have [[Mi [Ad [min_A adj_A _ _ sign]]] _] := @adj_from_minors 0
  [:: [:: 1%:Q; 2%:Q]; [:: 3%:Q; 4%:Q]] isT.
by exists Mi, Ad; split=> //; apply: sign.
Defined.

(** ** The algebra of products, determinants and powers *)

Lemma entry_mx (m n : nat) (X : seq (seq scalar)) (i j : nat)
    (lt_i : (i < m)%N) (lt_j : (j < n)%N) :
  entry X i j = mx_of m n (entry X) (Ordinal lt_i) (Ordinal lt_j).
Proof. by rewrite mxE. Qed.

Lemma mx_of_inj_shape (m n : nat) (X Y : seq (seq scalar)) :
  is_shape m n X -> is_shape m n Y ->
  mx_of m n (entry X) = mx_of m n (entry Y) -> X = Y.
Proof.
move=> shX shY eq_mx; apply: (shape_ext shX shY) => i j lt_i lt_j.
by rewrite (entry_mx _ lt_i lt_j) eq_mx -entry_mx.
Qed.

Lemma det_mx (n : nat) (A : seq (seq scalar)) :
  (0 < n)%N -> is_shape n n A ->
  det (Matrix A) = Ok (\det (mx_of n n (entry A))).
Proof.
by move=> n_gt0 sh; rewrite (det_square n_gt0 sh) cofactor_expansion_det.
Qed.

Lemma mx_of_rows_of (m n : nat) (e : nat -> nat -> scalar) :
  mx_of m n (entry (rows_of m n e)) = mx_of m n e.
Proof. by apply/matrixP => i j; rewrite !mxE entry_rows_of. Qed.

(** X10: the determinant of a product is the product of the determinants,
    and the determinant of the transpose is the determinant. *)
Theorem det_product_transpose (n : nat) (A B : seq (seq scalar)) :
  (0 < n)%N -> is_shape n n A -> is_shape n n B ->
  (Let P := reduce_matmul (Matrix A) (Matrix B) in det P)
  = (Let a := det (Matrix A) in Let b := det (Matrix B) in Ok (a * b))
  /\ (Let T := transpose (Matrix A) in det T) = det (Matrix A).
Proof.
move=> n_gt0 shA shB; split.
  rewrite (reduce_matmul_ok n_gt0 n_gt0 shA shB) bind_ok.
  rewrite (det_mx n_gt0 (matmul_rows_shape _ _ _ _ _)) (det_mx n_gt0 shA).
  rewrite (det_mx n_gt0 shB) !bind_ok.
  by rewrite mx_of_matmul_rows det_mulmx.
rewrite (transpose_ok n_gt0 n_gt0 shA) bind_ok.
rewrite (det_mx n_gt0 (rows_of_shape _ _ _)) (det_mx n_gt0 shA) mx_of_rows_of.
rewrite -[RHS]/(Ok (\det (mx_of n n (entry A)))) -det_tr; congr (Ok (\det _)).
by apply/matrixP => i j; rewrite !mxE.
Qed.

Lemma det_product_transpose_witness :
  (Let P := reduce_matmul (Matrix [:: [:: 1%:Q; 2%:Q]; [:: 3%:Q; 4%:Q]])
                          (Matrix [:: [:: 0; 1%:Q]; [:: 1%:Q; 0]]) in det P)
  = (Let a := det (Matrix [:: [:: 1%:Q; 2%:Q]; [:: 3%:Q; 4%:Q]]) in
     Let b := det (Matrix [:: [:: 0; 1%:Q]; [:: 1%:Q; 0]]) in Ok (a * b)).
Proof.
by have [] := @det_product_transpose 2
  [:: [:: 1%:Q; 2%:Q]; [:: 3%:Q; 4%:Q]] [:: [:: 0; 1%:Q]; [:: 1%:Q; 0]]
  isT isT isT.
Defined.

(** X11: the matrix product is associative, and the identity matrices are
    neutral on both sides. *)
Theorem matmul_monoid (m n p q : nat) (A B C : seq (seq scalar)) :
  (0 < m)%N -> (0 < n)%N -> (0 < p)%N ->
  is_shape m n A -> is_shape n p B -> is_shape p q C ->
  [/\ (Let AB := reduce_matmul (Matrix A) (Matrix B) in
       reduce_matmul AB (Matrix C))
      = (Let BC := reduce_matmul (Matrix B) (Matrix C) in
         reduce_matmul (Matrix A) BC),
      (Let I := identity_matrix (Z.of_nat n) in reduce_matmul (Matrix A) I)
      = Ok (Matrix A)
    & (Let I := identity_matrix (Z.of_nat m) in reduce_matmul I (Matrix A))
      = Ok (Matrix A)].
Proof.
move=> m_gt0 n_gt0 p_gt0 shA shB shC; split.
- rewrite (reduce_matmul_ok m_gt0 n_gt0 shA shB) bind_ok.
  rewrite (reduce_matmul_ok n_gt0 p_gt0 shB shC) bind_ok.
  rewrite (reduce_matmul_ok m_gt0 p_gt0 (matmul_rows_shape _ _ _ _ _) shC).
  rewrite (reduce_matmul_ok m_gt0 n_gt0 shA (matmul_rows_shape _ _ _ _ _)).
  congr (Ok (Matrix _)).
  apply: (@mx_of_inj_shape m q); try exact: matmul_rows_shape.
  by rewrite !mx_of_matmul_rows mulmxA.
- rewrite identity_matrix_ok // bind_ok.
  rewrite (reduce_matmul_ok m_gt0 n_gt0 shA (identity_rows_shape n)).
  congr (Ok (Matrix _)).
  apply: (@mx_of_inj_shape m n) => //; first exact: matmul_rows_shape.
  by rewrite mx_of_matmul_rows mx_of_identity_rows mulmx1.
- rewrite identity_matrix_ok // bind_ok.
  rewrite (reduce_matmul_ok m_gt0 m_gt0 (identity_rows_shape m) shA).
  congr (Ok (Matrix _)).
  apply: (@mx_of_inj_shape m n) => //; first exact: matmul_rows_shape.
  by rewrite mx_of_matmul_rows mx_of_identity_rows mul1mx.
Qed.

Lemma matmul_monoid_witness :
  (Let I := identity_matrix (Z.of_nat 2) in
   reduce_matmul (Matrix [:: [:: 1%:Q; 2%:Q]; [:: 3%:Q; 4%:Q]]) I)
  = Ok (Matrix [:: [:: 1%:Q; 2%:Q]; [:: 3%:Q; 4%:Q]]).
Proof.
by have [] := @matmul_monoid 2 2 2 2
  [:: [:: 1%:Q; 2%:Q]; [:: 3%:Q; 4%:Q]] [:: [:: 0; 1%:Q]; [:: 1%:Q; 0]]
  [:: [:: 0; 1%:Q]; [:: 1%:Q; 0]] isT isT isT isT isT isT.
Defined.

(** X12: on a square matrix with two rows or more the adjugate commutes
    with the matrix: [A @ adj(A)] and [adj(A) @ A] are both [det(A)]
    times the identity, whether or not [det(A)] is zero. *)
Theorem adj_commutes (n : nat) (A : seq (seq scalar)) :
  is_shape n.+2 n.+2 A ->
  exists (d : scalar) (Ad : seq (seq scalar)),
    [/\ det (Matrix A) = Ok d,
        adj (Matrix A) = Ok (Matrix Ad),
        reduce_matmul (Matrix A) (Matrix Ad)
        = Ok (Matrix (scaled_rows d (identity_rows n.+2)))
      & reduce_matmul (Matrix Ad) (Matrix A)
        = Ok (Matrix (scaled_rows d (identity_rows n.+2)))].
Proof.
move=> sh; set N := n.+2; have N_gt0 : (0 < N)%N by [].
exists (\det (mx_of N N (entry A))), (adj_rows N (entry A)).
have shI := scaled_rows_shape (\det (mx_of N N (entry A))) (identity_rows_shape N).
have mx_I : mx_of N N (entry (scaled_rows (\det (mx_of N N (entry A)))
                                (identity_rows N)))
            = (\det (mx_of N N (entry A)))%:M.
  apply/matrixP => i j.
  rewrite !mxE (entry_scaled_rows _ (identity_rows_shape N)) //.
  by rewrite entry_identity_rows // mulr_natr.
split.
- exact: det_mx.
- exact: adj_ok.
- rewrite (reduce_matmul_ok N_gt0 N_gt0 sh (adj_rows_shape _ _)).
  congr (Ok (Matrix _)).
  apply: (@mx_of_inj_shape N N) => //; first exact: matmul_rows_shape.
  by rewrite mx_of_matmul_rows mx_of_adj_rows // mul_mx_adj mx_I.
- rewrite (reduce_matmul_ok N_gt0 N_gt0 (adj_rows_shape _ _) sh).
  congr (Ok (Matrix _)).
  apply: (@mx_of_inj_shape N N) => //; first exact: matmul_rows_shape.
  by rewrite mx_of_matmul_rows mx_of_adj_rows // mul_adj_mx mx_I.
Qed.

Lemma adj_commutes_witness :
  exists (d : scalar) (Ad : seq (seq scalar)),
    [/\ det (Matrix [:: [:: 1%:Q; 2%:Q]; [:: 2%:Q; 4%:Q]]) = Ok d,
        adj (Matrix [:: [:: 1%:Q; 2%:Q]; [:: 2%:Q; 4%:Q]]) = Ok (Matrix Ad)
      & reduce_matmul (Matrix Ad) (Matrix [:: [:: 1%:Q; 2%:Q]; [:: 2%:Q; 4%:Q]])
        = Ok (Matrix (scaled_rows d (identity_rows 2)))].
Proof.
have [d [Ad [det_A adj_A _ adj_mul]]] := @adj_commutes 0
  [:: [:: 1%:Q; 2%:Q]; [:: 2%:Q; 4%:Q]] isT.
by exists d, Ad.
Defined.

(** ** Powers and inverses *)

Lemma pow_nonneg (n : nat) (A : seq (seq scalar)) (k : Z) :
  (0 < n)%N -> is_shape n n A -> (0 <= k)%Z ->
  reduce_matrix_inverse (Matrix A) (PyInt k)
  = Ok (Matrix (naive_pow n A (Z.to_nat k))).
Proof.
move=> n_gt0 sh k_ge0.
have abs_k : Z.abs k = k by lia.
have loop := pow_loop_from_identity n_gt0 sh k_ge0.
rewrite /reduce_matrix_inverse (nrows_shape sh) (ncols_shape n_gt0 sh) !bind_ok.
rewrite ifN ?negbK ?eqxx // identity_matrix_ok // bind_ok abs_k loop bind_ok.
by case: Z.geb_spec => //; lia.
Qed.

(** X13: a non-negative power is the repeated product: the power 1 is the
    matrix, and the power [a + b] is the product of the powers [a] and
    [b]; so exponentiation by squaring multiplies [A] by itself [k]
    times. *)
Theorem pow_is_repeated_product (n : nat) (A : seq (seq scalar)) (a b : Z) :
  (0 < n)%N -> is_shape n n A -> (0 <= a)%Z -> (0 <= b)%Z ->
  [/\ reduce_matrix_inverse (Matrix A) (PyInt 1) = Ok (Matrix A),
      (Let P := reduce_matrix_inverse (Matrix A) (PyInt a) in
       Let Q := reduce_matrix_inverse (Matrix A) (PyInt b) in
       reduce_matmul P Q)
      = reduce_matrix_inverse (Matrix A) (PyInt (a + b))
    & (Let P := reduce_matrix_inverse (Matrix A) (PyInt a) in
       reduce_matmul P (Matrix A))
      = reduce_matrix_inverse (Matrix A) (PyInt (a + 1))].
Proof.
move=> n_gt0 sh a_ge0 b_ge0.
have pow1 : reduce_matrix_inverse (Matrix A) (PyInt 1) = Ok (Matrix A).
  by rewrite (pow_nonneg n_gt0 sh) // -[Z.to_nat 1]/1%N naive_pow1.
have pow_add x y : (0 <= x)%Z -> (0 <= y)%Z ->
    (Let P := reduce_matrix_inverse (Matrix A) (PyInt x) in
     Let Q := reduce_matrix_inverse (Matrix A) (PyInt y) in
     reduce_matmul P Q)
    = reduce_matrix_inverse (Matrix A) (PyInt (x + y)).
  move=> x_ge0 y_ge0; have xy_ge0 : (0 <= x + y)%Z by lia.
  rewrite (pow_nonneg n_gt0 sh x_ge0) (pow_nonneg n_gt0 sh y_ge0) !bind_ok.
  rewrite (pow_nonneg n_gt0 sh xy_ge0).
  rewrite (reduce_matmul_ok n_gt0 n_gt0 (naive_pow_shape _ _ _)
             (naive_pow_shape _ _ _)).
  by rewrite matmul_naive_pow // Z2Nat.inj_add.
split=> //; first exact: pow_add.
by rewrite -(pow_add a 1%Z) // pow1; case: reduce_matrix_inverse.
Qed.

Lemma pow_is_repeated_product_witness :
  (Let P := reduce_matrix_inverse (Matrix [:: [:: 1%:Q; 1%:Q]; [:: 0; 1%:Q]])
                                  (PyInt 2) in
   reduce_matmul P (Matrix [:: [:: 1%:Q; 1%:Q]; [:: 0; 1%:Q]]))
  = reduce_matrix_inverse (Matrix [:: [:: 1%:Q; 1%:Q]; [:: 0; 1%:Q]])
                          (PyInt (2 + 1)).
Proof.
have two_ge0 : (0 <= 2)%Z by lia.
have zero_ge0 : (0 <= 0)%Z by lia.
by have [] := @pow_is_repeated_product 2 [:: [:: 1%:Q; 1%:Q]; [:: 0; 1%:Q]]
  2 0 isT isT two_ge0 zero_ge0.
Defined.

Lemma det_naive_pow (n : nat) (A : seq (seq scalar)) (k : nat) :
  is_shape n n A ->
  \det (mx_of n n (entry (naive_pow n A k)))
  = \det (mx_of n n (entry A)) ^+ k.
Proof.
move=> sh; elim: k => [|k IH].
  by rewrite [naive_pow _ _ _]/= mx_of_identity_rows det1 expr0.
rewrite -[naive_pow n A k.+1]/(matmul_rows n n n (naive_pow n A k) A).
by rewrite mx_of_matmul_rows det_mulmx IH exprSr.
Qed.

(** X14: a negative power is the inverse of the positive one: for a square
    matrix [A] with two rows or more and a nonzero determinant, the
    products of [A ** k] and [A ** -k], in both orders, are the identity
    matrix. *)
Theorem negative_power_is_inverse (n : nat) (A : seq (seq scalar))
    (d : scalar) (k : Z) :
  is_shape n.+2 n.+2 A -> det (Matrix A) = Ok d -> d != 0 -> (0 < k)%Z ->
  exists P Q : seq (seq scalar),
    [/\ reduce_matrix_inverse (Matrix A) (PyInt k) = Ok (Matrix P),
        reduce_matrix_inverse (Matrix A) (PyInt (- k)) = Ok (Matrix Q),
        reduce_matmul (Matrix P) (Matrix Q) = identity_matrix (Z.of_nat n.+2)
      & reduce_matmul (Matrix Q) (Matrix P) = identity_matrix (Z.of_nat n.+2)].
Proof.
move=> sh det_A d_neq0 k_gt0; set N := n.+2; have N_gt0 : (0 < N)%N by [].
have k_ge0 : (0 <= k)%Z by lia.
pose P := naive_pow N A (Z.to_nat k).
have shP : is_shape N N P by apply: naive_pow_shape.
pose dP := \det (mx_of N N (entry P)).
have dP_neq0 : dP != 0.
  rewrite /dP det_naive_pow // expf_neq0 //.
  by move: det_A; rewrite (det_mx N_gt0 sh) => -[->].
pose Q := [seq [seq v / dP | v <- rw] | rw <- adj_rows N (entry P)].
have shQ : is_shape N N Q by apply/scaled_shape/adj_rows_shape.
have mx_Q : mx_of N N (entry Q) = dP^-1 *: \adj (mx_of N N (entry P)).
  rewrite -mx_of_adj_rows //; apply/matrixP => i j; rewrite !mxE /entry.
  rewrite (nth_map [::]) ?(shape_size (adj_rows_shape _ _)) //.
  rewrite (nth_map 0) ?(shape_row (adj_rows_shape _ _)) //.
  by rewrite mulrC.
exists P, Q; split.
- exact: pow_nonneg.
- have abs_k : Z.abs (- k) = k by lia.
  have loop := pow_loop_from_identity N_gt0 sh k_ge0.
  rewrite /reduce_matrix_inverse (nrows_shape sh) (ncols_shape N_gt0 sh) !bind_ok.
  rewrite ifN ?negbK ?eqxx // identity_matrix_ok // bind_ok abs_k loop bind_ok.
  case: Z.geb_spec => [|_]; first by lia.
  rewrite /pow_expr -/P (det_mx N_gt0 shP) bind_ok (adj_ok shP) bind_ok.
  rewrite [args_of _]/= map_frac_nonzero // bind_ok.
  exact: matrix_ok N_gt0 shQ.
- rewrite (reduce_matmul_ok N_gt0 N_gt0 shP shQ) identity_matrix_ok //.
  congr (Ok (Matrix _)).
  apply: (@mx_of_inj_shape N N); first exact: matmul_rows_shape.
    exact: identity_rows_shape.
  rewrite mx_of_matmul_rows mx_Q mx_of_identity_rows -scalemxAr mul_mx_adj.
  by rewrite scale_scalar_mx mulVf.
- rewrite (reduce_matmul_ok N_gt0 N_gt0 shQ shP) identity_matrix_ok //.
  congr (Ok (Matrix _)).
  apply: (@mx_of_inj_shape N N); first exact: matmul_rows_shape.
    exact: identity_rows_shape.
  rewrite mx_of_matmul_rows mx_Q mx_of_identity_rows -scalemxAl mul_adj_mx.
  by rewrite scale_scalar_mx mulVf.
Qed.

Lemma negative_power_is_inverse_witness :
  exists P Q : seq (seq scalar),
    [/\ reduce_matrix_inverse (Matrix [:: [:: 2%:Q; 0]; [:: 0; 2%:Q]]) (PyInt 1)
        = Ok (Matrix P),
        reduce_matrix_inverse (Matrix [:: [:: 2%:Q; 0]; [:: 0; 2%:Q]])
                              (PyInt (- 1))
        = Ok (Matrix Q)
      & reduce_matmul (Matrix P) (Matrix Q) = identity_matrix (Z.of_nat 2)].
Proof.
have det_A : det (Matrix [:: [:: 2%:Q; 0]; [:: 0; 2%:Q]]) = Ok 4%:Q.
  by vm_compute.
have [P [Q [pow_k pow_mk PQ _]]] := @negative_power_is_inverse 0
  [:: [:: 2%:Q; 0]; [:: 0; 2%:Q]] 4%:Q 1 isT det_A isT (erefl Lt).
by exists P, Q.
Defined.

(** ** Rank and nullity *)

(** X15: the rank is at most the number of rows and at most the number of
    columns, so the nullity is never negative. *)
Theorem rank_bounds (rows cols : nat) (A : seq (seq scalar)) :
  (0 < rows)%N -> is_shape rows cols A ->
  exists k : nat,
    [/\ rank (Matrix A) = Ok k, (k <= rows)%N, (k <= cols)%N
      & nullity (Matrix A) = Ok (Z.of_nat (cols - k))].
Proof.
move=> rows_gt0 sh; pose E := row_reduce_fun rows cols cols false A.
have red_A := row_reduce_default false None rows_gt0 sh.
have rank_A : rank (Matrix A) = Ok (nonzero_rows E) by rewrite /rank /= red_A.
have [r [p ech]] := row_reduce_fun_echelon sh.
have eq_r := nonzero_rows_echelon ech.
have le_cols := echelon_le_cols ech.
have [_ le_rows _ _ _] := ech.
exists (nonzero_rows E); rewrite -/E in eq_r *; rewrite eq_r; split=> //.
- by rewrite rank_A eq_r.
- rewrite /nullity [is_matrix _]/= (ncols_shape rows_gt0 sh) rank_A eq_r.
  by rewrite bind_ok bind_ok; congr (Ok _); nat_lia.
Qed.

Lemma rank_bounds_witness :
  exists k : nat,
    [/\ rank (Matrix [:: [:: 1%:Q; 2%:Q]; [:: 2%:Q; 4%:Q]; [:: 0; 1%:Q]]) = Ok k,
        (k <= 3)%N & (k <= 2)%N].
Proof.
have [k [rank_A le_rows le_cols _]] := @rank_bounds 3 2
  [:: [:: 1%:Q; 2%:Q]; [:: 2%:Q; 4%:Q]; [:: 0; 1%:Q]] isT isT.
by exists k.
Defined.

(** ** The solutions after row reduction *)

(** X16: row reduction keeps the solutions: whatever [rref], [steps_out]
    and the integer (or absent) [to_col], the matrix that [row_reduce]
    returns has the shape of [A], and a vector [x] solves its
    homogeneous system exactly when it solves that of [A]. *)
Theorem row_reduce_same_solutions (rows cols : nat) (A : seq (seq scalar))
    (rref : bool) (steps : option (seq step)) (to_col : option Z) :
  (0 < rows)%N -> is_shape rows cols A ->
  exists R : seq (seq scalar),
    [/\ (row_reduce (Matrix A) rref steps (omap PyInt to_col)).2 = Ok (Matrix R),
        is_shape rows cols R
      & forall x, solves cols A x <-> solves cols R x].
Proof.
move=> rows_gt0 sh.
have [t chk] : exists t, check_to_col cols (omap PyInt to_col) = Ok t.
  by case: to_col => [z|]; eexists.
have [steps' run] := row_reduce_ok rref steps rows_gt0 sh chk.
exists (row_reduce_fun rows cols (Z.to_nat t) rref A); split.
- by rewrite run.
- exact: row_reduce_fun_shape.
- exact: same_row_reduce_fun.
Qed.

Lemma row_reduce_same_solutions_witness :
  exists R : seq (seq scalar),
    (row_reduce (Matrix [:: [:: 1%:Q; 2%:Q]; [:: 2%:Q; 4%:Q]]) true None None).2
    = Ok (Matrix R)
    /\ forall x, solves 2 [:: [:: 1%:Q; 2%:Q]; [:: 2%:Q; 4%:Q]] x <-> solves 2 R x.
Proof.
have [R [red_A _ sol]] := @row_reduce_same_solutions 2 2
  [:: [:: 1%:Q; 2%:Q]; [:: 2%:Q; 4%:Q]] true None None isT isT.
by exists R.
Defined.

(** ** The trace of row reduction *)

Section Trace.

Variable rel : option (seq step) -> option (seq step) -> Prop.
Hypothesis rel_append : forall a b s,
  rel a b -> rel (omap (fun l => rcons l s) a) (omap (fun l => rcons l s) b).

Local Notation R := (trace_rel rel).

Lemma mat_get_trace (i k : nat) : sim R (mat_get i k) (mat_get i k).
Proof. by move=> s1 s2 [eq_mat rel_s]; rewrite /mat_get /= eq_mat. Qed.

Lemma mat_set_trace (i k : nat) (v : scalar) : sim R (mat_set i k v) (mat_set i k v).
Proof.
move=> s1 s2 [eq_mat rel_s]; rewrite /mat_set eq_mat.
by case: (bind _ _) => [m|e].
Qed.

Lemma mat_swap_trace (i j : nat) : sim R (mat_swap i j) (mat_swap i j).
Proof.
move=> s1 s2 [eq_mat rel_s]; rewrite /mat_swap eq_mat.
by case: (bind _ _) => [m|e].
Qed.

Lemma steps_append_trace (s : step) : sim R (steps_append s) (steps_append s).
Proof.
by move=> s1 s2 [eq_mat rel_s]; rewrite /steps_append /=; split=> //; split=> //=; apply: rel_append.
Qed.

Lemma row_reduce_trace_rel (A : seq (seq scalar)) (rref : bool)
    (steps1 steps2 : option (seq step)) (to_col : option pyval) :
  rel steps1 steps2 ->
  rel (row_reduce (Matrix A) rref steps1 to_col).1
      (row_reduce (Matrix A) rref steps2 to_col).1
  /\ (row_reduce (Matrix A) rref steps1 to_col).2
     = (row_reduce (Matrix A) rref steps2 to_col).2.
Proof.
move=> rel_steps; rewrite /row_reduce /=.
set A' := [seq [seq v | v <- rw] | rw <- A].
set run := bindM _ _.
have sim_run : sim R run run.
  rewrite /run; apply: sim_bind => [|row0]; first exact: sim_lift.
  apply: sim_bind => [|tc]; first exact: sim_lift.
  apply: sim_bind => [|_].
    apply: sim_row_reduce_loops.
    - exact: mat_get_trace.
    - exact: mat_set_trace.
    - exact: mat_swap_trace.
    - exact: steps_append_trace.
  by move=> s1 s2 [eq_mat rel_s]; rewrite /= eq_mat.
have [] := sim_run (RRState A' steps1) (RRState A' steps2).
  by split.
case: (run _) => st1 r1; case: (run _) => st2 r2 /= [_ rel_st] ->.
by [].
Qed.

End Trace.

(** X17: the list [steps_out] does not change what [row_reduce] answers,
    and the call only appends to it: the list holds what it held, then
    the steps that the call records on an empty list. *)
Theorem row_reduce_trace (A : seq (seq scalar)) (rref : bool)
    (to_col : option pyval) (log : seq step) :
  let base := row_reduce (Matrix A) rref (Some [::]) to_col in
  row_reduce (Matrix A) rref None to_col = (None, base.2)
  /\ exists2 t, base.1 = Some t
       & row_reduce (Matrix A) rref (Some log) to_col = (Some (log ++ t), base.2).
Proof.
move=> base.
pose rel0 (a b : option (seq step)) := b = None.
pose rel1 (a b : option (seq step)) :=
  exists2 t, a = Some t & b = Some (log ++ t).
have rel0_append a b s :
    rel0 a b -> rel0 (omap (fun l => rcons l s) a) (omap (fun l => rcons l s) b).
  by rewrite /rel0 => ->.
have rel1_append a b s :
    rel1 a b -> rel1 (omap (fun l => rcons l s) a) (omap (fun l => rcons l s) b).
  by case=> t -> ->; exists (rcons t s); rewrite //= rcons_cat.
have start0 : rel0 (Some [::]) None by [].
have start1 : rel1 (Some [::]) (Some log) by exists [::]; rewrite ?cats0.
have [rel_0 eq_0] := row_reduce_trace_rel rel0_append A rref to_col start0.
have [[t eq_t eq_log] eq_1] :=
  row_reduce_trace_rel rel1_append A rref to_col start1.
split; last exists t => //.
  by rewrite [LHS]surjective_pairing rel_0 -eq_0.
by rewrite [LHS]surjective_pairing eq_log -eq_1.
Qed.

(** ** The bound [to_col] *)

Lemma row_reduce_fun_tc0 (rows cols : nat) (rref : bool) (m : seq (seq scalar)) :
  row_reduce_fun rows cols 0 rref m = m.
Proof.
rewrite /row_reduce_fun /= andbF /=; case: rref => //.
rewrite /bwd_fun; elim: (rev _) => //.
Qed.

(** X18: a bound [to_col] of zero or less is accepted and nothing is
    reduced: the answer is the matrix itself; a bound of the number of
    columns or more is the same as no bound; a bound that is not an
    [int] (a [float], a [str], a [bool]) raises [ValueError] and leaves
    [steps_out] as it is. *)
Theorem row_reduce_to_col (rows cols : nat) (A : seq (seq scalar))
    (rref : bool) (steps : option (seq step)) :
  (0 < rows)%N -> is_shape rows cols A ->
  [/\ forall z, (z <= 0)%Z ->
        (row_reduce (Matrix A) rref steps (Some (PyInt z))).2 = Ok (Matrix A),
      forall z, (Z.of_nat cols <= z)%Z ->
        (row_reduce (Matrix A) rref steps (Some (PyInt z))).2
        = (row_reduce (Matrix A) rref steps None).2
    & forall repr,
        row_reduce (Matrix A) rref steps (Some (PyOther repr))
        = (steps, Raise ValueError)].
Proof.
move=> rows_gt0 sh; split=> [z z_le0 | z le_z | repr].
- have [steps' ->] := @row_reduce_ok rows cols A rref steps (Some (PyInt z))
    (Z.min (Z.of_nat cols) z) rows_gt0 sh (erefl _).
  have -> : Z.to_nat (Z.min (Z.of_nat cols) z) = 0%N by lia.
  by rewrite row_reduce_fun_tc0.
- have [steps1 ->] := @row_reduce_ok rows cols A rref steps (Some (PyInt z))
    (Z.min (Z.of_nat cols) z) rows_gt0 sh (erefl _).
  have [steps2 ->] := @row_reduce_ok rows cols A rref steps None
    (Z.min (Z.of_nat cols) (Z.of_nat cols)) rows_gt0 sh (erefl _).
  have -> // : Z.to_nat (Z.min (Z.of_nat cols) z)
               = Z.to_nat (Z.min (Z.of_nat cols) (Z.of_nat cols)) by lia.
- rewrite /row_reduce /=.
  have sz : size A = rows := shape_size sh.
  by case: A sh sz rows_gt0 => [|row0 A] sh sz; rewrite -?sz.
Qed.

Lemma row_reduce_to_col_witness :
  (row_reduce (Matrix [:: [:: 0; 2%:Q]; [:: 3%:Q; 4%:Q]]) true None
              (Some (PyInt (- 1)))).2
  = Ok (Matrix [:: [:: 0; 2%:Q]; [:: 3%:Q; 4%:Q]]).
Proof.
have [none _ _] := @row_reduce_to_col 2 2
  [:: [:: 0; 2%:Q]; [:: 3%:Q; 4%:Q]] true None isT isT.
by apply: none.
Defined.

(** ** Shared rows *)

(** X19: what [row_reduce] answers and records depends on the entries of
    its argument and on the contents of [steps_out], not on the objects
    that hold them: on a heap where the rows of the argument may be one
    shared list, the call answers the matrix, or raises the exception,
    that it answers on the rows as values, and the list holds the same
    trace. *)
Theorem row_reduce_shared_rows (h : heap) (args : nat) (A : seq (seq scalar))
    (rref : bool) (steps_loc : option nat) (steps : option (seq step))
    (to_col : option pyval) :
  read_rows h args = Ok A -> steps_rep steps_loc steps h ->
  let run := row_reduce_heap (HExpr "matrix" args) rref steps_loc to_col h in
  let val := row_reduce (Matrix A) rref steps to_col in
  steps_rep steps_loc val.1 run.1
  /\ (Let e := run.2 in expr_of run.1 e) = val.2.
Proof. exact: row_reduce_heap_refines. Qed.

Lemma row_reduce_shared_rows_witness :
  let run := row_reduce_heap (HExpr "matrix" 1) true None None shared_heap in
  let val := row_reduce (Matrix [:: [:: 1%:Q; 2%:Q]; [:: 1%:Q; 2%:Q]])
                        true None None in
  steps_rep None val.1 run.1 /\ (Let e := run.2 in expr_of run.1 e) = val.2.
Proof.
by apply: row_reduce_shared_rows; vm_compute.
Defined.

(** ** Sums and products *)

Lemma matrix_sumC (r c : nat) (A B : seq (seq scalar)) :
  is_shape r c A -> is_shape r c B -> matrix_sum A B = matrix_sum B A.
Proof.
move=> shA shB.
apply: (shape_ext (matrix_sum_shape shA shB) (matrix_sum_shape shB shA)).
by move=> i j lt_i lt_j; rewrite !(@entry_matrix_sum r c) // addrC.
Qed.

Lemma matrix_addition_two (r c : nat) (A B : seq (seq scalar)) :
  (0 < r)%N -> is_shape r c A -> is_shape r c B ->
  rule_matrix_addition [:: Matrix A; Matrix B]
  = Ok (Plus [:: Matrix (matrix_sum A B)]).
Proof.
move=> r_gt0 shA shB.
rewrite (@matrix_addition_pair [::] [::] [::] A B) //.
rewrite (nrows_shape shA) (nrows_shape shB) !bind_ok eqxx /=.
by rewrite (ncols_shape r_gt0 shA) (ncols_shape r_gt0 shB) !bind_ok eqxx.
Qed.

(** X20: the sum of two matrices does not depend on their order, and the
    product distributes over it: [(A + B) @ C] is [A @ C + B @ C]. *)
Theorem matmul_distributes (m n p : nat) (A B C : seq (seq scalar)) :
  (0 < m)%N -> (0 < n)%N ->
  is_shape m n A -> is_shape m n B -> is_shape n p C ->
  exists S P : seq (seq scalar),
    [/\ rule_matrix_addition [:: Matrix A; Matrix B] = Ok (Plus [:: Matrix S]),
        rule_matrix_addition [:: Matrix B; Matrix A] = Ok (Plus [:: Matrix S]),
        reduce_matmul (Matrix S) (Matrix C) = Ok (Matrix P)
      & (Let AC := reduce_matmul (Matrix A) (Matrix C) in
         Let BC := reduce_matmul (Matrix B) (Matrix C) in
         rule_matrix_addition [:: AC; BC])
        = Ok (Plus [:: Matrix P])].
Proof.
move=> m_gt0 n_gt0 shA shB shC.
have shS := matrix_sum_shape shA shB.
exists (matrix_sum A B), (matmul_rows m n p (matrix_sum A B) C); split.
- exact: matrix_addition_two m_gt0 shA shB.
- by rewrite (matrix_sumC shA shB); apply: matrix_addition_two m_gt0 shB shA.
- exact: reduce_matmul_ok.
- rewrite (reduce_matmul_ok m_gt0 n_gt0 shA shC) bind_ok.
  rewrite (reduce_matmul_ok m_gt0 n_gt0 shB shC) bind_ok.
  rewrite (matrix_addition_two m_gt0 (matmul_rows_shape _ _ _ _ _)
             (matmul_rows_shape _ _ _ _ _)).
  congr (Ok (Plus [:: Matrix _])).
  apply: (@shape_ext m p).
  + exact: matrix_sum_shape (matmul_rows_shape _ _ _ _ _)
                            (matmul_rows_shape _ _ _ _ _).
  + exact: matmul_rows_shape.
  move=> i j lt_i lt_j.
  rewrite (entry_matrix_sum (matmul_rows_shape _ _ _ _ _)
             (matmul_rows_shape _ _ _ _ _)) // !entry_matmul_rows //.
  rewrite -big_split /=; apply: eq_big_nat => k /andP [_ lt_k].
  by rewrite (entry_matrix_sum shA shB) // mulrDl.
Qed.

Lemma matmul_distributes_witness :
  exists S P : seq (seq scalar),
    [/\ rule_matrix_addition [:: Matrix [:: [:: 1%:Q; 2%:Q]];
                                 Matrix [:: [:: 3%:Q; 4%:Q]]]
        = Ok (Plus [:: Matrix S]),
        reduce_matmul (Matrix S) (Matrix [:: [:: 1%:Q]; [:: 1%:Q]])
        = Ok (Matrix P)
      & (Let AC := reduce_matmul (Matrix [:: [:: 1%:Q; 2%:Q]])
                                 (Matrix [:: [:: 1%:Q]; [:: 1%:Q]]) in
         Let BC := reduce_matmul (Matrix [:: [:: 3%:Q; 4%:Q]])
                                 (Matrix [:: [:: 1%:Q]; [:: 1%:Q]]) in
         rule_matrix_addition [:: AC; BC])
        = Ok (Plus [:: Matrix P])].
Proof.
have [S [P [sum_AB _ SC dist]]] := @matmul_distributes 1 2 1
  [:: [:: 1%:Q; 2%:Q]] [:: [:: 3%:Q; 4%:Q]] [:: [:: 1%:Q]; [:: 1%:Q]]
  isT isT isT isT isT.
by exists S, P.
Defined.

(** ** Stacking row vectors *)

Lemma row_int (r c : nat) (A : seq (seq scalar)) (k : nat) :
  (0 < r)%N -> is_shape r c A -> (k < r)%N ->
  row (Matrix A) (IdxInt (Z.of_nat k.+1)) = Ok (Matrix [:: nth [::] A k]).
Proof.
move=> r_gt0 sh lt_k.
rewrite -[row _ _]/(row (Matrix A) (IdxList [:: PyInt (Z.of_nat k.+1)])).
rewrite (row_list _ r_gt0 sh) /= andbT.
have -> : in_bounds r (Z.of_nat k.+1).
  by apply/andP; split; apply/Z.leb_spec0; nat_lia.
by congr (Ok (Matrix [:: nth _ _ _])); lia.
Qed.

Lemma all_r_ncols_rows (c : nat) (A : seq (seq scalar)) :
  all (fun rw => size rw == c) A ->
  all_r (fun e => Let k := ncols e in Ok (c == k))
        [seq Matrix [:: rw] | rw <- A] = Ok true.
Proof.
elim: A => //= rw A IH /andP [/eqP sz_rw /IH ->].
by rewrite /ncols sz_rw /= eqxx.
Qed.

(** X21: [row(A, i)] is row [i] as a row vector, and stacking the row
    vectors [row(A, 1)], ..., [row(A, nrows)] with [matrix_with_rows]
    gives [A] back. *)
Theorem matrix_with_rows_of_row_vectors (r c : nat) (A : seq (seq scalar)) :
  (0 < r)%N -> is_shape r c A ->
  exists2 rs,
    map_r (fun i => row (Matrix A) (IdxInt i)) (irange r) = Ok rs
    & rs = [seq Matrix [:: rw] | rw <- A]
      /\ matrix_with_rows rs = Ok (Matrix A).
Proof.
move=> r_gt0 sh; have sz := shape_size sh.
have all_c : all (fun rw => size rw == c) A by case/andP: sh.
exists [seq Matrix [:: rw] | rw <- A].
  rewrite irange_nat map_r_map.
  have -> : [seq Matrix [:: rw] | rw <- A]
            = [seq Matrix [:: nth [::] A k] | k <- iota 0 r].
    apply: (@eq_from_nth _ (Num 0)); first by rewrite !size_map size_iota.
    move=> k; rewrite size_map sz => lt_k.
    by rewrite (nth_map [::]) ?sz // (nth_map 0%N) ?size_iota // nth_iota.
  rewrite -map_r_ok; apply: eq_map_r_nat => k; rewrite add0n => /andP [_ lt_k].
  exact: (row_int r_gt0 sh lt_k).
split=> //; rewrite /matrix_with_rows size_map sz eqn0Ngt r_gt0 /=.
have -> : all is_matrix [seq Matrix [:: rw] | rw <- A].
  by rewrite all_map; apply/allP.
rewrite (getitem_nth (Num 0)) ?size_map ?sz // (nth_map [::]) ?sz //=.
rewrite /ncols (shape_row sh r_gt0) -/(ncols _) /=.
rewrite -[all_r _ _]/(all_r (fun e => Let k := ncols e in Ok (c == k))
                            [seq Matrix [:: rw] | rw <- A]).
rewrite (all_r_ncols_rows all_c) /= -map_comp.
by congr (Ok (Matrix _)); elim: (A) => //= rw A' ->.
Qed.

Lemma matrix_with_rows_of_row_vectors_witness :
  exists2 rs,
    map_r (fun i => row (Matrix [:: [:: 1%:Q; 2%:Q]; [:: 3%:Q; 4%:Q]]) (IdxInt i))
          (irange 2) = Ok rs
    & matrix_with_rows rs = Ok (Matrix [:: [:: 1%:Q; 2%:Q]; [:: 3%:Q; 4%:Q]]).
Proof.
have [rs rows_A [_ stack]] := @matrix_with_rows_of_row_vectors 2 2
  [:: [:: 1%:Q; 2%:Q]; [:: 3%:Q; 4%:Q]] isT isT.
by exists rs.
Defined.
